(** * urlpattern-router: a shallow embedding of [src/router.ts]

    The development follows the router class member by member: the two
    regular expressions it uses ([add]'s test for a dynamic template and
    [handle]'s path extraction), the route tables and the shared route
    objects, the chain composer [composeMiddleware], [#handleRoute],
    [match] and [handle].  The earlier variant of [match] and
    [#handleRoute] kept in [src/unnamed/part_001] is embedded in
    [Module Sketch], and the type-level functions of
    [src/route_path.ts] in [Module RoutePath].

    Modelling decisions:
    - Handlers are user code.  A handler body is a tree of the actions the
      router can observe ([Prog]); every promise a handler creates is
      awaited where it is created, so one chain execution is a sequential
      run over an explicit state ([Exec]): the context object, the
      [index] of the composed closure and the trace of events.
    - Route objects live in a heap and are shared by reference between
      the tables, the cache and the closures [match] returns.
    - The rest arguments ([...args]) are handed through unchanged by every
      function of the class and are left out.
    - [URLPattern] is the platform's: a pattern is its [pathname] string
      and its [exec] function, and the constructor is a parameter of the
      registration functions.
    - The tables are plain objects.  They are modelled as the maps of
      their own properties, and [match_] is the source's [match] for
      methods and paths that name no property of [Object.prototype]
      ([own_key]); [Module Prototype] gives [match] with the lookups
      that reach the prototype. *)

From Stdlib Require Import ZArith Lia Ascii String.
From stdpp Require Import base option list strings gmap fin_maps.
From Equations Require Import Equations.
From Equations.Prop Require Import Logic.

Open Scope string_scope.
Open Scope list_scope.

(** ** Regular expressions

    The two literals of the source only use single-character classes with
    the quantifiers [?], [+] and [*], one alternation and one capture
    group.  [items] is the usual greedy backtracking matcher over such a
    sequence, in continuation-passing style: the continuation is what the
    rest of the expression does with the remaining input. *)
Module Regex.

Inductive Cls :=
| Is (c : ascii)       (* a literal character, e.g. [\/] *)
| IsNot (c : ascii).   (* a negated class of one character, e.g. [[^/]] *)

Inductive Item :=
| One (c : Cls)
| Opt (c : Cls)        (* c? *)
| Plus (c : Cls)       (* c+ *)
| Star (c : Cls).      (* c* *)

Definition accepts (cl : Cls) (c : ascii) : bool :=
  match cl with
  | Is d => bool_decide (c = d)
  | IsNot d => negb (bool_decide (c = d))
  end.

Section Matcher.
Context {R : Type}.

(** Greedy [c*]: consume as long as possible, give characters back one
    at a time while the continuation fails. *)
Fixpoint star (cl : Cls) (k : string -> option R) (s : string) : option R :=
  match s with
  | String c s' =>
      if accepts cl c
      then match star cl k s' with
           | Some r => Some r
           | None => k s
           end
      else k s
  | EmptyString => k s
  end.

Fixpoint items (its : list Item) (k : string -> option R) (s : string)
  : option R :=
  match its with
  | [] => k s
  | One cl :: its' =>
      match s with
      | String c s' => if accepts cl c then items its' k s' else None
      | EmptyString => None
      end
  | Opt cl :: its' =>
      match s with
      | String c s' =>
          if accepts cl c
          then match items its' k s' with
               | Some r => Some r
               | None => items its' k s
               end
          else items its' k s
      | EmptyString => items its' k s
      end
  | Plus cl :: its' =>
      match s with
      | String c s' => if accepts cl c then star cl (items its' k) s' else None
      | EmptyString => None
      end
  | Star cl :: its' => star cl (items its' k) s
  end.
End Matcher.

(** [re.test(s)] for an unanchored alternation: some alternative matches
    at some position of [s]. *)
Definition matches_here (alts : list (list Item)) (s : string) : bool :=
  existsb (fun its => match items its (fun _ => Some tt) s with
                      | Some _ => true
                      | None => false
                      end) alts.

Fixpoint test (alts : list (list Item)) (s : string) : bool :=
  matches_here alts s ||
  match s with
  | String _ s' => test alts s'
  | EmptyString => false
  end.

(** First capture group of an expression anchored at the start, made of
    a prefix [pre] and a final group [grp]: the text of the group is
    what the group's items consumed. *)
Definition exec_group1 (pre grp : list Item) (s : string) : option string :=
  items pre
    (fun s1 => items grp
       (fun s2 => Some (String.substring 0 (String.length s1 - String.length s2) s1))
       s1)
    s.

Definition lit (s : string) : list Item :=
  (fun c => One (Is c)) <$> String.list_ascii_of_string s.

End Regex.

(** The test of [add] (line 68 of router.ts): the template contains a
    star, or a slash immediately followed by a colon. *)
Definition isDynamic (path : string) : bool :=
  Regex.test [ Regex.lit "*"; Regex.lit "/:" ] path.

(** The expression of [handle] (lines 258-259 of router.ts): anchored
    [http], an optional [s], [://], one or more characters other than a
    slash, then the captured group: a slash followed by any number of
    characters other than a question mark.  Without a match the path is
    the empty string. *)
Definition url_prefix : list Regex.Item :=
  Regex.lit "http" ++ [Regex.Opt (Regex.Is "s")] ++ Regex.lit "://"
  ++ [Regex.Plus (Regex.IsNot "/")].

Definition url_group : list Regex.Item :=
  [Regex.One (Regex.Is "/"); Regex.Star (Regex.IsNot "?")].

Definition pathname_of (url : string) : string :=
  match Regex.exec_group1 url_prefix url_group url with
  | Some p => p
  | None => ""
  end.

(** ** Requests, responses and the context object *)

Record Request := { req_method : string; req_url : string }.

(** The part of a [Response] the router and its default handlers set:
    status and body.  [new Response()] is an empty 200. *)
Record Response := { status : Z; body : string }.

Definition empty_response : Response := {| status := 200; body := "" |}.

(** What a promise settles to: a handler that throws, synchronously or
    not, and a rejected promise are both [Rejected]. *)
Inductive Outcome :=
| Resolved (r : Response)
| Rejected (e : string).

(** The two functions the router stores under the context's [next]
    property: the [next] of [#handleRoute] and, inside a composed chain,
    [next.bind(null, i + 1)]. *)
Inductive NextFn :=
| OuterNext
| BoundNext (i : Z).

(** Named groups of a pattern match; an optional group that did not take
    part in the match is present with value [None] (undefined). *)
Abbreviation Groups := (gmap string (option string)).

(** Property values of the context object.  The context is one mutable
    object shared by the caller, the router and every handler of a chain
    execution, so it is threaded as state ([Exec]) and never copied. *)
Inductive Value :=
| VUndefined
| VStr (s : string)
| VNext (n : NextFn)
| VParams (ps : Groups).

Abbreviation Context := (gmap string Value).

Definition group_value (g : option string) : Value :=
  match g with
  | Some s => VStr s
  | None => VUndefined
  end.

(** [Object.assign(context, { next }, params)]: first the [next] property,
    then every own property of [params], later sources winning. *)
Definition assign_next_params (n : NextFn) (params : Groups) (context : Context)
  : Context :=
  (group_value <$> params) ∪ <["next" := VNext n]> context.

(** [Object.assign(context, { params })] *)
Definition assign_params (params : Groups) (context : Context) : Context :=
  <["params" := VParams params]> context.

(** ** Handlers

    A handler is user code.  Its body is a tree of the things user code
    can do that the router can observe: return or throw, perform an
    effect visible outside ([Emit]: a log line, a header, a flag), read
    and write properties of the context object, and call and await a
    [next] function it holds.  The type [C] of callable [next] functions
    is [Z] (the bound position) for middleware and empty for route
    handlers, whose context type has no [next] member
    ([RequestHandler] versus [MiddlewareHandler], lines 17 and 23). *)
Inductive Prog (C : Type) : Type :=
| Return (r : Response)
| Throw (e : string)
| Emit (tag : string) (k : Prog C)
| ReadCtx (k : Context -> Prog C)
| WriteCtx (key : string) (v : Value) (k : Prog C)
| Await (c : C) (k : Outcome -> Prog C).

Arguments Return {C} r.
Arguments Throw {C} e.
Arguments Emit {C} tag k.
Arguments ReadCtx {C} k.
Arguments WriteCtx {C} key v k.
Arguments Await {C} c k.

Abbreviation Handler C := (Request -> Prog C).
Abbreviation RequestHandler := (Handler Empty_set).
Abbreviation MiddlewareHandler := (Handler Z).

(** [return await ctx.next()]: the property is read when the call is made. *)
Definition await_ctx_next (k : Outcome -> Prog Z) : Prog Z :=
  ReadCtx (fun context =>
    match context !! "next" with
    | Some (VNext (BoundNext i)) => Await i k
    | _ => Throw "ctx.next is not a function"
    end).

Definition settle {C} (o : Outcome) : Prog C :=
  match o with
  | Resolved r => Return r
  | Rejected e => Throw e
  end.

(** ** Chain execution *)

Inductive Link :=
| Mw (i : Z)      (* the middleware at position [i] of the composed array *)
| Terminal.       (* the route's own handler *)

(** What an observer of one chain execution sees, in order: each handler
    invocation with the context as it is at that moment, and the effects
    of the handlers. *)
Inductive Event :=
| Enter (l : Link) (context : Context)
| Effect (tag : string).

Record Exec := {
  ctx : Context;        (* the caller's context object *)
  index : Z;            (* [let index] of the composed closure *)
  trace : list Event
}.

Definition set_ctx (f : Context -> Context) (st : Exec) : Exec :=
  {| ctx := f (ctx st); index := index st; trace := trace st |}.
Definition set_index (i : Z) (st : Exec) : Exec :=
  {| ctx := ctx st; index := i; trace := trace st |}.
Definition log (e : Event) (st : Exec) : Exec :=
  {| ctx := ctx st; index := index st; trace := trace st ++ [e] |}.

(** Invoking a handler: the event records the context it receives. *)
Definition enter (l : Link) (st : Exec) : Exec := log (Enter l (ctx st)) st.

Fixpoint run {C} (call : C -> Exec -> Outcome * Exec) (p : Prog C) (st : Exec)
  : Outcome * Exec :=
  match p with
  | Return r => (Resolved r, st)
  | Throw e => (Rejected e, st)
  | Emit tag k => run call k (log (Effect tag) st)
  | ReadCtx k => run call (k (ctx st)) st
  | WriteCtx key v k => run call k (set_ctx (insert key v) st)
  | Await c k => let '(o, st') := call c st in run call (k o) st'
  end.

Definition no_call (c : Empty_set) (st : Exec) : Outcome * Exec :=
  match c with end.

(** [Array.prototype.at]: a negative index counts from the end. *)
Definition at_ {A} (l : list A) (i : Z) : option A :=
  if (i <? 0)%Z
  then if (0 <=? Z.of_nat (length l) + i)%Z
       then l !! Z.to_nat (Z.of_nat (length l) + i)
       else None
  else l !! Z.to_nat i.

Definition next_twice : string := "next() called multiple times".

(** The inner [next] of [composeMiddleware] (lines 171-190).  A handler
    can only be reached at a position above [index], and reaching it
    raises [index], so the recursion through the handlers is at most as
    deep as the array is long: [depth] counts that down, and
    [composeMiddleware] starts it at the length of the array (see
    [next_depth_irrelevant]). *)
Fixpoint next (depth : nat) (middlewares : list MiddlewareHandler)
  (request : Request) (i : Z) (st : Exec) : Outcome * Exec :=
  if (i <=? index st)%Z then (Rejected next_twice, st)
  else
    let st := set_index i st in
    match at_ middlewares i with
    | None => (Resolved empty_response, st)
    | Some fn =>
        match depth with
        | O => (Rejected "unreachable", st)
        | S depth' =>
            run (next depth' middlewares request) (fn request)
                (enter (Mw i) (set_ctx (insert "next" (VNext (BoundNext (i + 1)))) st))
        end
    end.

Definition composeMiddleware (middlewares : list MiddlewareHandler)
  (request : Request) (st : Exec) : Outcome * Exec :=
  next (length middlewares) middlewares request 0 (set_index (-1) st).

(** ** Routes *)

Module URLPattern.
(** The platform's [URLPattern], as far as the router uses it: the
    [pathname] property and [exec] on a pathname; [test] is true exactly
    when [exec] is not null. *)
Record t := { pathname : string; exec : string -> option Groups }.
Definition test (p : t) (path : string) : bool :=
  bool_decide (is_Some (exec p path)).
End URLPattern.

(** The members a [DynamicRoute] has on top of a [StaticRoute]. *)
Record DynamicPart := { pattern : URLPattern.t; params : Groups }.

Record Route := {
  method : string;
  pathname : string;
  handler : RequestHandler;
  middleware : option (list MiddlewareHandler);  (* the array the composed closure holds *)
  dynamic : option DynamicPart
}.

(** Line 143: the route's [params] when it has that member, else an
    empty object. *)
Definition route_params (route : Route) : Groups :=
  match dynamic route with
  | Some d => params d
  | None => ∅
  end.

(** [#handleRoute] (lines 135-163). *)
Definition handleRoute (route : Route) (request : Request) (context : Context)
  : Outcome * Exec :=
  let params := route_params route in
  let st := {| ctx := context; index := -1; trace := [] |} in
  let '(response, st) :=
    match middleware route with
    | Some composed =>
        composeMiddleware composed request
          (set_ctx (assign_next_params OuterNext params) st)
    | None => (Resolved empty_response, st)
    end in
  match response with
  | Rejected e => (Rejected e, st)
  | Resolved _ =>
      run no_call (handler route request)
          (enter Terminal (set_ctx (assign_params params) st))
  end.

(** ** The router

    Route objects are shared: the static and dynamic tables, the cache and
    the closures returned by [match] all hold references to the same
    objects, and [match] writes to them.  [heap] is the store of route
    objects, a reference is an index into it, and objects are never
    freed.  The four private fields are maps from strings as the source
    uses them (method and path keys; property names inherited from
    [Object.prototype] are not modelled, see [own_key] below). *)
Record Router := {
  heap : list Route;
  cachedRoutes : gmap string (gmap string nat);
  dynamicRoutes : gmap string (list nat);
  staticRoutes : gmap string (gmap string nat);
  middlewares : list (URLPattern.t * list MiddlewareHandler)
}.

Definition empty_router : Router :=
  {| heap := []; cachedRoutes := ∅; dynamicRoutes := ∅; staticRoutes := ∅;
     middlewares := [] |}.

(** The tables and the objects inside them are plain objects ([{}] and
    [{ [path]: route }]), whose prototype is [Object.prototype].  A lookup
    of the source by a key that names a property of the prototype finds
    the inherited value, a built-in function, where a map finds nothing:
    [this.#dynamicRoutes["constructor"]] is the function [Object], which
    the scan of the dynamic routes takes for an array, and
    [this.#staticRoutes[method]["constructor"]] is a false hit once the
    method has a static route.  The maps model the lookups by the other
    keys, the own keys, and [match_] below is the source's [match] for
    own keys ([Prototype.match_] says what the source does with an
    inherited method name).  The names of the HTTP methods are own keys,
    and so is every path that [handle] takes from a URL. *)
Definition Object_prototype_names : list string :=
  ["constructor"; "hasOwnProperty"; "isPrototypeOf"; "propertyIsEnumerable";
   "toLocaleString"; "toString"; "valueOf"; "__proto__";
   "__defineGetter__"; "__defineSetter__"; "__lookupGetter__";
   "__lookupSetter__"].

Definition own_key (key : string) : Prop := key ∉ Object_prototype_names.

(** The closure [match] returns, [(req, ctx, ...args) =>
    this.#handleRoute(req, route, ctx, ...args)], is determined by the
    route object it captured. *)
Abbreviation Chain := nat.

Definition not_found_handler : RequestHandler :=
  fun _ => Return {| status := 404; body := "Not Found" |}.

Definition set_middleware (mw : list MiddlewareHandler) (route : Route) : Route :=
  {| method := method route; pathname := pathname route; handler := handler route;
     middleware := Some mw; dynamic := dynamic route |}.

Definition set_params (groups : Groups) (route : Route) : Route :=
  {| method := method route; pathname := pathname route; handler := handler route;
     middleware := middleware route;
     dynamic := (fun d => {| pattern := pattern d; params := groups |}) <$> dynamic route |}.

(** Lines 202-211: the handlers of every entry whose pattern tests true,
    entries in table order, handlers in array order. *)
Definition collect (path : string)
  (mws : list (URLPattern.t * list MiddlewareHandler)) : list MiddlewareHandler :=
  mws ≫= (fun e => if URLPattern.test e.1 path then e.2 else []).

(** Lines 227-240, [for (let i = routes.length; i--;)]: the references are
    visited from the last to the first, so [scan] is given the array
    reversed; the first route whose pattern [exec]s to a non-null result
    is taken.  The array only ever holds references to dynamic routes
    ([wf_dynamic]); any other entry is passed over. *)
Fixpoint scan (h : list Route) (path : string) (refs : list nat)
  : option (nat * Groups) :=
  match refs with
  | [] => None
  | ref :: refs' =>
      match (h !! ref ≫= dynamic) ≫= (fun d => URLPattern.exec (pattern d) path) with
      | Some groups => Some (ref, groups)
      | None => scan h path refs'
      end
  end.

(** [this.#cachedRoutes[method] = { [path]: route }], with the heap as the
    assignments to the route object left it. *)
Definition cache_route (method path : string) (ref : nat) (h : list Route)
  (r : Router) : Router :=
  {| heap := h;
     cachedRoutes := <[method := {[path := ref]}]> (cachedRoutes r);
     dynamicRoutes := dynamicRoutes r;
     staticRoutes := staticRoutes r;
     middlewares := middlewares r |}.

(** [match] (lines 194-254). *)
Definition match_ (method path : string) (r : Router) : Chain * Router :=
  match cachedRoutes r !! method ≫= (.!! path) with
  | Some cached => (cached, r)
  | None =>
      let collection := collect path (middlewares r) in
      match staticRoutes r !! method ≫= (.!! path) with
      | Some staticRoute =>
          (staticRoute,
           cache_route method path staticRoute
             (alter (set_middleware collection) staticRoute (heap r)) r)
      | None =>
          match dynamicRoutes r !! method
                ≫= (fun routes => scan (heap r) path (reverse routes)) with
          | Some (dynamicRoute, groups) =>
              (dynamicRoute,
               cache_route method path dynamicRoute
                 (alter (fun route => set_params groups (set_middleware collection route))
                        dynamicRoute (heap r)) r)
          | None =>
              let notFoundRoute :=
                {| method := method; pathname := path; handler := not_found_handler;
                   middleware := Some collection; dynamic := None |} in
              (length (heap r),
               cache_route method path (length (heap r)) (heap r ++ [notFoundRoute]) r)
          end
      end
  end.

(** Calling a chain: [#handleRoute] on the captured route object, read
    when the call is made.  A reference handed out by [match] always
    points into the heap ([match_ref_valid]). *)
Definition invoke (r : Router) (chain : Chain) (request : Request) (context : Context)
  : Outcome * Exec :=
  match heap r !! chain with
  | Some route => handleRoute route request context
  | None => (Rejected "unreachable", {| ctx := context; index := -1; trace := [] |})
  end.

(** [handle] (lines 256-261). *)
Definition handle (r : Router) (req : Request) (context : Context)
  : Outcome * Exec * Router :=
  let method := req_method req in
  let pathname := pathname_of (req_url req) in
  let '(chain, r') := match_ method pathname r in
  (invoke r' chain req context, r').

(** ** [match] with the lookups that reach [Object.prototype]

    What [match] does when the method names a property of
    [Object.prototype] that no table holds as its own.  The two lookups
    [this.#cachedRoutes?.[method]?.[path]] and
    [this.#staticRoutes?.[method]?.[path]] then read [path] from a
    built-in function, which gives [undefined] for a path that is empty
    or starts with a slash: they miss, as in the maps.  The third,
    [this.#dynamicRoutes[method]], gives the built-in function itself,
    which is truthy, and the loop [for (let i = routes.length; i--;)]
    starts at its [length], the number of its parameters: when that is
    not zero, [routes[i]] is [undefined] and reading its [pattern] throws
    a [TypeError], before anything is assigned; when it is zero the loop
    body never runs and the not-found route is cached, the assignment to
    [this.#cachedRoutes[method]] creating an own entry. *)
Module Prototype.

(** The properties of [Object.prototype]: its functions with their
    [length], and the accessor [__proto__], whose value, the prototype
    object, has no [length]. *)
Definition members : list (string * option nat) :=
  [("constructor", Some 1); ("hasOwnProperty", Some 1); ("isPrototypeOf", Some 1);
   ("propertyIsEnumerable", Some 1); ("toLocaleString", Some 0);
   ("toString", Some 0); ("valueOf", Some 0); ("__proto__", None);
   ("__defineGetter__", Some 2); ("__defineSetter__", Some 2);
   ("__lookupGetter__", Some 1); ("__lookupSetter__", Some 1)].

Fixpoint assoc {V} (key : string) (l : list (string * V)) : option V :=
  match l with
  | [] => None
  | (k, v) :: l' => if decide (k = key) then Some v else assoc key l'
  end.

(** The [length] of the inherited value, when the key is inherited. *)
Definition inherited_length (key : string) : option (option nat) := assoc key members.

(** What a call of [match] comes to. *)
Inductive Result :=
| Returns (chain : Chain) (r : Router)  (* a closure over a route object *)
| Throws (r : Router)                   (* a [TypeError]; the router as the call left it *)
| Outside.                              (* the call is not described by the maps *)

(** The path is empty or starts with a slash, as every path [handle]
    passes. *)
Definition is_url_path (path : string) : bool :=
  match path with
  | EmptyString => true
  | String c _ => bool_decide (c = "/"%char)
  end.

(** The calls described here: the path is an own key, and the method is
    an own key too or, with a path from a URL, any name but [__proto__]
    (an assignment to [this.#cachedRoutes["__proto__"]] replaces the
    prototype of the cache). *)
Definition modelled (method path : string) : bool :=
  bool_decide (own_key path) &&
  (bool_decide (own_key method)
   || (is_url_path path && negb (bool_decide (method = "__proto__")))).

(** [match] (lines 194-254). *)
Definition match_ (method path : string) (r : Router) : Result :=
  if negb (modelled method path) then Outside else
  match cachedRoutes r !! method ≫= (.!! path) with
  | Some cached => Returns cached r
  | None =>
      let collection := collect path (middlewares r) in
      let notFoundRoute :=
        {| method := method; pathname := path; handler := not_found_handler;
           middleware := Some collection; dynamic := None |} in
      let notFound :=
        Returns (length (heap r))
                (cache_route method path (length (heap r)) (heap r ++ [notFoundRoute]) r) in
      match staticRoutes r !! method ≫= (.!! path) with
      | Some staticRoute =>
          Returns staticRoute
            (cache_route method path staticRoute
               (alter (set_middleware collection) staticRoute (heap r)) r)
      | None =>
          match dynamicRoutes r !! method with
          | Some routes =>
              match scan (heap r) path (reverse routes) with
              | Some (dynamicRoute, groups) =>
                  Returns dynamicRoute
                    (cache_route method path dynamicRoute
                       (alter (fun route =>
                                 set_params groups (set_middleware collection route))
                              dynamicRoute (heap r)) r)
              | None => notFound
              end
          | None =>
              match inherited_length method with
              | Some (Some (S _)) => Throws r
              | _ => notFound
              end
          end
      end
  end.

End Prototype.

Section Registration.

(** [new URLPattern({ pathname })], the platform's pattern compiler;
    [None] when the constructor throws on a malformed template. *)
Variable newURLPattern : string -> option URLPattern.t.

(** [add] with a single method (lines 68-93).  The route object is built
    before any table is touched, so when the pattern constructor throws
    the router is left as it was. *)
Definition add (method path : string) (handler : RequestHandler) (r : Router)
  : Router :=
  let ref := length (heap r) in
  if negb (isDynamic path) then
    let route := {| method := method; pathname := path; handler := handler;
                    middleware := None; dynamic := None |} in
    {| heap := heap r ++ [route];
       cachedRoutes := cachedRoutes r;
       dynamicRoutes := dynamicRoutes r;
       staticRoutes :=
         match staticRoutes r !! method with
         | Some byPath => <[method := <[path := ref]> byPath]> (staticRoutes r)
         | None => <[method := {[path := ref]}]> (staticRoutes r)
         end;
       middlewares := middlewares r |}
  else
    match newURLPattern path with
    | None => r
    | Some pat =>
        let route := {| method := method; pathname := path; handler := handler;
                        middleware := None;
                        dynamic := Some {| pattern := pat; params := ∅ |} |} in
        {| heap := heap r ++ [route];
           cachedRoutes := cachedRoutes r;
           dynamicRoutes :=
             match dynamicRoutes r !! method with
             | Some routes => <[method := routes ++ [ref]]> (dynamicRoutes r)
             | None => <[method := [ref]]> (dynamicRoutes r)
             end;
           staticRoutes := staticRoutes r;
           middlewares := middlewares r |}
    end.

(** [add] with an array of methods (lines 65-67). *)
Definition add_all (methods : list string) (path : string)
  (handler : RequestHandler) (r : Router) : Router :=
  foldl (fun r m => add m path handler r) r methods.

(** The loop of [use] (lines 97-103): push onto the first entry whose
    pattern's [pathname] is the given string. *)
Fixpoint use_existing (path : string) (handler : MiddlewareHandler)
  (mws : list (URLPattern.t * list MiddlewareHandler))
  : option (list (URLPattern.t * list MiddlewareHandler)) :=
  match mws with
  | [] => None
  | (pat, handlers) :: mws' =>
      if bool_decide (URLPattern.pathname pat = path)
      then Some ((pat, handlers ++ [handler]) :: mws')
      else cons (pat, handlers) <$> use_existing path handler mws'
  end.

Definition with_middlewares (mws : list (URLPattern.t * list MiddlewareHandler))
  (r : Router) : Router :=
  {| heap := heap r; cachedRoutes := cachedRoutes r;
     dynamicRoutes := dynamicRoutes r; staticRoutes := staticRoutes r;
     middlewares := mws |}.

(** [use] (lines 96-107). *)
Definition use (path : string) (handler : MiddlewareHandler) (r : Router) : Router :=
  match use_existing path handler (middlewares r) with
  | Some mws => with_middlewares mws r
  | None =>
      match newURLPattern path with
      | Some pat => with_middlewares (middlewares r ++ [(pat, [handler])]) r
      | None => r
      end
  end.

Definition get (path : string) (handler : RequestHandler) (r : Router) : Router :=
  add "HEAD" path handler (add "GET" path handler r).
Definition post (path : string) (handler : RequestHandler) (r : Router) : Router :=
  add "POST" path handler r.
Definition put (path : string) (handler : RequestHandler) (r : Router) : Router :=
  add "PUT" path handler r.
Definition delete_ (path : string) (handler : RequestHandler) (r : Router) : Router :=
  add "DELETE" path handler r.
Definition patch (path : string) (handler : RequestHandler) (r : Router) : Router :=
  add "PATCH" path handler r.
Definition options (path : string) (handler : RequestHandler) (r : Router) : Router :=
  add "OPTIONS" path handler r.

End Registration.

(** ** A pattern compiler for the closed examples

    The general statements below are about an arbitrary pattern compiler;
    the closed examples need one to run. *)
Module SegmentPattern.

Fixpoint split_slash (acc s : string) : list string :=
  match s with
  | EmptyString => [String.rev acc]
  | String c s' =>
      if bool_decide (c = "/"%char)
      then String.rev acc :: split_slash "" s'
      else split_slash (String c acc) s'
  end.

Fixpoint match_segments (tpl path : list string) : option Groups :=
  match tpl, path with
  | [], [] => Some ∅
  | t :: tpl', p :: path' =>
      match t with
      | String ":" name =>
          if bool_decide (p = "") then None
          else insert name (Some p) <$> match_segments tpl' path'
      | _ => if bool_decide (t = p) then match_segments tpl' path' else None
      end
  | _, _ => None
  end.

(** Modelled from the spec: the Pattern Matcher collaborator (the
    platform's [URLPattern], which is not part of the repository),
    restricted to templates made of literal segments and [:name] segments.
    A [:name] segment captures one non-empty path segment under [name];
    a match yields the named captures. *)
Definition compile (template : string) : option URLPattern.t :=
  Some {| URLPattern.pathname := template;
          URLPattern.exec := fun path =>
            match_segments (split_slash "" template) (split_slash "" path) |}.

End SegmentPattern.

(** ** The earlier variant of the class (src/unnamed/part_001)

    In this variant a route carries one array [handlers], which starts as
    the route handler alone and onto which [#attachMiddleware] pushes the
    selected middleware; [#handleRoute] walks that array from its last
    element down to the route handler; and the two fall-through cases of
    [match] return a constant handler and store nothing in the cache. *)
Module Sketch.

(** The middleware of this variant hold one [next] function, the [next]
    of [#handleRoute]; there is nothing to tell apart, so the type of
    callable [next] functions is [unit]. *)
Abbreviation Middleware := (Handler unit).

(** [handlers] holds the route handler at position 0 and middleware above
    it. *)
Record Route := {
  method : string;
  pathname : string;
  handlers : list (RequestHandler + Middleware);
  dynamic : option DynamicPart
}.

Record Router := {
  heap : list Route;
  cachedRoutes : gmap string (gmap string nat);
  dynamicRoutes : gmap string (list nat);
  staticRoutes : gmap string (gmap string nat);
  middlewares : list (URLPattern.t * list Middleware)
}.

(** What [match] returns: a closure over a route object, or one of the
    two constant handlers [() => new Response(...)]. *)
Inductive Chain :=
| ViaRoute (ref : nat)
| Constant (response : Response).

(** [#attachMiddleware] (lines 148-158) *)
Definition attachMiddleware (collection : list (list Middleware))
  (route : Route) : Route :=
  {| method := method route; pathname := pathname route;
     handlers := handlers route ++ (inr <$> concat collection);
     dynamic := dynamic route |}.

Definition set_params (groups : Groups) (route : Route) : Route :=
  {| method := method route; pathname := pathname route;
     handlers := handlers route;
     dynamic := (fun d => {| pattern := pattern d; params := groups |}) <$> dynamic route |}.

(** Lines 167-173: the table is walked from its last entry to its first,
    and the handler arrays of the entries that test true are collected. *)
Definition collect (path : string)
  (mws : list (URLPattern.t * list Middleware))
  : list (list Middleware) :=
  snd <$> filter (fun e => URLPattern.test e.1 path = true) (reverse mws).

Fixpoint scan (h : list Route) (path : string) (refs : list nat)
  : option (nat * Groups) :=
  match refs with
  | [] => None
  | ref :: refs' =>
      match (h !! ref ≫= dynamic) ≫= (fun d => URLPattern.exec (pattern d) path) with
      | Some groups => Some (ref, groups)
      | None => scan h path refs'
      end
  end.

Definition method_not_allowed : Response :=
  {| status := 405; body := "Method Not Allowed" |}.
Definition not_found : Response :=
  {| status := 404; body := "Not Found" |}.

Definition cache (method path : string) (ref : nat) (h : list Route) (r : Router)
  : Router :=
  {| heap := h;
     cachedRoutes := <[method := {[path := ref]}]> (cachedRoutes r);
     dynamicRoutes := dynamicRoutes r;
     staticRoutes := staticRoutes r;
     middlewares := middlewares r |}.

(** [match] (lines 160-205) *)
Definition match_ (method path : string) (r : Router) : Chain * Router :=
  match cachedRoutes r !! method ≫= (.!! path) with
  | Some cached => (ViaRoute cached, r)
  | None =>
      let collection := collect path (middlewares r) in
      match staticRoutes r !! method ≫= (.!! path) with
      | Some staticRoute =>
          (ViaRoute staticRoute,
           cache method path staticRoute
             (alter (attachMiddleware collection) staticRoute (heap r)) r)
      | None =>
          match dynamicRoutes r !! method with
          | None => (Constant method_not_allowed, r)
          | Some routes =>
              match scan (heap r) path (reverse routes) with
              | Some (ref, groups) =>
                  (ViaRoute ref,
                   cache method path ref
                     (alter (fun route => set_params groups (attachMiddleware collection route))
                            ref (heap r)) r)
              | None => (Constant not_found, r)
              end
          end
      end
  end.

Definition route_params (route : Route) : Groups :=
  match dynamic route with
  | Some d => params d
  | None => ∅
  end.

Definition not_a_function : string := "handlers[index] is not a function".

(** The [next] of [#handleRoute] (lines 124-144): [index] is counted down
    by every call, the handler at a position above 0 is called with [next]
    on the context, the one at position 0 (or below, where there is none)
    with [params].  A handler can only reach handlers below its own
    position, so the recursion is at most as deep as the array is long,
    which is what [depth] starts at. *)
Fixpoint next (depth : nat) (handlers : list (RequestHandler + Middleware))
  (params : Groups) (request : Request) (st : Exec) : Outcome * Exec :=
  let st := set_index (index st - 1) st in
  let position := if (index st <? 0)%Z then None else handlers !! Z.to_nat (index st) in
  let st' := if (0 <? index st)%Z
             then set_ctx (assign_next_params OuterNext params) st
             else set_ctx (assign_params params) st in
  match position with
  | None => (Rejected not_a_function, st')
  | Some (inl handler) => run no_call (handler request) (enter Terminal st')
  | Some (inr middleware) =>
      match depth with
      | O => (Rejected "unreachable", st')
      | S depth' =>
          run (fun _ => next depth' handlers params request) (middleware request)
              (enter (Mw (index st)) st')
      end
  end.

(** [#handleRoute] (lines 115-146) *)
Definition handleRoute (route : Route) (request : Request) (context : Context)
  : Outcome * Exec :=
  next (length (handlers route)) (handlers route) (route_params route) request
       {| ctx := context; index := Z.of_nat (length (handlers route)); trace := [] |}.

End Sketch.

(** ** Route parameter types (src/route_path.ts)

    The file computes, from the string literal type of a template, the
    type of [ctx.params].  Its conditional types are functions on string
    literals: a union of literals is the list of its members ([never] is
    the empty list).  A literal is matched against a template literal
    pattern from left to right: an [infer] position followed by a
    separator takes the text up to the first occurrence of the
    separator, and the text that ends the pattern must end the
    literal. *)
Module RoutePath.

(** [infer A], [sep], [infer B] (or any string in place of B): the two
    halves of [s] around the first [sep], when there is one. *)
Fixpoint infer_around (sep : ascii) (s : string) : option (string * string) :=
  match s with
  | EmptyString => None
  | String c s' =>
      if bool_decide (c = sep) then Some ("", s')
      else (fun ab => (String c ab.1, ab.2)) <$> infer_around sep s'
  end.

(** [infer A], [last]: what stands in front of a final [last], when
    [s] ends with it. *)
Fixpoint infer_before_last (last : ascii) (s : string) : option string :=
  match s with
  | EmptyString => None
  | String c EmptyString => if bool_decide (c = last) then Some "" else None
  | String c s' => String c <$> infer_before_last last s'
  end.

(** [IsParameter] (line 1): the name behind a leading colon. *)
Definition IsParameter (part : string) : list string :=
  match part with
  | String ":" paramName => [paramName]
  | _ => []
  end.

(** [FilteredParts] (lines 2-4): the parameter of the part in front of
    the first slash, and those of what follows it. *)
Equations? FilteredParts (path : string) : list string
  by wf (String.length path) lt :=
  FilteredParts path with inspect (infer_around "/" path) := {
    | exist _ (Some (pair partA partB)) _ := IsParameter partA ++ FilteredParts partB;
    | exist _ None _ := IsParameter path }.
Proof.
  clear FilteredParts. revert partA partB e.
  induction path as [|c path IH]; intros partA partB; simpl; [done|].
  destruct (bool_decide (c = "/"%char)).
  - intros [= _ <-]. lia.
  - destruct (infer_around "/" path) as [[a b]|]; [|done].
    intros [= _ <-]. specialize (IH a b eq_refl). lia.
Qed.

(** The four types a parameter can have (lines 6-8). *)
Inductive ParamType :=
| TString                    (* string *)
| TStringOrUndefined         (* string | undefined *)
| TStringArray               (* string[] *)
| TStringArrayOrUndefined.   (* string[] | undefined *)

(** [ParamValue] (lines 6-8): by the last character of the key. *)
Definition ParamValue (key : string) : ParamType :=
  match infer_before_last "?" key with
  | Some _ => TStringOrUndefined
  | None =>
      match infer_before_last "*" key with
      | Some _ => TStringArrayOrUndefined
      | None =>
          match infer_before_last "+" key with
          | Some _ => TStringArray
          | None => TString
          end
      end
  end.

(** [RemovePattern] (line 14): the key up to its first opening
    parenthesis. *)
Definition RemovePattern (key : string) : string :=
  match infer_around "(" key with
  | Some (name, _) => name
  | None => key
  end.

(** [RemoveOptionalSuffix] (lines 10-12) *)
Definition RemoveOptionalSuffix (key : string) : string :=
  match infer_before_last "?" key with
  | Some name => RemovePattern name
  | None =>
      match infer_before_last "*" key with
      | Some name => RemovePattern name
      | None =>
          match infer_before_last "+" key with
          | Some name => RemovePattern name
          | None => RemovePattern key
          end
      end
  end.

(** [RoutePath] (lines 16-18): the members of the mapped type, each a
    name and a type. *)
Definition RoutePath (path : string) : list (string * ParamType) :=
  (fun key => (RemoveOptionalSuffix key, ParamValue key)) <$> FilteredParts path.

End RoutePath.

(** * Vocabulary of the statements *)

(** ** Paths and templates *)

(** The part of [s] in front of its first question mark, and the rest. *)
Fixpoint before_query (s : string) : string :=
  match s with
  | EmptyString => ""
  | String c s' => if bool_decide (c = "?"%char) then "" else String c (before_query s')
  end.

Fixpoint from_query (s : string) : string :=
  match s with
  | EmptyString => ""
  | String c s' => if bool_decide (c = "?"%char) then s else from_query s'
  end.

(** [s] holds no slash. *)
Fixpoint no_slash (s : string) : bool :=
  match s with
  | EmptyString => true
  | String c s' => negb (bool_decide (c = "/"%char)) && no_slash s'
  end.

(** [s] starts with a star, or with a slash and a colon. *)
Definition dynamic_marker (s : string) : Prop :=
  (exists b, s = String "*" b) \/ (exists b, s = String "/" (String ":" b)).

(** What follows the first [://] of a URL. *)
Fixpoint after_scheme (url : string) : option string :=
  match url with
  | String ":" (String "/" (String "/" rest)) => Some rest
  | String _ url' => after_scheme url'
  | EmptyString => None
  end.

(** [s] from its first slash on. *)
Fixpoint from_slash (s : string) : string :=
  match s with
  | EmptyString => ""
  | String c s' => if bool_decide (c = "/"%char) then s else from_slash s'
  end.

(** The part of [s] in front of its first question mark or hash. *)
Fixpoint before_query_or_fragment (s : string) : string :=
  match s with
  | EmptyString => ""
  | String c s' =>
      if bool_decide (c = "?"%char) || bool_decide (c = "#"%char) then ""
      else String c (before_query_or_fragment s')
  end.

(** The path as the specification words it: what follows the authority,
    starting at its first slash, with the query string and the fragment
    left out, for a URL of any scheme. *)
Definition path_as_specified (url : string) : string :=
  match after_scheme url with
  | Some rest => before_query_or_fragment (from_slash rest)
  | None => ""
  end.

(** ** Traces of a chain execution *)

(** The handlers entered during an execution, in order. *)
Definition entered (t : list Event) : list Link :=
  omap (fun e => match e with Enter l _ => Some l | Effect _ => None end) t.

(** Positions of the middleware entered, in order. *)
Definition positions (t : list Event) : list Z :=
  omap (fun e => match e with Enter (Mw i) _ => Some i | _ => None end) t.

(** [l] climbs strictly from above [lo] and ends at most at [hi]. *)
Fixpoint ascending (lo : Z) (l : list Z) (hi : Z) : Prop :=
  match l with
  | [] => (lo <= hi)%Z
  | p :: l' => (lo < p)%Z /\ ascending p l' hi
  end.

(** The event is an effect of a handler, not the entry of one. *)
Definition is_effect (e : Event) : Prop :=
  match e with
  | Effect _ => True
  | Enter _ _ => False
  end.

(** Events of the middleware phase of a chain over [n] middleware: no
    route handler is entered, and the middleware at position [i] is an
    element of the array and is entered with [next] bound to [i + 1]. *)
Definition mw_event (n : nat) (e : Event) : Prop :=
  match e with
  | Enter Terminal _ => False
  | Enter (Mw i) c =>
      (0 <= i < Z.of_nat n)%Z /\ c !! "next" = Some (VNext (BoundNext (i + 1)))
  | Effect _ => True
  end.

(** The trace of [b] is the trace of [a] followed by events that all
    satisfy [P]. *)
Definition extends (P : Event -> Prop) (a b : Exec) : Prop :=
  exists evs, trace b = trace a ++ evs /\ Forall P evs.

(** From state [a] to state [b] of one execution of a composed chain. *)
Definition chain_run (n : nat) (a b : Exec) : Prop :=
  (-1 <= index a)%Z ->
  exists evs, trace b = trace a ++ evs /\ Forall (mw_event n) evs /\
              ascending (index a) (positions evs) (index b).

(** The state a dispatch starts from. *)
Definition start (context : Context) : Exec :=
  {| ctx := context; index := -1; trace := [] |}.

(** The first half of the [next] of [#handleRoute]: the composed
    middleware, when the route has one. *)
Definition middleware_phase (route : Route) (request : Request) (context : Context)
  : Outcome * Exec :=
  match middleware route with
  | Some composed =>
      composeMiddleware composed request
        (set_ctx (assign_next_params OuterNext (route_params route)) (start context))
  | None => (Resolved empty_response, start context)
  end.

(** The handler body never assigns to the property [key]. *)
Inductive Keeps {C} (key : string) : Prog C -> Prop :=
| keeps_return r : Keeps key (Return r)
| keeps_throw e : Keeps key (Throw e)
| keeps_emit tag k : Keeps key k -> Keeps key (Emit tag k)
| keeps_read k : (forall context, Keeps key (k context)) -> Keeps key (ReadCtx k)
| keeps_write key' v k : key' <> key -> Keeps key k -> Keeps key (WriteCtx key' v k)
| keeps_await c k : (forall o, Keeps key (k o)) -> Keeps key (Await c k).

(** No handler of the route, middleware or route handler, assigns to
    [key] when called on [request]. *)
Definition handlers_keep (key : string) (route : Route) (request : Request) : Prop :=
  Keeps key (handler route request) /\
  Forall (fun h : MiddlewareHandler => Keeps key (h request))
         (default [] (middleware route)).

(** The handler body, entered with [next] bound to [i], calls that [next]
    before it does anything else that ends it. *)
Inductive Defers (i : Z) : Prog Z -> Prop :=
| defers_emit tag k : Defers i k -> Defers i (Emit tag k)
| defers_read k :
    (forall context, context !! "next" = Some (VNext (BoundNext i)) ->
                     Defers i (k context)) ->
    Defers i (ReadCtx k)
| defers_write key v k : key <> "next" -> Defers i k -> Defers i (WriteCtx key v k)
| defers_await k : Defers i (Await i k).

(** ** Router states *)

(** No method of the cache holds more or less than one path. *)
Definition one_path_per_method (r : Router) : Prop :=
  forall method byPath, cachedRoutes r !! method = Some byPath -> size byPath = 1.

(** The response of the not-found route of router.ts (line 246). *)
Definition not_found_response : Response := {| status := 404; body := "Not Found" |}.

(** What the pattern of the route behind [ref] captures on [path]. *)
Definition exec_at (h : list Route) (path : string) (ref : nat) : option Groups :=
  (h !! ref ≫= dynamic) ≫= (fun d => URLPattern.exec (pattern d) path).

(** No dynamic route of the method has a pattern that matches the path. *)
Definition no_dynamic_match (h : list Route) (routes : option (list nat))
  (path : string) : Prop :=
  forall refs ref route d,
    routes = Some refs -> ref ∈ refs -> h !! ref = Some route ->
    dynamic route = Some d -> URLPattern.exec (pattern d) path = None.

(** The same for the routes of the earlier variant. *)
Definition Sketch_no_dynamic_match (h : list Sketch.Route) (routes : option (list nat))
  (path : string) : Prop :=
  forall refs ref route d,
    routes = Some refs -> ref ∈ refs -> h !! ref = Some route ->
    Sketch.dynamic route = Some d -> URLPattern.exec (pattern d) path = None.

(** [this.#staticRoutes?.[method]?.[path]] *)
Definition static_at (r : Router) (method path : string) : option nat :=
  staticRoutes r !! method ≫= (.!! path).


(** Every reference the tables and the cache hold points to a route
    object of the heap, and the arrays of dynamic routes hold references
    to dynamic routes only. *)
Definition wf_static (r : Router) : Prop :=
  forall method path ref,
    staticRoutes r !! method ≫= (.!! path) = Some ref -> is_Some (heap r !! ref).

Definition wf_cached (r : Router) : Prop :=
  forall method path ref,
    cachedRoutes r !! method ≫= (.!! path) = Some ref -> is_Some (heap r !! ref).

Definition wf_dynamic (r : Router) : Prop :=
  forall method refs ref,
    dynamicRoutes r !! method = Some refs -> ref ∈ refs ->
    exists route, heap r !! ref = Some route /\ is_Some (dynamic route).

Definition wf (r : Router) : Prop := wf_static r /\ wf_cached r /\ wf_dynamic r.

(** ** Sequences of calls *)

Section Calls.

Variable newURLPattern : string -> option URLPattern.t.

(** The registration calls of the class: [add] with an array of methods
    (a single method is the array of one, [get] the array of GET and
    HEAD) and [use]. *)
Inductive Registration :=
| Add (methods : list string) (path : string) (handler : RequestHandler)
| Use (path : string) (handler : MiddlewareHandler).

(** One call, and a sequence of calls in order. *)
Definition register (op : Registration) (r : Router) : Router :=
  match op with
  | Add methods path handler => add_all newURLPattern methods path handler r
  | Use path handler => use newURLPattern path handler r
  end.

Definition register_all (ops : list Registration) (r : Router) : Router :=
  foldl (fun r op => register op r) r ops.

(** What a program can do to a router: register, or resolve a method and
    path (directly or through [handle]). *)
Inductive Step :=
| Registers (op : Registration)
| Resolves (method path : string).

(** The router after one step, and a new router after a sequence. *)
Definition step (s : Step) (r : Router) : Router :=
  match s with
  | Registers op => register op r
  | Resolves method path => (match_ method path r).2
  end.

Definition after_steps (steps : list Step) : Router :=
  foldl (fun r s => step s r) empty_router steps.

End Calls.


(** The call uses own keys only: the methods and the template of an
    [add] index the tables, the template of a [use] indexes none; a
    resolution indexes them by its method and its path. *)
Definition plain_registration (op : Registration) : Prop :=
  match op with
  | Add methods path _ => Forall own_key methods /\ own_key path
  | Use _ _ => True
  end.

Definition plain_step (s : Step) : Prop :=
  match s with
  | Registers op => plain_registration op
  | Resolves method path => own_key method /\ own_key path
  end.



(** ** Vocabulary of the further properties *)

(** [s] does not hold the character [c]. *)
Definition lacks (c : ascii) (s : string) : Prop :=
  forall a b, s <> a +:+ String c b.

(** What a resolution never changes on a route object: the members the
    registration call wrote.  Only [middleware] and [params] are
    assigned by [match]. *)
Definition same_registration (a b : Route) : Prop :=
  method a = method b /\ pathname a = pathname b /\ handler a = handler b /\
  pattern <$> dynamic a = pattern <$> dynamic b.

(** A registration call among [steps] asked for [handler] at [template]
    under the method [m]. *)
Definition registered (steps : list Step) (m template : string)
  (handler : RequestHandler) : Prop :=
  exists methods, Registers (Add methods template handler) ∈ steps /\ m ∈ methods.

Section Origin.

Variable newURLPattern : string -> option URLPattern.t.

(** The registrations that count, as method, template and handler. *)
Variable O : string -> string -> RequestHandler -> Prop.

(** The route belongs to the method [m] and fits the path [p]: a dynamic
    route was registered for the method, and its pattern, compiled from
    its template, matches the path with the captures the route holds as
    [params]; any other route stands at the path itself and is either a
    registered one or the not-found route. *)
Definition answers (m p : string) (route : Route) : Prop :=
  method route = m /\
  match dynamic route with
  | Some d =>
      newURLPattern (pathname route) = Some (pattern d) /\
      URLPattern.exec (pattern d) p = Some (params d) /\
      O m (pathname route) (handler route)
  | None =>
      pathname route = p /\
      (O m p (handler route) \/ handler route = not_found_handler)
  end.

(** The three tables only hold routes that were registered for the
    method they are filed under, static ones at their template. *)
Definition static_origin (r : Router) : Prop :=
  forall m p ref,
    static_at r m p = Some ref ->
    exists route, heap r !! ref = Some route /\
      method route = m /\ pathname route = p /\
      dynamic route = None /\ O m p (handler route).

Definition dynamic_origin (r : Router) : Prop :=
  forall m refs ref,
    dynamicRoutes r !! m = Some refs -> ref ∈ refs ->
    exists route d, heap r !! ref = Some route /\
      method route = m /\ dynamic route = Some d /\
      newURLPattern (pathname route) = Some (pattern d) /\
      O m (pathname route) (handler route).

Definition cached_origin (r : Router) : Prop :=
  forall m p ref,
    cachedRoutes r !! m ≫= (.!! p) = Some ref ->
    exists route, heap r !! ref = Some route /\ answers m p route.

Definition origin (r : Router) : Prop :=
  static_origin r /\ dynamic_origin r /\ cached_origin r.

End Origin.

(** The context holds [v] under [key], and so did the context every
    handler entered so far received. *)
Definition sees (key : string) (v : Value) (st : Exec) : Prop :=
  ctx st !! key = Some v /\
  forall l c, Enter l c ∈ trace st -> c !! key = Some v.

(** The middleware body, entered with [next] bound to [i], ends by
    calling that [next] and returning what it gave
    ([return await ctx.next()]), after any effects and assignments of its
    own to other properties. *)
Inductive RelaysTo (i : Z) : Prog Z -> Prop :=
| relays_to_emit tag k : RelaysTo i k -> RelaysTo i (Emit tag k)
| relays_to_read k :
    (forall context, context !! "next" = Some (VNext (BoundNext i)) ->
                     RelaysTo i (k context)) ->
    RelaysTo i (ReadCtx k)
| relays_to_write key v k :
    key <> "next" -> RelaysTo i k -> RelaysTo i (WriteCtx key v k)
| relays_to_await : RelaysTo i (Await i settle).

(** The same for a middleware of the earlier variant, which holds the
    one [next] of [#handleRoute]. *)
Inductive Relays : Prog unit -> Prop :=
| relays_emit tag k : Relays k -> Relays (Emit tag k)
| relays_read k : (forall context, Relays (k context)) -> Relays (ReadCtx k)
| relays_write key v k : Relays k -> Relays (WriteCtx key v k)
| relays_await : Relays (Await tt settle).

(** ** Closed examples *)

Module Examples.

Definition GET (url : string) : Request := {| req_method := "GET"; req_url := url |}.

Definition POST (url : string) : Request := {| req_method := "POST"; req_url := url |}.

Definition denied : Response := {| status := 401; body := "denied" |}.

(** A middleware that answers by itself and never calls [next]. *)
Definition deny : MiddlewareHandler := fun _ => Emit "deny" (Return denied).

(** A middleware that leaves a mark, defers to the rest of the chain and
    returns what [next] gave. *)
Definition pass (tag : string) : MiddlewareHandler :=
  fun _ => Emit tag (await_ctx_next settle).

(** [const next = ctx.next; await next(); return next()] *)
Definition next_two_times : MiddlewareHandler :=
  fun _ => ReadCtx (fun context =>
    match context !! "next" with
    | Some (VNext (BoundNext i)) =>
        Await i (fun first =>
          match first with
          | Resolved _ => Await i settle
          | Rejected e => Throw e
          end)
    | _ => Throw "ctx.next is not a function"
    end).

Definition secret : Response := {| status := 200; body := "secret" |}.

Definition admin : RequestHandler := fun _ => Emit "admin" (Return secret).

(** The handler of the README: the body names [ctx.params.name]. *)
Definition contact : RequestHandler :=
  fun _ => ReadCtx (fun context =>
    match context !! "params" with
    | Some (VParams ps) =>
        match ps !! "name" with
        | Some (Some name) => Return {| status := 200; body := "Contact: " +:+ name |}
        | _ => Return {| status := 200; body := "Contact: undefined" |}
        end
    | _ => Throw "ctx.params is undefined"
    end).

(** The pattern compiler of the examples. *)
Definition compile := SegmentPattern.compile.

(** [router.use("/admin", deny); router.get("/admin", admin)] *)
Definition guarded : Router :=
  get compile "/admin" admin (use compile "/admin" deny empty_router).

End Examples.

(** * Properties *)

(** ** Own keys *)

Lemma own_key_empty : own_key "".
Proof. by apply (bool_decide_unpack _); vm_compute. Qed.

(** No name of [Object.prototype] starts with a slash. *)
Lemma own_key_slash rest : own_key (String "/" rest).
Proof.
  unfold own_key, Object_prototype_names. intros H.
  repeat (apply elem_of_cons in H as [H|H]; [discriminate|]).
  by apply elem_of_nil in H.
Qed.

Lemma own_key_url_path path : Prototype.is_url_path path = true -> own_key path.
Proof.
  destruct path as [|c path]; simpl; [intros _; apply own_key_empty|].
  intros ->%bool_decide_eq_true. apply own_key_slash.
Qed.

Lemma Prototype_members_names : Prototype.members.*1 = Object_prototype_names.
Proof. reflexivity. Qed.

Lemma Prototype_assoc_None {V} key (l : list (string * V)) :
  key ∉ l.*1 -> Prototype.assoc key l = None.
Proof.
  induction l as [|[k v] l IH]; simpl; [done|].
  intros [Hne Hnot]%not_elem_of_cons.
  rewrite decide_False by done. by apply IH.
Qed.

(** An own key inherits nothing. *)
Lemma Prototype_inherited_own key : own_key key -> Prototype.inherited_length key = None.
Proof.
  intros Hown. apply Prototype_assoc_None. by rewrite Prototype_members_names.
Qed.

(** For own keys [match_] is the source's [match]. *)
Lemma Prototype_match_own method path r :
  own_key method -> own_key path ->
  Prototype.match_ method path r
  = Prototype.Returns (match_ method path r).1 (match_ method path r).2.
Proof.
  intros Hm Hp. unfold Prototype.match_, Prototype.modelled, match_.
  rewrite !bool_decide_eq_true_2 by done. cbn [andb orb negb].
  destruct (cachedRoutes r !! method ≫= (.!! path)) as [cached|]; [done|].
  destruct (staticRoutes r !! method ≫= (.!! path)) as [staticRoute|]; [done|].
  destruct (dynamicRoutes r !! method) as [routes|]; cbn [mbind option_bind].
  - by destruct (scan (heap r) path (reverse routes)) as [[dynamicRoute groups]|].
  - by rewrite Prototype_inherited_own.
Qed.

(** Whenever the source's [match] returns, with an own key or not, it
    returns what [match_] does. *)
Lemma Prototype_match_returns method path r chain r' :
  Prototype.match_ method path r = Prototype.Returns chain r' ->
  match_ method path r = (chain, r').
Proof.
  unfold Prototype.match_, match_.
  destruct (Prototype.modelled method path); cbn [negb]; [|done].
  destruct (cachedRoutes r !! method ≫= (.!! path)) as [cached|];
    [by intros [= <- <-]|].
  destruct (staticRoutes r !! method ≫= (.!! path)) as [staticRoute|];
    [by intros [= <- <-]|].
  destruct (dynamicRoutes r !! method) as [routes|]; cbn [mbind option_bind].
  - destruct (scan (heap r) path (reverse routes)) as [[dynamicRoute groups]|];
      by intros [= <- <-].
  - destruct (Prototype.inherited_length method) as [[[|n]|]|];
      try done; by intros [= <- <-].
Qed.

(** It throws in one case only: all three lookups miss, the method has
    no array of dynamic routes of its own, and it names an inherited
    function with parameters. *)
Lemma Prototype_match_throws method path r r' :
  Prototype.match_ method path r = Prototype.Throws r' <->
  r' = r /\
  Prototype.modelled method path = true /\
  cachedRoutes r !! method ≫= (.!! path) = None /\
  staticRoutes r !! method ≫= (.!! path) = None /\
  dynamicRoutes r !! method = None /\
  exists n, Prototype.inherited_length method = Some (Some (S n)).
Proof.
  unfold Prototype.match_.
  destruct (Prototype.modelled method path); cbn [negb];
    [|split; [done|by intros (_ & ? & _)]].
  destruct (cachedRoutes r !! method ≫= (.!! path)) as [cached|];
    [split; [done|by intros (_ & _ & ? & _)]|].
  destruct (staticRoutes r !! method ≫= (.!! path)) as [staticRoute|];
    [split; [done|by intros (_ & _ & _ & ? & _)]|].
  destruct (dynamicRoutes r !! method) as [routes|].
  { split; [|by intros (_ & _ & _ & _ & ? & _)].
    by destruct (scan (heap r) path (reverse routes)) as [[dynamicRoute groups]|]. }
  destruct (Prototype.inherited_length method) as [[[|n]|]|].
  - split; [done|]. by intros (_ & _ & _ & _ & _ & n & ?).
  - split; [intros [= <-]; repeat split; eauto|by intros (-> & _)].
  - split; [done|]. by intros (_ & _ & _ & _ & _ & n & ?).
  - split; [done|]. by intros (_ & _ & _ & _ & _ & n & ?).
Qed.

(** ** The two regular expressions *)

Lemma before_from_query s : before_query s +:+ from_query s = s.
Proof.
  induction s as [|c s IH]; simpl; [done|].
  destruct (bool_decide (c = "?"%char)); [done|].
  change (String c (before_query s +:+ from_query s) = String c s).
  by f_equal.
Qed.

Lemma substring_app_drop (a b : string) :
  String.substring 0 (String.length (a +:+ b) - String.length b) (a +:+ b) = a.
Proof.
  assert (Hlen : forall x y : string,
             String.length (x +:+ y) = String.length x + String.length y).
  { induction x as [|c x IH]; intros y; simpl; [done|]. by rewrite IH. }
  rewrite Hlen.
  replace (String.length a + String.length b - String.length b) with (String.length a) by lia.
  clear Hlen. induction a as [|c a IH]; simpl.
  - by destruct b.
  - by rewrite IH.
Qed.

Lemma star_not_slash {R} (k : string -> option R) (authority rest : string) r :
  no_slash authority = true ->
  k (String "/" rest) = Some r ->
  Regex.star (Regex.IsNot "/") k (authority +:+ String "/" rest) = Some r.
Proof.
  intros Hns Hk. induction authority as [|c a IH]; simpl in *.
  - done.
  - apply andb_prop in Hns as [Hc Ha]. rewrite Hc. by rewrite IH.
Qed.

Lemma star_not_query {R} (k : string -> option R) (s : string) :
  (forall s', is_Some (k s')) ->
  Regex.star (Regex.IsNot "?") k s = k (from_query s).
Proof.
  intros Hk. induction s as [|c s IH]; simpl; [done|].
  case_bool_decide; simpl; [done|].
  rewrite IH. destruct (Hk (from_query s)) as [r ->]. done.
Qed.

Lemma url_group_exec (rest : string) :
  Regex.items url_group
    (fun s2 => Some (String.substring 0
                       (String.length (String "/" rest) - String.length s2)
                       (String "/" rest)))
    (String "/" rest)
  = Some (String "/" (before_query rest)).
Proof.
  unfold url_group. cbn [Regex.items Regex.accepts].
  rewrite bool_decide_eq_true_2 by done.
  rewrite star_not_query by eauto.
  f_equal.
  rewrite <- (before_from_query rest) at 1 3.
  change (String "/" (before_query rest +:+ from_query rest))
    with (String "/" (before_query rest) +:+ from_query rest).
  apply substring_app_drop.
Qed.

(** The path of an http or https URL with a non-empty authority. *)
Lemma pathname_of_http (secure : bool) (authority rest : string) :
  authority <> "" ->
  no_slash authority = true ->
  pathname_of ((if secure then "https" else "http") +:+ "://" +:+ authority
               +:+ String "/" rest)
  = String "/" (before_query rest).
Proof.
  intros Hne Hns.
  destruct authority as [|c a]; [done|].
  simpl in Hns. apply andb_prop in Hns as [Hc Ha].
  unfold pathname_of, Regex.exec_group1, url_prefix.
  destruct secure.
  - change ("https" +:+ "://" +:+ String c a +:+ String "/" rest)
      with (String "h" (String "t" (String "t" (String "p" (String "s" (String ":" (String "/" (String "/" (String c (a +:+ String "/" rest)))))))))).
    cbn -[url_group Regex.star String.substring String.length].
    rewrite Hc.
    by erewrite star_not_slash; [|done|apply url_group_exec].
  - change ("http" +:+ "://" +:+ String c a +:+ String "/" rest)
      with (String "h" (String "t" (String "t" (String "p" (String ":" (String "/" (String "/" (String c (a +:+ String "/" rest))))))))).
    cbn -[url_group Regex.star String.substring String.length].
    rewrite Hc.
    by erewrite star_not_slash; [|done|apply url_group_exec].
Qed.

(** Any other URL has no match, and the path is the empty string. *)
Lemma pathname_of_other (url : string) :
  String.prefix "http://" url = false ->
  String.prefix "https://" url = false ->
  pathname_of url = "".
Proof.
  unfold pathname_of, Regex.exec_group1, url_prefix.
  intros H1 H2.
  do 8 (destruct url as [|? url];
        [ reflexivity
        | cbn -[url_group Regex.star String.substring String.length] in *;
          repeat (case_bool_decide; subst;
                  cbn -[url_group Regex.star String.substring String.length] in * );
          try reflexivity; try discriminate ]).
  all: destruct url; discriminate.
Qed.

Lemma matches_here_dynamic (s : string) :
  Regex.matches_here [Regex.lit "*"; Regex.lit "/:"] s = true <-> dynamic_marker s.
Proof.
  unfold dynamic_marker. split.
  - intros H. destruct s as [|c s]; [discriminate|]. cbn in H.
    destruct (bool_decide_reflect (c = "*"%char)) as [->|_]; [eauto|].
    destruct (bool_decide_reflect (c = "/"%char)) as [->|_]; [|discriminate].
    destruct s as [|d s]; [discriminate|]. cbn in H.
    destruct (bool_decide_reflect (d = ":"%char)) as [->|_]; [eauto|discriminate].
  - intros [[b ->]|[b ->]]; reflexivity.
Qed.

(** A template is dynamic exactly when it contains a star, or a slash
    immediately followed by a colon. *)
Lemma isDynamic_spec (path : string) :
  isDynamic path = true <->
  exists a s, path = a +:+ s /\ dynamic_marker s.
Proof.
  unfold isDynamic. split.
  - induction path as [|c p IH]; cbn [Regex.test].
    + rewrite orb_false_r. intros H%matches_here_dynamic. by exists "", "".
    + intros [H|H]%orb_prop.
      * apply matches_here_dynamic in H. by exists "", (String c p).
      * destruct (IH H) as (a & s & -> & Hs). by exists (String c a), s.
  - intros (a & s & -> & Hs). induction a as [|c a IH].
    + apply matches_here_dynamic in Hs. change ("" +:+ s) with s.
      destruct s; cbn [Regex.test]; by rewrite Hs.
    + change (String c a +:+ s) with (String c (a +:+ s)).
      cbn [Regex.test]. rewrite IH. apply orb_true_r.
Qed.

(** ** Chain execution *)

Lemma entered_app (t1 t2 : list Event) : entered (t1 ++ t2) = entered t1 ++ entered t2.
Proof. apply omap_app. Qed.

(** Whatever relates a state to the states after each primitive step also
    relates it to the state after a whole handler body. *)
Lemma run_rel {C} (R : Exec -> Exec -> Prop) (call : C -> Exec -> Outcome * Exec) :
  (forall st, R st st) ->
  (forall a b c, R a b -> R b c -> R a c) ->
  (forall st tag, R st (log (Effect tag) st)) ->
  (forall st key v, R st (set_ctx (insert key v) st)) ->
  (forall c st, R st (call c st).2) ->
  forall p st, R st (run call p st).2.
Proof.
  intros Hrefl Htrans Hlog Hset Hcall p.
  induction p as [r|e|tag k IH|k IH|key v k IH|c k IH]; intros st; simpl; eauto.
  specialize (Hcall c st). destruct (call c st) as [o st']. eauto.
Qed.

Lemma next_rejected depth middlewares request i st :
  (i <= index st)%Z ->
  next depth middlewares request i st = (Rejected next_twice, st).
Proof.
  intros Hi. destruct depth; simpl; by rewrite (proj2 (Z.leb_le _ _) Hi).
Qed.

Lemma next_unfold depth middlewares request i st :
  (index st < i)%Z ->
  next depth middlewares request i st =
  match at_ middlewares i with
  | None => (Resolved empty_response, set_index i st)
  | Some fn =>
      match depth with
      | O => (Rejected "unreachable", set_index i st)
      | S depth' =>
          run (next depth' middlewares request) (fn request)
              (enter (Mw i)
                 (set_ctx (insert "next" (VNext (BoundNext (i + 1)))) (set_index i st)))
      end
  end.
Proof.
  intros Hi. destruct depth; simpl; by rewrite (proj2 (Z.leb_gt _ _) Hi).
Qed.

(** [index] never decreases. *)
Lemma run_index_mono (call : Z -> Exec -> Outcome * Exec) :
  (forall c st, (index st <= index (call c st).2)%Z) ->
  forall p st, (index st <= index (run call p st).2)%Z.
Proof.
  intros Hcall.
  apply (run_rel (fun a b => (index a <= index b)%Z)); simpl; auto; lia.
Qed.

Lemma next_index_mono depth middlewares request i st :
  (index st <= index (next depth middlewares request i st).2)%Z.
Proof.
  revert i st. induction depth as [|depth IH]; intros i st.
  - simpl. destruct (i <=? index st)%Z eqn:Hi; [simpl; lia|].
    apply Z.leb_gt in Hi. destruct (at_ middlewares i); simpl; lia.
  - destruct (Z.le_gt_cases i (index st)) as [Hi|Hi].
    + rewrite next_rejected by done. simpl. lia.
    + rewrite next_unfold by done. destruct (at_ middlewares i) as [fn|]; [|simpl; lia].
      etrans; [|apply run_index_mono, IH]. simpl. lia.
Qed.

(** After [next(i)] has returned, [index] is at least [i]. *)
Lemma next_index_ge depth middlewares request i st :
  (i <= index (next depth middlewares request i st).2)%Z.
Proof.
  destruct (Z.le_gt_cases i (index st)) as [Hi|Hi].
  - by rewrite next_rejected.
  - rewrite next_unfold by done.
    destruct (at_ middlewares i) as [fn|]; [|simpl; lia].
    destruct depth as [|depth]; [simpl; lia|].
    etrans; [|apply run_index_mono, next_index_mono]. simpl. lia.
Qed.

Lemma at_lookup {A} (l : list A) (i : Z) (x : A) :
  (-1 < i)%Z -> at_ l i = Some x -> (i < Z.of_nat (length l))%Z.
Proof.
  intros Hi. unfold at_. rewrite (proj2 (Z.ltb_ge _ _)) by lia.
  intros H%lookup_lt_Some. lia.
Qed.

(** Two handler bodies run alike under [call1] and [call2] when the two
    agree on every state the body can reach. *)
Lemma run_ext {C} (P : Exec -> Prop) (call1 call2 : C -> Exec -> Outcome * Exec) :
  (forall st e, P st -> P (log e st)) ->
  (forall st f, P st -> P (set_ctx f st)) ->
  (forall c st, P st -> call1 c st = call2 c st /\ P (call1 c st).2) ->
  forall p st, P st -> run call1 p st = run call2 p st.
Proof.
  intros Hlog Hset Hcall p.
  induction p as [r|e|tag k IH|k IH|key v k IH|c k IH]; intros st Hst; simpl; eauto.
  destruct (Hcall c st Hst) as [<- HP]. destruct (call1 c st) as [o st']. eauto.
Qed.

(** [depth] is not fuel that can run out: any two depths that cover the
    part of the array above [i] give the same execution, so the branch of
    [next] for an exhausted depth is never taken from
    [composeMiddleware]. *)
Lemma next_depth_irrelevant depth1 depth2 middlewares request i st :
  (-1 <= index st)%Z ->
  (Z.of_nat (length middlewares) - i <= Z.of_nat depth1)%Z ->
  (Z.of_nat (length middlewares) - i <= Z.of_nat depth2)%Z ->
  next depth1 middlewares request i st = next depth2 middlewares request i st.
Proof.
  revert depth2 i st.
  induction depth1 as [|depth1 IH]; intros depth2 i st Hst H1 H2.
  - destruct (Z.le_gt_cases i (index st)) as [Hi|Hi].
    + by rewrite !next_rejected.
    + rewrite !next_unfold by done.
      destruct (at_ middlewares i) as [fn|] eqn:Hat; [|done].
      apply at_lookup in Hat; lia.
  - destruct (Z.le_gt_cases i (index st)) as [Hi|Hi].
    + by rewrite !next_rejected.
    + rewrite !next_unfold by done.
      destruct (at_ middlewares i) as [fn|] eqn:Hat; [|done].
      apply at_lookup in Hat; [|lia].
      destruct depth2 as [|depth2]; [lia|].
      apply (run_ext (fun st' => (i <= index st')%Z)); simpl; auto; [|lia].
      intros j st' Hst'. split; [|etrans; [done|apply next_index_mono]].
      destruct (Z.le_gt_cases j (index st')) as [Hj|Hj].
      * by rewrite !next_rejected.
      * apply IH; lia.
Qed.

Lemma composeMiddleware_any_depth depth middlewares request st :
  length middlewares <= depth ->
  next depth middlewares request 0 (set_index (-1) st)
  = composeMiddleware middlewares request st.
Proof.
  intros Hd. unfold composeMiddleware.
  apply next_depth_irrelevant; simpl; lia.
Qed.

Lemma extends_same P a b : trace b = trace a -> extends P a b.
Proof. intros E. exists []. by rewrite app_nil_r. Qed.

Lemma extends_refl P st : extends P st st.
Proof. by apply extends_same. Qed.

Lemma extends_trans P a b c : extends P a b -> extends P b c -> extends P a c.
Proof.
  intros (e1 & E1 & H1) (e2 & E2 & H2). exists (e1 ++ e2).
  rewrite E2, E1, app_assoc. split; [done|]. by apply Forall_app.
Qed.

Lemma extends_log (P : Event -> Prop) e st : P e -> extends P st (log e st).
Proof. intros He. exists [e]. split; [done|]. by constructor. Qed.

Lemma run_extends {C} (P : Event -> Prop) (call : C -> Exec -> Outcome * Exec) :
  (forall tag, P (Effect tag)) ->
  (forall c st, extends P st (call c st).2) ->
  forall p st, extends P st (run call p st).2.
Proof.
  intros Heff Hcall.
  apply (run_rel (extends P)); auto using extends_refl, extends_log.
  - intros a b c. apply extends_trans.
  - intros st key v. by apply extends_same.
Qed.

Lemma run_terminal_extends (p : Prog Empty_set) st :
  extends is_effect st (run no_call p st).2.
Proof. apply run_extends; [done|]. intros []. Qed.

Lemma ascending_le lo l hi : ascending lo l hi -> (lo <= hi)%Z.
Proof.
  revert lo. induction l as [|p l IH]; simpl; intros lo; [done|].
  intros [Hp Hl%IH]. lia.
Qed.

Lemma ascending_weaken lo lo' l hi :
  (lo' <= lo)%Z -> ascending lo l hi -> ascending lo' l hi.
Proof. destruct l; simpl; [lia|]. intros ? [? ?]. split; [lia|done]. Qed.

Lemma ascending_app lo l1 mid l2 hi :
  ascending lo l1 mid -> ascending mid l2 hi -> ascending lo (l1 ++ l2) hi.
Proof.
  revert lo. induction l1 as [|p l1 IH]; simpl; intros lo.
  - intros Hlo. by apply ascending_weaken.
  - intros [Hp H1] H2. split; [done|]. by apply IH.
Qed.

Lemma chain_run_same n a b :
  trace b = trace a -> (index a <= index b)%Z -> chain_run n a b.
Proof. intros Ht Hi _. exists []. by rewrite app_nil_r. Qed.

Lemma chain_run_trans n a b c : chain_run n a b -> chain_run n b c -> chain_run n a c.
Proof.
  intros Hab Hbc Ha. destruct (Hab Ha) as (e1 & E1 & F1 & A1).
  destruct Hbc as (e2 & E2 & F2 & A2); [apply ascending_le in A1; lia|].
  exists (e1 ++ e2). rewrite E2, E1, app_assoc. split; [done|].
  split; [by apply Forall_app|].
  unfold positions. rewrite omap_app. by eapply ascending_app.
Qed.

Lemma run_chain_run n (call : Z -> Exec -> Outcome * Exec) :
  (forall c st, chain_run n st (call c st).2) ->
  forall p st, chain_run n st (run call p st).2.
Proof.
  intros Hcall. apply (run_rel (chain_run n)); auto.
  - intros st. by apply chain_run_same.
  - intros a b c. apply chain_run_trans.
  - intros st tag _. exists [Effect tag]. simpl. repeat split; [|lia].
    by constructor.
  - intros st key v. by apply chain_run_same.
Qed.

Lemma next_chain_run depth middlewares request i st :
  chain_run (length middlewares) st (next depth middlewares request i st).2.
Proof.
  revert i st. induction depth as [|depth IH]; intros i st.
  - simpl. destruct (i <=? index st)%Z eqn:Hi; [by apply chain_run_same|].
    apply Z.leb_gt in Hi.
    destruct (at_ middlewares i); apply chain_run_same; simpl; done || lia.
  - destruct (Z.le_gt_cases i (index st)) as [Hi|Hi].
    + rewrite next_rejected by done. by apply chain_run_same.
    + rewrite next_unfold by done.
      destruct (at_ middlewares i) as [fn|] eqn:Hat;
        [|apply chain_run_same; simpl; done || lia].
      eapply chain_run_trans; [|apply run_chain_run, IH].
      intros Hst. apply at_lookup in Hat; [|lia].
      exists [Enter (Mw i) (<["next" := VNext (BoundNext (i + 1))]> (ctx st))].
      split; [done|]. simpl. split; [|lia].
      constructor; [|done]. split; [lia|]. apply lookup_insert_eq.
Qed.

Lemma entered_mw n evs :
  Forall (mw_event n) evs -> entered evs = Mw <$> positions evs.
Proof.
  induction 1 as [|e evs He _ IH]; [done|].
  destruct e as [[i|] c|tag]; simpl in *; [by f_equal|done|done].
Qed.

Lemma entered_effects evs : Forall is_effect evs -> entered evs = [].
Proof.
  induction 1 as [|e evs He _ IH]; [done|]. by destruct e.
Qed.

(** ** [#handleRoute] *)

Lemma handleRoute_eq route request context :
  handleRoute route request context =
  match (middleware_phase route request context).1 with
  | Rejected e => (Rejected e, (middleware_phase route request context).2)
  | Resolved _ =>
      run no_call (handler route request)
          (enter Terminal (set_ctx (assign_params (route_params route))
                                   (middleware_phase route request context).2))
  end.
Proof.
  unfold handleRoute, middleware_phase, start.
  destruct (middleware route) as [composed|]; [|done].
  by destruct (composeMiddleware composed request _) as [[r|e] st].
Qed.

Lemma middleware_phase_trace route request context :
  let st := (middleware_phase route request context).2 in
  Forall (mw_event (length (default [] (middleware route)))) (trace st) /\
  ascending (-1) (positions (trace st)) (index st).
Proof.
  unfold middleware_phase. destruct (middleware route) as [composed|]; simpl; [|done].
  unfold composeMiddleware.
  destruct (next_chain_run (length composed) composed request 0
              (set_index (-1) (set_ctx (assign_next_params OuterNext (route_params route))
                                       (start context))))
    as (evs & E & F & A); [simpl; lia|].
  simpl in E. by rewrite E.
Qed.

(** The shape of every dispatch: the middleware phase, then, unless it
    failed, the route handler entered once with [params] assigned, then
    only the route handler's own effects. *)
Lemma handleRoute_trace route request context :
  let mw := middleware_phase route request context in
  let res := handleRoute route request context in
  match mw.1 with
  | Rejected e => res = (Rejected e, mw.2)
  | Resolved _ =>
      exists tail,
        trace res.2 =
          trace mw.2 ++ Enter Terminal (assign_params (route_params route) (ctx mw.2)) :: tail
        /\ Forall is_effect tail
  end.
Proof.
  simpl. rewrite handleRoute_eq.
  destruct (middleware_phase route request context) as [[r|e] st]; simpl; [|done].
  destruct (run_terminal_extends (handler route request)
              (enter Terminal (set_ctx (assign_params (route_params route)) st)))
    as (tail & E & F).
  exists tail. rewrite E. simpl. by rewrite <- app_assoc.
Qed.

(** A failure of the middleware phase is the failure of the dispatch, and
    the route handler is not entered. *)
Lemma handleRoute_rejected route request context e :
  (middleware_phase route request context).1 = Rejected e ->
  (handleRoute route request context).1 = Rejected e /\
  Terminal ∉ entered (trace (handleRoute route request context).2).
Proof.
  intros H. pose proof (handleRoute_trace route request context) as T.
  simpl in T. rewrite H in T. rewrite T. simpl. split; [done|].
  destruct (middleware_phase_trace route request context) as [F _].
  rewrite (entered_mw _ _ F). intros (i & ? & _)%list_elem_of_fmap. done.
Qed.

(** C1: a dispatch whose chain holds a middleware that returns a response
    without calling [next] should end there, with that response.  On
    [guarded] the middleware [deny] returns 401 without calling [next],
    and yet the route handler is entered after it and the dispatch
    resolves to the route handler's response: [#handleRoute] awaits the
    composed middleware and then calls the route handler whatever the
    middleware returned. *)
Theorem short_circuit_still_reaches_route_handler :
  let res := (handle Examples.guarded (Examples.GET "http://localhost/admin") ∅).1 in
  Examples.deny (Examples.GET "http://localhost/admin")
    = Emit "deny" (Return Examples.denied) /\
  res.1 = Resolved Examples.secret /\
  entered (trace res.2) = [Mw 0; Terminal] /\
  trace res.2 !! 1%nat = Some (Effect "deny") /\
  trace res.2 !! 3%nat = Some (Effect "admin").
Proof. vm_compute. done. Qed.

(** The same for every route and every middleware that only returns: the
    result of the dispatch is the result of the route handler. *)
Lemma handleRoute_overwrites_response route request context mw rest response :
  middleware route = Some (mw :: rest) ->
  mw request = Return response ->
  handleRoute route request context =
  run no_call (handler route request)
      (enter Terminal
         (set_ctx (assign_params (route_params route))
            (enter (Mw 0)
               (set_ctx (insert "next" (VNext (BoundNext 1)))
                  (set_index 0
                     (set_ctx (assign_next_params OuterNext (route_params route))
                        (start context))))))).
Proof.
  intros Hmw Hret. unfold handleRoute. rewrite Hmw.
  unfold composeMiddleware. simpl. by rewrite Hret.
Qed.

Lemma Sketch_next_middleware depth handlers params request st (i : nat) mw :
  (index st - 1)%Z = Z.of_nat i -> 0 < i -> handlers !! i = Some (inr mw) ->
  Sketch.next (S depth) handlers params request st =
  run (fun _ => Sketch.next depth handlers params request) (mw request)
      (enter (Mw (Z.of_nat i))
         (set_ctx (assign_next_params OuterNext params) (set_index (Z.of_nat i) st))).
Proof.
  intros Hi Hpos Hmw. cbn [Sketch.next]. cbn [set_index index]. rewrite Hi.
  rewrite (proj2 (Z.ltb_ge _ _)) by lia. rewrite (proj2 (Z.ltb_lt _ _)) by lia.
  by rewrite Nat2Z.id, Hmw.
Qed.

(** The earlier [#handleRoute] does end the dispatch there: when the
    middleware called first, the last of the array, returns without
    calling [next], its response is the result and the route handler is
    not entered. *)
Lemma Sketch_handleRoute_short_circuits route request context handler mws mw response :
  Sketch.handlers route = inl handler :: mws ++ [inr mw] ->
  mw request = Return response ->
  (Sketch.handleRoute route request context).1 = Resolved response /\
  entered (trace (Sketch.handleRoute route request context).2)
  = [Mw (Z.of_nat (S (length mws)))].
Proof.
  intros Hh Hret. unfold Sketch.handleRoute. rewrite Hh.
  assert (Hlen : length (inl handler :: mws ++ [inr mw] : list (RequestHandler + Sketch.Middleware))
                 = S (S (length mws))).
  { cbn [length]. rewrite length_app. simpl. lia. }
  rewrite Hlen.
  rewrite (Sketch_next_middleware _ _ _ _ _ (S (length mws)) mw).
  - rewrite Hret. done.
  - simpl. lia.
  - lia.
  - exact (list_lookup_middle (inl handler :: mws) [] (inr mw) _ eq_refl).
Qed.

(** C4: when a [next] function bound to position [i] has been called once
    in a chain execution, then whatever the middleware does afterwards
    (the body [p]), a second call of the same function is a rejected
    promise with the error of line 173, and it changes nothing: no handler
    is entered again, [index] and the context stay as they are.  A
    rejection the middleware phase ends with is the rejection of the
    dispatch, so it reaches the caller of [handle], and the route handler
    is not run. *)
Theorem second_next_is_rejected middlewares request :
  (forall depth1 depth2 depth3 i st p,
      let st1 := (next depth1 middlewares request i st).2 in
      let st2 := (run (next depth2 middlewares request) p st1).2 in
      next depth3 middlewares request i st2 = (Rejected next_twice, st2)) /\
  (forall route context e,
      middleware route = Some middlewares ->
      (composeMiddleware middlewares request
         (set_ctx (assign_next_params OuterNext (route_params route)) (start context))).1
        = Rejected e ->
      (handleRoute route request context).1 = Rejected e /\
      Terminal ∉ entered (trace (handleRoute route request context).2)).
Proof.
  split.
  - intros depth1 depth2 depth3 i st p st1 st2. apply next_rejected.
    etrans; [apply (next_index_ge depth1 middlewares request i st)|].
    apply run_index_mono. intros c st'. apply next_index_mono.
  - intros route context e Hmw He. apply handleRoute_rejected.
    unfold middleware_phase. by rewrite Hmw.
Qed.

Lemma second_next_is_rejected_witness :
  let route := {| method := "GET"; pathname := "/x"; handler := Examples.admin;
                  middleware := Some [Examples.next_two_times; Examples.pass "after"];
                  dynamic := None |} in
  (handleRoute route (Examples.GET "http://localhost/x") ∅).1 = Rejected next_twice /\
  Terminal ∉ entered (trace (handleRoute route (Examples.GET "http://localhost/x") ∅).2).
Proof.
  intros route.
  apply (proj2 (second_next_is_rejected
                  [Examples.next_two_times; Examples.pass "after"]
                  (Examples.GET "http://localhost/x")) route ∅ next_twice).
  - reflexivity.
  - vm_compute. reflexivity.
Defined.

(** The rejection is tied to the bound function.  The context's [next]
    property is reassigned each time a middleware is entered, so a
    middleware that reads [ctx.next] again after its first call may find
    the function of a later position there: below, the first middleware
    calls [ctx.next()] twice, the second one returns without calling
    [next], and the second call enters the third middleware instead of
    being rejected. *)
Example ctx_next_read_again_is_rebound :
  let twice : MiddlewareHandler :=
    fun _ => await_ctx_next (fun _ => await_ctx_next settle) in
  let route := {| method := "GET"; pathname := "/x"; handler := Examples.admin;
                  middleware := Some [twice; Examples.deny; Examples.pass "third"];
                  dynamic := None |} in
  entered (trace (handleRoute route (Examples.GET "http://localhost/x") ∅).2)
  = [Mw 0; Mw 1; Mw 2; Terminal].
Proof. vm_compute. reflexivity. Qed.

(** ** The context object *)

Lemma run_keeps {C} key (Q : option Value -> Prop)
  (call : C -> Exec -> Outcome * Exec) (p : Prog C) :
  Keeps key p ->
  (forall c st, Q (ctx st !! key) -> Q (ctx (call c st).2 !! key)) ->
  forall st, Q (ctx st !! key) -> Q (ctx (run call p st).2 !! key).
Proof.
  intros Hp Hcall.
  induction Hp as [r|e|tag k _ IH|k _ IH|key' v k Hne _ IH|c k _ IH];
    intros st Hst; simpl; auto.
  - apply IH. simpl. by rewrite lookup_insert_ne.
  - specialize (Hcall c st Hst). destruct (call c st) as [o st']. by apply IH.
Qed.

Lemma at_elem {A} (l : list A) (i : Z) (x : A) : at_ l i = Some x -> x ∈ l.
Proof.
  unfold at_. destruct (i <? 0)%Z; [destruct (0 <=? _)%Z; [|done]|];
    apply list_elem_of_lookup_2.
Qed.

(** The composed chain assigns to [next] only, and always a bound [next]. *)
Lemma next_keeps key (Q : option Value -> Prop) depth middlewares request i st :
  (key = "next" -> forall j, Q (Some (VNext (BoundNext j)))) ->
  Forall (fun h : MiddlewareHandler => Keeps key (h request)) middlewares ->
  Q (ctx st !! key) ->
  Q (ctx (next depth middlewares request i st).2 !! key).
Proof.
  intros HQ Hall. revert i st.
  induction depth as [|depth IH]; intros i st Hst.
  - simpl. destruct (i <=? index st)%Z; [done|]. by destruct (at_ middlewares i).
  - destruct (Z.le_gt_cases i (index st)) as [Hi|Hi].
    + by rewrite next_rejected.
    + rewrite next_unfold by done.
      destruct (at_ middlewares i) as [fn|] eqn:Hat; [|done].
      apply run_keeps; [|by auto|].
      * apply at_elem in Hat. by apply (proj1 (Forall_forall _ _) Hall).
      * simpl. destruct (decide (key = "next")) as [->|Hne].
        -- rewrite lookup_insert_eq. by apply HQ.
        -- by rewrite lookup_insert_ne.
Qed.

Lemma middleware_phase_keeps key (Q : option Value -> Prop) route request context :
  (key = "next" -> forall j, Q (Some (VNext (BoundNext j)))) ->
  handlers_keep key route request ->
  Q (match middleware route with
     | Some _ => assign_next_params OuterNext (route_params route) context !! key
     | None => context !! key
     end) ->
  Q (ctx (middleware_phase route request context).2 !! key).
Proof.
  intros HQ [_ Hall]. unfold middleware_phase.
  destruct (middleware route) as [composed|]; simpl in *; [|done].
  intros H. unfold composeMiddleware. by apply next_keeps.
Qed.

Lemma handleRoute_keeps key (Q : option Value -> Prop) route request context :
  key <> "params" ->
  (key = "next" -> forall j, Q (Some (VNext (BoundNext j)))) ->
  handlers_keep key route request ->
  Q (match middleware route with
     | Some _ => assign_next_params OuterNext (route_params route) context !! key
     | None => context !! key
     end) ->
  Q (ctx (handleRoute route request context).2 !! key).
Proof.
  intros Hne HQ Hkeep H. rewrite handleRoute_eq.
  pose proof (middleware_phase_keeps key Q route request context HQ Hkeep H) as Hmw.
  destruct (middleware_phase route request context) as [[r|e] st]; simpl in *; [|done].
  apply run_keeps; [apply Hkeep|by intros []|].
  simpl. unfold assign_params. by rewrite lookup_insert_ne.
Qed.

Lemma lookup_assign_next_params n (ps : Groups) (context : Context) key :
  assign_next_params n ps context !! key =
  match ps !! key with
  | Some g => Some (group_value g)
  | None => <["next" := VNext n]> context !! key
  end.
Proof.
  unfold assign_next_params. rewrite lookup_union, lookup_fmap.
  destruct (ps !! key); simpl; [|by rewrite (left_id None _)].
  by destruct (<["next" := VNext n]> context !! key).
Qed.

Lemma handleRoute_events route request context e :
  e ∈ trace (handleRoute route request context).2 ->
  mw_event (length (default [] (middleware route))) e \/
  e = Enter Terminal (assign_params (route_params route)
                        (ctx (middleware_phase route request context).2)) \/
  is_effect e.
Proof.
  pose proof (handleRoute_trace route request context) as T.
  destruct (middleware_phase_trace route request context) as [F _].
  simpl in *. rewrite Forall_forall in F.
  destruct ((middleware_phase route request context).1) as [r|err].
  - destruct T as (tail & -> & Ftail). rewrite Forall_forall in Ftail.
    rewrite elem_of_app, elem_of_cons. intros [?|[?|?]]; auto.
  - rewrite T. simpl. auto.
Qed.

Lemma handleRoute_prefix route request context :
  exists tail,
    trace (handleRoute route request context).2 =
    trace (middleware_phase route request context).2 ++ tail.
Proof.
  pose proof (handleRoute_trace route request context) as T. simpl in T.
  destruct ((middleware_phase route request context).1).
  - destruct T as (tail & -> & _). eauto.
  - rewrite T. exists []. simpl. by rewrite app_nil_r.
Qed.

Lemma middleware_phase_first route request context mw rest :
  middleware route = Some (mw :: rest) ->
  exists evs,
    trace (middleware_phase route request context).2 =
    Enter (Mw 0) (<["next" := VNext (BoundNext 1)]>
                    (assign_next_params OuterNext (route_params route) context))
    :: evs.
Proof.
  intros Hmw. unfold middleware_phase, composeMiddleware. rewrite Hmw.
  rewrite next_unfold by (simpl; lia).
  change (at_ (mw :: rest) 0) with (Some mw). cbv iota beta.
  change (length (mw :: rest)) with (S (length rest)). cbv iota beta.
  match goal with
  | |- context [run ?call ?p ?s0] =>
      destruct (run_chain_run (length (mw :: rest)) call
                  (fun c s1 => next_chain_run _ _ _ _ _) p s0)
        as (evs & E & _); [simpl; lia|]
  end.
  exists evs. by rewrite E.
Qed.

(** The first event of a dispatch. *)
Lemma handleRoute_first route request context :
  match middleware route with
  | Some (_ :: _) =>
      trace (handleRoute route request context).2 !! 0%nat =
      Some (Enter (Mw 0)
              (<["next" := VNext (BoundNext 1)]>
                 (assign_next_params OuterNext (route_params route) context)))
  | Some [] =>
      trace (handleRoute route request context).2 !! 0%nat =
      Some (Enter Terminal
              (assign_params (route_params route)
                 (assign_next_params OuterNext (route_params route) context)))
  | None =>
      trace (handleRoute route request context).2 !! 0%nat =
      Some (Enter Terminal (assign_params (route_params route) context))
  end.
Proof.
  destruct (middleware route) as [[|mw rest]|] eqn:Hmw.
  - pose proof (handleRoute_trace route request context) as T. simpl in T.
    unfold middleware_phase in T. rewrite Hmw in T. simpl in T.
    by destruct T as (tail & -> & _).
  - destruct (handleRoute_prefix route request context) as (tail & ->).
    destruct (middleware_phase_first route request context mw rest Hmw) as (evs & ->).
    done.
  - pose proof (handleRoute_trace route request context) as T. simpl in T.
    unfold middleware_phase in T. rewrite Hmw in T. simpl in T.
    by destruct T as (tail & -> & _).
Qed.

(** C10: a dispatch works on the context object it was given.  Every
    middleware is entered with [next] assigned on it (bound to the
    position after its own), the route handler with [params] assigned on
    it; the first link sees the caller's own properties under these
    assignments; and when the dispatch has returned the caller finds
    [params] and [next] still on the object, and every property the
    router and the handlers did not assign as it was, as long as no
    handler overwrote them. *)
Theorem context_assigned_in_place route request context :
  let ps := route_params route in
  let res := handleRoute route request context in
  (forall i c, Enter (Mw i) c ∈ trace res.2 ->
               c !! "next" = Some (VNext (BoundNext (i + 1)))) /\
  (forall c, Enter Terminal c ∈ trace res.2 -> c !! "params" = Some (VParams ps)) /\
  (forall mw rest, middleware route = Some (mw :: rest) ->
     trace res.2 !! 0%nat =
     Some (Enter (Mw 0) (<["next" := VNext (BoundNext 1)]>
                           (assign_next_params OuterNext ps context)))) /\
  (middleware route = Some [] ->
     trace res.2 !! 0%nat =
     Some (Enter Terminal (assign_params ps (assign_next_params OuterNext ps context)))) /\
  (forall response, res.1 = Resolved response ->
     Keeps "params" (handler route request) ->
     ctx res.2 !! "params" = Some (VParams ps)) /\
  (is_Some (middleware route) -> ps !! "next" = None ->
     handlers_keep "next" route request ->
     exists n, ctx res.2 !! "next" = Some (VNext n)) /\
  (forall key, key <> "next" -> key <> "params" -> ps !! key = None ->
     handlers_keep key route request ->
     ctx res.2 !! key = context !! key).
Proof.
  intros ps res. subst ps res. repeat split.
  - intros i c [H|[H|H]]%handleRoute_events; [by destruct H|done|done].
  - intros c [H|[H|H]]%handleRoute_events; [done| |done].
    injection H as ->. apply lookup_insert_eq.
  - intros mw rest Hmw. pose proof (handleRoute_first route request context) as H.
    by rewrite Hmw in H.
  - intros Hmw. pose proof (handleRoute_first route request context) as H.
    by rewrite Hmw in H.
  - intros response Hres Hkeep. rewrite handleRoute_eq in *.
    destruct (middleware_phase route request context) as [[r|e] st];
      simpl in *; [|done].
    apply (run_keeps "params" (fun o => o = Some (VParams (route_params route))));
      [done|by intros []|].
    simpl. apply lookup_insert_eq.
  - intros [mws Hmw] Hps Hkeep.
    apply (handleRoute_keeps "next" (fun o => exists n, o = Some (VNext n)));
      [done|by eauto|done|].
    rewrite Hmw, lookup_assign_next_params, Hps, lookup_insert_eq. eauto.
  - intros key Hnext Hparams Hps Hkeep.
    apply (handleRoute_keeps key (fun o => o = context !! key)); [done|done|done|].
    destruct (middleware route); [|done].
    by rewrite lookup_assign_next_params, Hps, lookup_insert_ne.
Qed.

Lemma context_assigned_in_place_witness :
  let route := {| method := "GET"; pathname := "/admin"; handler := Examples.admin;
                  middleware := Some [Examples.pass "seen"]; dynamic := None |} in
  let res := handleRoute route (Examples.GET "http://localhost/admin")
               {["user" := VStr "ada"]} in
  ctx res.2 !! "params" = Some (VParams ∅) /\
  (exists n, ctx res.2 !! "next" = Some (VNext n)) /\
  ctx res.2 !! "user" = Some (VStr "ada").
Proof.
  intros route res.
  assert (Hpass : forall key tag request,
             Keeps key (Examples.pass tag request)).
  { intros key tag request. apply keeps_emit, keeps_read. intros context.
    destruct (context !! "next") as [[| |[|i]|]|]; try apply keeps_throw.
    apply keeps_await. intros [r|e]; [apply keeps_return|apply keeps_throw]. }
  assert (Hadmin : forall key request, Keeps key (Examples.admin request)).
  { intros key request. apply keeps_emit, keeps_return. }
  assert (Hkeep : forall key,
             handlers_keep key route (Examples.GET "http://localhost/admin")).
  { intros key. split; [apply Hadmin|]. simpl.
    constructor; [apply Hpass|constructor]. }
  destruct (context_assigned_in_place route (Examples.GET "http://localhost/admin")
              {["user" := VStr "ada"]})
    as (_ & _ & _ & _ & Hparams & Hnext & Hother).
  split; [|split].
  - apply (Hparams Examples.secret); [vm_compute; reflexivity|apply Hadmin].
  - apply Hnext; [by eexists|reflexivity|apply Hkeep].
  - rewrite Hother; [reflexivity|done|done|reflexivity|apply Hkeep].
Defined.

(** ** [match] *)

Lemma lookup_cache_route method path ref h r :
  cachedRoutes (cache_route method path ref h r) !! method = Some {[path := ref]}.
Proof. simpl. apply lookup_insert_eq. Qed.

Lemma match_hit r method path cached :
  cachedRoutes r !! method ≫= (.!! path) = Some cached ->
  match_ method path r = (cached, r).
Proof. intros H. unfold match_. by rewrite H. Qed.

(** Whatever [match] returns is what the cache then holds for the pair. *)
Lemma match_cached r method path :
  cachedRoutes (match_ method path r).2 !! method ≫= (.!! path)
  = Some (match_ method path r).1.
Proof.
  unfold match_.
  destruct (cachedRoutes r !! method ≫= (.!! path)) as [cached|] eqn:Hc; [done|].
  destruct (staticRoutes r !! method ≫= (.!! path)) as [staticRoute|].
  { cbn [fst snd]. rewrite lookup_cache_route. simpl. apply lookup_singleton_eq. }
  destruct (dynamicRoutes r !! method ≫= _) as [[dynamicRoute groups]|];
    cbn [fst snd]; rewrite lookup_cache_route; simpl; apply lookup_singleton_eq.
Qed.

(** On a miss the cache of the method is replaced by a one-entry object. *)
Lemma match_miss_cache r method path :
  cachedRoutes r !! method ≫= (.!! path) = None ->
  cachedRoutes (match_ method path r).2 =
  <[method := {[path := (match_ method path r).1]}]> (cachedRoutes r).
Proof.
  intros Hc. unfold match_. rewrite Hc.
  destruct (staticRoutes r !! method ≫= (.!! path)) as [staticRoute|]; [done|].
  by destruct (dynamicRoutes r !! method ≫= _) as [[dynamicRoute groups]|].
Qed.

Lemma match_tables r method path :
  staticRoutes (match_ method path r).2 = staticRoutes r /\
  dynamicRoutes (match_ method path r).2 = dynamicRoutes r /\
  middlewares (match_ method path r).2 = middlewares r.
Proof.
  unfold match_.
  destruct (cachedRoutes r !! method ≫= (.!! path)) as [cached|]; [done|].
  destruct (staticRoutes r !! method ≫= (.!! path)) as [staticRoute|]; [done|].
  by destruct (dynamicRoutes r !! method ≫= _) as [[dynamicRoute groups]|].
Qed.

(** C3: two calls of [match] in a row for the same method and path return
    the same chain, a closure over the same route object, and the second
    call, a cache hit, leaves the router exactly as the first left it.
    So the two chains run the same middleware in the same order before
    the same route handler with the same parameters: calling them gives
    the same outcome, the same events and the same final context. *)
Theorem match_twice_same_chain r method path :
  let first := match_ method path r in
  let second := match_ method path first.2 in
  second = first /\
  heap second.2 !! second.1 = heap first.2 !! first.1 /\
  (forall request context,
      invoke second.2 second.1 request context
      = invoke first.2 first.1 request context).
Proof.
  intros first second.
  assert (second = first) as ->; [|done].
  subst second first. rewrite (match_hit _ _ _ _ (match_cached r method path)).
  by destruct (match_ method path r).
Qed.

Lemma one_path_empty : one_path_per_method empty_router.
Proof. intros method byPath. simpl. by rewrite lookup_empty. Qed.

(** ** Fall-through *)

Lemma scan_none h path refs :
  (forall ref route d, ref ∈ refs -> h !! ref = Some route ->
                       dynamic route = Some d ->
                       URLPattern.exec (pattern d) path = None) ->
  scan h path refs = None.
Proof.
  induction refs as [|ref refs IH]; intros H; simpl; [done|].
  destruct (h !! ref) as [route|] eqn:Href; simpl.
  - destruct (dynamic route) as [d|] eqn:Hd; simpl.
    + rewrite (H ref route d); [|left|done|done].
      apply IH. intros ref' route' d' Hin. apply H. by right.
    + apply IH. intros ref' route' d' Hin. apply H. by right.
  - apply IH. intros ref' route' d' Hin. apply H. by right.
Qed.

Lemma no_dynamic_match_scan h routes path :
  no_dynamic_match h routes path ->
  routes ≫= (fun refs => scan h path (reverse refs)) = None.
Proof.
  intros H. destruct routes as [refs|]; simpl; [|done].
  apply scan_none. intros ref route d Hin Href Hd.
  rewrite elem_of_reverse in Hin. by apply (H refs ref route d).
Qed.

Lemma match_not_found r method path :
  cachedRoutes r !! method ≫= (.!! path) = None ->
  staticRoutes r !! method ≫= (.!! path) = None ->
  no_dynamic_match (heap r) (dynamicRoutes r !! method) path ->
  match_ method path r =
  (length (heap r),
   cache_route method path (length (heap r))
     (heap r ++ [ {| method := method; pathname := path; handler := not_found_handler;
                     middleware := Some (collect path (middlewares r));
                     dynamic := None |} ]) r).
Proof.
  intros Hc Hs Hd. unfold match_.
  by rewrite Hc, Hs, (no_dynamic_match_scan _ _ _ Hd).
Qed.

Lemma Sketch_scan_none h path refs :
  (forall ref route d, ref ∈ refs -> h !! ref = Some route ->
                       Sketch.dynamic route = Some d ->
                       URLPattern.exec (pattern d) path = None) ->
  Sketch.scan h path refs = None.
Proof.
  induction refs as [|ref refs IH]; intros H; simpl; [done|].
  destruct (h !! ref) as [route|] eqn:Href; simpl.
  - destruct (Sketch.dynamic route) as [d|] eqn:Hd; simpl.
    + rewrite (H ref route d); [|left|done|done].
      apply IH. intros ref' route' d' Hin. apply H. by right.
    + apply IH. intros ref' route' d' Hin. apply H. by right.
  - apply IH. intros ref' route' d' Hin. apply H. by right.
Qed.

(** C2, as the code has it, for a method and a path that are own keys
    of the tables: when the cache, the static table and the dynamic
    routes of the method all miss, [match] of router.ts resolves to a
    fresh not-found route carrying the selected middleware, whether or
    not the method has dynamic routes (the call returns: the source's
    [match] with its inherited lookups gives the same).  Calling the
    chain runs the selected middleware and then the not-found handler:
    the outcome is 404 [Not Found] unless the middleware reject, in
    which case it is their rejection; so a dispatch that resolves
    answers 404, and it does resolve when no middleware was selected;
    there is no 405 in router.ts.  Only the earlier variant of [match]
    tells the two cases apart: it returns the constant 405 handler when
    the method has no array of dynamic routes and the constant 404
    handler when it has one. *)
Theorem fall_through_is_not_found method path :
  own_key method -> own_key path ->
  (forall r,
      cachedRoutes r !! method ≫= (.!! path) = None ->
      staticRoutes r !! method ≫= (.!! path) = None ->
      no_dynamic_match (heap r) (dynamicRoutes r !! method) path ->
      let res := match_ method path r in
      let notFoundRoute :=
        {| method := method; pathname := path; handler := not_found_handler;
           middleware := Some (collect path (middlewares r));
           dynamic := None |} in
      Prototype.match_ method path r = Prototype.Returns res.1 res.2 /\
      heap res.2 !! res.1 = Some notFoundRoute /\
      (forall request context,
          (invoke res.2 res.1 request context).1 =
          match (middleware_phase notFoundRoute request context).1 with
          | Resolved _ => Resolved not_found_response
          | Rejected e => Rejected e
          end) /\
      (forall request context response,
          (invoke res.2 res.1 request context).1 = Resolved response ->
          response = not_found_response) /\
      (collect path (middlewares r) = [] ->
       forall request context,
         (invoke res.2 res.1 request context).1 = Resolved not_found_response)) /\
  (forall s,
      Sketch.cachedRoutes s !! method ≫= (.!! path) = None ->
      Sketch.staticRoutes s !! method ≫= (.!! path) = None ->
      Sketch_no_dynamic_match (Sketch.heap s) (Sketch.dynamicRoutes s !! method) path ->
      Sketch.match_ method path s =
      (Sketch.Constant (match Sketch.dynamicRoutes s !! method with
                        | Some _ => Sketch.not_found
                        | None => Sketch.method_not_allowed
                        end), s)).
Proof.
  intros Hmethod Hpath. split.
  - intros r Hc Hs Hd res notFoundRoute. subst res.
    split; [by apply Prototype_match_own|].
    rewrite (match_not_found _ _ _ Hc Hs Hd).
    cbn [fst snd]. unfold invoke. cbn [heap cache_route].
    rewrite lookup_app_r, Nat.sub_diag by done. cbn [lookup list_lookup].
    fold notFoundRoute.
    assert (Hout : forall request context,
               (handleRoute notFoundRoute request context).1 =
               match (middleware_phase notFoundRoute request context).1 with
               | Resolved _ => Resolved not_found_response
               | Rejected e => Rejected e
               end).
    { intros request context. rewrite handleRoute_eq.
      by destruct (middleware_phase _ request context).1. }
    split; [done|]. split; [done|]. split.
    + intros request context response. rewrite Hout.
      destruct (middleware_phase _ request context).1; [|done].
      by intros [= <-].
    + intros Hnone request context. rewrite Hout.
      unfold middleware_phase, notFoundRoute. cbn [middleware].
      by rewrite Hnone.
  - intros s Hc Hs Hd. unfold Sketch.match_. rewrite Hc, Hs.
    destruct (Sketch.dynamicRoutes s !! method) as [routes|] eqn:Hr; [|done].
    rewrite Sketch_scan_none; [done|].
    intros ref route d Hin Href Hdyn. rewrite elem_of_reverse in Hin.
    by apply (Hd routes ref route d).
Qed.

(** An instance with middleware and with dynamic routes of the method:
    [GET /x] on a router holding [/contacts/:name] and a middleware of
    [/x] runs the middleware, then the not-found handler; the earlier
    variant answers 404 there, the method having dynamic routes. *)
Lemma fall_through_is_not_found_witness :
  let r := use Examples.compile "/x" (Examples.pass "seen")
             (get Examples.compile "/contacts/:name" Examples.contact empty_router) in
  let sketch :=
    {| Sketch.heap := [ {| Sketch.method := "GET"; Sketch.pathname := "/contacts/:name";
                           Sketch.handlers := [inl Examples.contact];
                           Sketch.dynamic :=
                             (fun p => {| pattern := p; params := ∅ |})
                               <$> Examples.compile "/contacts/:name" |} ];
       Sketch.cachedRoutes := ∅;
       Sketch.dynamicRoutes := {[ "GET" := [0] ]};
       Sketch.staticRoutes := ∅;
       Sketch.middlewares := [] |} in
  let res := match_ "GET" "/x" r in
  dynamicRoutes r !! "GET" = Some [0] /\
  length (collect "/x" (middlewares r)) = 1 /\
  (invoke res.2 res.1 (Examples.GET "http://localhost/x") ∅).1
  = Resolved not_found_response /\
  Sketch.match_ "GET" "/x" sketch = (Sketch.Constant Sketch.not_found, sketch).
Proof.
  intros r sketch res.
  assert (Hown : own_key "GET" /\ own_key "/x")
    by (by split; apply (bool_decide_unpack _); vm_compute).
  destruct Hown as [Hm Hp].
  split; [reflexivity|]. split; [reflexivity|]. split.
  - refine (eq_trans
              (proj1 (proj2 (proj2 (proj1 (fall_through_is_not_found "GET" "/x" Hm Hp) r
                                          _ _ _)))
                     (Examples.GET "http://localhost/x") ∅) _);
      try reflexivity.
    intros refs ref route d [= <-] Hin Href Hd. revert Href Hd.
    apply list_elem_of_singleton in Hin as ->.
    intros [= <-] [= <-]. reflexivity.
  - refine (proj2 (fall_through_is_not_found "GET" "/x" Hm Hp) sketch _ _ _);
      try reflexivity.
    intros refs ref route d [= <-] Hin Href Hd. revert Href Hd.
    apply list_elem_of_singleton in Hin as ->.
    intros [= <-] [= <-]. reflexivity.
Defined.

(** C2, as stated, fails on router.ts: nothing is registered, so the
    method POST has no dynamic route at all, and the dispatch of
    [POST /x] still answers 404 and not 405. *)
Lemma post_without_routes_is_404_not_405 :
  dynamicRoutes empty_router !! "POST" = None /\
  staticRoutes empty_router !! "POST" = None /\
  cachedRoutes empty_router !! "POST" = None /\
  exists response,
    (handle empty_router (Examples.POST "http://localhost/x") ∅).1.1 = Resolved response /\
    status response = 404%Z /\ status response <> 405%Z.
Proof.
  repeat split. exists not_found_response. by vm_compute.
Qed.

(** ** Dynamic routes *)

Lemma scan_skip h path refs1 refs2 :
  (forall ref, ref ∈ refs1 -> exec_at h path ref = None) ->
  scan h path (refs1 ++ refs2) = scan h path refs2.
Proof.
  induction refs1 as [|ref refs1 IH]; intros H; simpl; [done|].
  fold (exec_at h path ref). rewrite H by left.
  apply IH. intros ref' Hin. apply H. by right.
Qed.

(** The scan takes the last-registered route that matches. *)
Lemma scan_last_match h path routes1 ref routes2 groups :
  exec_at h path ref = Some groups ->
  (forall ref', ref' ∈ routes2 -> exec_at h path ref' = None) ->
  scan h path (reverse (routes1 ++ ref :: routes2)) = Some (ref, groups).
Proof.
  intros Href Hlater. rewrite reverse_app, reverse_cons, <- app_assoc.
  rewrite scan_skip.
  - simpl. fold (exec_at h path ref). by rewrite Href.
  - intros ref' Hin. rewrite elem_of_reverse in Hin. by apply Hlater.
Qed.

Lemma match_dynamic r method path routes1 ref routes2 groups :
  cachedRoutes r !! method ≫= (.!! path) = None ->
  staticRoutes r !! method ≫= (.!! path) = None ->
  dynamicRoutes r !! method = Some (routes1 ++ ref :: routes2) ->
  exec_at (heap r) path ref = Some groups ->
  (forall ref', ref' ∈ routes2 -> exec_at (heap r) path ref' = None) ->
  match_ method path r =
  (ref, cache_route method path ref
          (alter (fun route => set_params groups
                                 (set_middleware (collect path (middlewares r)) route))
                 ref (heap r)) r).
Proof.
  intros Hc Hs Hd Href Hlater. unfold match_. rewrite Hc, Hs, Hd. simpl.
  by rewrite (scan_last_match _ _ _ _ _ _ Href Hlater).
Qed.

(** The route handler is entered at most once, with [params] set to the
    route's [params], and it is entered whenever the dispatch resolves. *)
Lemma handleRoute_terminal route request context :
  let res := handleRoute route request context in
  (forall c, Enter Terminal c ∈ trace res.2 ->
             c !! "params" = Some (VParams (route_params route))) /\
  (forall response, res.1 = Resolved response ->
                    exists c, Enter Terminal c ∈ trace res.2).
Proof.
  simpl. split.
  - intros c [H|[H|H]]%handleRoute_events; [done| |done].
    injection H as ->. apply lookup_insert_eq.
  - intros response Hres.
    pose proof (handleRoute_trace route request context) as T. simpl in T.
    destruct ((middleware_phase route request context).1) as [r|e].
    + destruct T as (tail & -> & _). eexists. rewrite elem_of_app, elem_of_cons. eauto.
    + rewrite T in Hres. done.
Qed.

(** With no handler in the array the composed chain resolves at once
    (line 178). *)
Lemma composeMiddleware_nil request st :
  composeMiddleware [] request st
  = (Resolved empty_response, set_index 0 (set_index (-1) st)).
Proof. reflexivity. Qed.

Lemma isDynamic_contacts : isDynamic "/contacts/:name" = true.
Proof. vm_compute. reflexivity. Qed.

Lemma pathname_of_contacts_ada :
  pathname_of "http://localhost/contacts/ada" = "/contacts/ada".
Proof. vm_compute. reflexivity. Qed.

(** C5, as the code has it, for a method and a path that are own keys
    of the tables: among the dynamic routes of the method, the one
    registered last whose pattern matches the path is resolved (no cached
    entry, no static route); [match] returns, and stores the selected
    middleware and the captures of that route's pattern on the route
    object.  When the chain is called while the route object is as this
    [match] left it, and so when [handle] calls it at once, the context
    the route handler receives has [params] equal to those captures, and
    a call that resolves has entered the route handler.  Nothing is said
    of a chain called after the route object was written to again: the
    captures live on the route object, and a resolution of another path
    through the same route replaces them.
    With [get("/contacts/:name", contact)] alone, [GET /contacts/ada]
    answers [Contact: ada], for every pattern compiler that captures
    [name = ada] there. *)
Theorem last_matching_dynamic_route_params :
  (forall r method path routes1 ref routes2 route d groups,
      own_key method -> own_key path ->
      cachedRoutes r !! method ≫= (.!! path) = None ->
      staticRoutes r !! method ≫= (.!! path) = None ->
      dynamicRoutes r !! method = Some (routes1 ++ ref :: routes2) ->
      heap r !! ref = Some route ->
      dynamic route = Some d ->
      URLPattern.exec (pattern d) path = Some groups ->
      (forall ref', ref' ∈ routes2 -> exec_at (heap r) path ref' = None) ->
      let res := match_ method path r in
      let route' := set_params groups
                      (set_middleware (collect path (middlewares r)) route) in
      Prototype.match_ method path r = Prototype.Returns res.1 res.2 /\
      res.1 = ref /\
      heap res.2 !! ref = Some route' /\
      handler route' = handler route /\
      route_params route' = groups /\
      (forall r' request context,
          heap r' !! res.1 = Some route' ->
          let out := invoke r' res.1 request context in
          out = handleRoute route' request context /\
          (forall c, Enter Terminal c ∈ trace out.2 ->
                     c !! "params" = Some (VParams groups)) /\
          (forall response, out.1 = Resolved response ->
                            exists c, Enter Terminal c ∈ trace out.2)) /\
      (forall request context,
          req_method request = method ->
          pathname_of (req_url request) = path ->
          let out := (handle r request context).1 in
          out = handleRoute route' request context /\
          (forall c, Enter Terminal c ∈ trace out.2 ->
                     c !! "params" = Some (VParams groups)) /\
          (forall response, out.1 = Resolved response ->
                            exists c, Enter Terminal c ∈ trace out.2))) /\
  (forall newURLPattern pat context,
      newURLPattern "/contacts/:name" = Some pat ->
      URLPattern.exec pat "/contacts/ada" = Some {["name" := Some "ada"]} ->
      (handle (get newURLPattern "/contacts/:name" Examples.contact empty_router)
              (Examples.GET "http://localhost/contacts/ada") context).1.1
      = Resolved {| status := 200; body := "Contact: ada" |}).
Proof.
  assert (General : forall r method path routes1 ref routes2 route d groups,
      cachedRoutes r !! method ≫= (.!! path) = None ->
      staticRoutes r !! method ≫= (.!! path) = None ->
      dynamicRoutes r !! method = Some (routes1 ++ ref :: routes2) ->
      heap r !! ref = Some route ->
      dynamic route = Some d ->
      URLPattern.exec (pattern d) path = Some groups ->
      (forall ref', ref' ∈ routes2 -> exec_at (heap r) path ref' = None) ->
      match_ method path r =
      (ref, cache_route method path ref
              (alter (fun route => set_params groups
                        (set_middleware (collect path (middlewares r)) route))
                     ref (heap r)) r)).
  { intros r method path routes1 ref routes2 route d groups Hc Hs Hd Href Hdyn Hex Hl.
    eapply match_dynamic; eauto. unfold exec_at. rewrite Href. simpl.
    by rewrite Hdyn. }
  split.
  - intros r method path routes1 ref routes2 route d groups Hown Hown' Hc Hs Hd
           Href Hdyn Hex Hl res route'.
    subst res. split; [by apply Prototype_match_own|].
    assert (Hroute : alter (fun route => set_params groups
                              (set_middleware (collect path (middlewares r)) route))
                           ref (heap r) !! ref = Some route').
    { by rewrite list_lookup_alter_eq, Href. }
    assert (Hps : route_params route' = groups).
    { unfold route', route_params. simpl. by rewrite Hdyn. }
    assert (Hcall : forall request context,
               let out := handleRoute route' request context in
               out = handleRoute route' request context /\
               (forall c, Enter Terminal c ∈ trace out.2 ->
                          c !! "params" = Some (VParams groups)) /\
               (forall response, out.1 = Resolved response ->
                                 exists c, Enter Terminal c ∈ trace out.2)).
    { intros request context out. split; [done|]. subst out. rewrite <- Hps.
      apply handleRoute_terminal. }
    split; [|split; [|split; [|split; [|split]]]].
    + by rewrite (General _ _ _ _ _ _ _ _ _ Hc Hs Hd Href Hdyn Hex Hl).
    + by rewrite (General _ _ _ _ _ _ _ _ _ Hc Hs Hd Href Hdyn Hex Hl).
    + done.
    + exact Hps.
    + intros r' request context.
      rewrite (General _ _ _ _ _ _ _ _ _ Hc Hs Hd Href Hdyn Hex Hl).
      cbn [fst snd]. intros Hr'. unfold invoke. rewrite Hr'.
      apply Hcall.
    + intros request context Hmethod Hpath. unfold handle.
      rewrite Hmethod, Hpath, (General _ _ _ _ _ _ _ _ _ Hc Hs Hd Href Hdyn Hex Hl).
      cbn [fst snd]. unfold invoke, cache_route. cbn [heap]. rewrite Hroute.
      apply Hcall.
  - intros newURLPattern pat context Hnew Hex.
    unfold handle, Examples.GET. cbn [req_method req_url].
    rewrite pathname_of_contacts_ada.
    assert (Hr : get newURLPattern "/contacts/:name" Examples.contact empty_router =
                 {| heap := [ {| method := "GET"; pathname := "/contacts/:name";
                                 handler := Examples.contact; middleware := None;
                                 dynamic := Some {| pattern := pat; params := ∅ |} |};
                              {| method := "HEAD"; pathname := "/contacts/:name";
                                 handler := Examples.contact; middleware := None;
                                 dynamic := Some {| pattern := pat; params := ∅ |} |} ];
                    cachedRoutes := ∅;
                    dynamicRoutes := <["HEAD" := [1%nat]]> (<["GET" := [0%nat]]> ∅);
                    staticRoutes := ∅;
                    middlewares := [] |}).
    { unfold get, add. rewrite isDynamic_contacts. cbn [negb]. rewrite Hnew.
      reflexivity. }
    rewrite Hr.
    erewrite (General _ "GET" "/contacts/ada" [] 0%nat []); try reflexivity;
      [|exact Hex|by intros ref' Hin%elem_of_nil].
    unfold invoke, cache_route. cbn [fst snd heap alter list_alter lookup list_lookup].
    unfold handleRoute, collect.
    cbn [middleware set_params set_middleware mbind list_bind handler].
    rewrite composeMiddleware_nil. cbn [run Examples.contact enter log set_ctx ctx].
    unfold assign_params. rewrite lookup_insert_eq.
    unfold route_params. cbn [dynamic set_params set_middleware fmap option_fmap
                               option_map params].
    by rewrite lookup_singleton_eq.
Qed.

Lemma last_matching_dynamic_route_params_witness :
  let r := get Examples.compile "/a/:y" Examples.admin
             (get Examples.compile "/a/:x" Examples.contact empty_router) in
  ((match_ "GET" "/a/b" r).1 = 2%nat /\
   forall c,
     Enter Terminal c
       ∈ trace (invoke (match_ "GET" "/a/b" r).2 (match_ "GET" "/a/b" r).1
                       (Examples.GET "http://localhost/a/b") ∅).2 ->
     c !! "params" = Some (VParams {["y" := Some "b"]})) /\
  (handle (get Examples.compile "/contacts/:name" Examples.contact empty_router)
          (Examples.GET "http://localhost/contacts/ada") ∅).1.1
  = Resolved {| status := 200; body := "Contact: ada" |}.
Proof.
  intros r. split.
  - pose (pat := {| URLPattern.pathname := "/a/:y";
                    URLPattern.exec := fun path =>
                      SegmentPattern.match_segments
                        (SegmentPattern.split_slash "" "/a/:y")
                        (SegmentPattern.split_slash "" path) |}).
    assert (Hc : cachedRoutes r !! "GET" ≫= (.!! "/a/b") = None)
      by (vm_compute; reflexivity).
    assert (Hs : staticRoutes r !! "GET" ≫= (.!! "/a/b") = None)
      by (vm_compute; reflexivity).
    assert (Hd : dynamicRoutes r !! "GET" = Some ([0%nat] ++ 2%nat :: []))
      by (vm_compute; reflexivity).
    assert (Hex : URLPattern.exec pat "/a/b" = Some {["y" := Some "b"]})
      by (vm_compute; reflexivity).
    assert (Hl : forall ref', ref' ∈ ([] : list nat) -> exec_at (heap r) "/a/b" ref' = None)
      by (by intros ref' Hin%elem_of_nil).
    assert (Hm : own_key "GET") by (by apply (bool_decide_unpack _); vm_compute).
    assert (Hp : own_key "/a/b") by apply own_key_slash.
    destruct (proj1 last_matching_dynamic_route_params r "GET" "/a/b"
                [0%nat] 2%nat []
                {| method := "GET"; pathname := "/a/:y"; handler := Examples.admin;
                   middleware := None;
                   dynamic := Some {| pattern := pat; params := ∅ |} |}
                {| pattern := pat; params := ∅ |} {["y" := Some "b"]}
                Hm Hp Hc Hs Hd eq_refl eq_refl Hex Hl)
      as (_ & Href & Hheap & _ & _ & Hout & _).
    split; [exact Href|]. intros c.
    apply (Hout (match_ "GET" "/a/b" r).2 (Examples.GET "http://localhost/a/b") ∅).
    rewrite Href. exact Hheap.
  - refine (proj2 last_matching_dynamic_route_params Examples.compile
              {| URLPattern.pathname := "/contacts/:name";
                 URLPattern.exec := fun path =>
                   SegmentPattern.match_segments
                     (SegmentPattern.split_slash "" "/contacts/:name")
                     (SegmentPattern.split_slash "" path) |}
              ∅ _ _).
    + reflexivity.
    + vm_compute. reflexivity.
Defined.

(** C5, as stated, fails when two dynamic routes of a method match the
    path: [/a/:x] is registered for GET and its pattern matches [/a/b]
    with the capture [x = b], nothing is cached and there is no static
    route, and yet the handler that runs is the one of [/a/:y], registered
    later, and the [params] it receives are [y = b]. *)
Lemma earlier_overlapping_route_is_shadowed :
  let first : RequestHandler := fun _ => Emit "first" (Return empty_response) in
  let second : RequestHandler := fun _ => Emit "second" (Return empty_response) in
  let r := get Examples.compile "/a/:y" second
             (get Examples.compile "/a/:x" first empty_router) in
  let res := (handle r (Examples.GET "http://localhost/a/b") ∅).1 in
  dynamicRoutes r !! "GET" = Some [0%nat; 2%nat] /\
  exec_at (heap r) "/a/b" 0 = Some {["x" := Some "b"]} /\
  cachedRoutes r !! "GET" = None /\
  staticRoutes r !! "GET" = None /\
  exists c,
    trace res.2 = [Enter Terminal c; Effect "second"] /\
    c !! "params" = Some (VParams {["y" := Some "b"]}) /\
    c !! "params" <> Some (VParams {["x" := Some "b"]}).
Proof.
  intros first second r res.
  repeat split; try (vm_compute; reflexivity).
  eexists. split; [vm_compute; reflexivity|]. split; [vm_compute; reflexivity|].
  vm_compute. discriminate.
Qed.

(** ** Middleware selection and order *)

Lemma collect_app path mws1 mws2 :
  collect path (mws1 ++ mws2) = collect path mws1 ++ collect path mws2.
Proof. apply bind_app. Qed.

Lemma collect_entry path pat (handlers : list MiddlewareHandler) :
  collect path [(pat, handlers)]
  = if URLPattern.test pat path then handlers else [].
Proof. unfold collect. simpl. by rewrite app_nil_r. Qed.

Lemma collect_includes path mws pat (handlers : list MiddlewareHandler) :
  (pat, handlers) ∈ mws -> URLPattern.test pat path = true ->
  exists before after, collect path mws = before ++ handlers ++ after.
Proof.
  intros (mws1 & mws2 & ->)%list_elem_of_split Htest.
  exists (collect path mws1), (collect path mws2).
  change ((pat, handlers) :: mws2) with ([(pat, handlers)] ++ mws2).
  by rewrite !collect_app, collect_entry, Htest.
Qed.

(** On a miss, the resolved route object holds the collected handlers. *)
Lemma match_stores_collection r method path route :
  cachedRoutes r !! method ≫= (.!! path) = None ->
  heap (match_ method path r).2 !! (match_ method path r).1 = Some route ->
  middleware route = Some (collect path (middlewares r)).
Proof.
  intros Hc. unfold match_. rewrite Hc.
  destruct (staticRoutes r !! method ≫= (.!! path)) as [staticRoute|].
  { cbn [fst snd cache_route heap]. rewrite list_lookup_alter_eq.
    destruct (heap r !! staticRoute); [|done]. by intros [= <-]. }
  destruct (dynamicRoutes r !! method ≫= _) as [[dynamicRoute groups]|];
    cbn [fst snd cache_route heap].
  - rewrite list_lookup_alter_eq.
    destruct (heap r !! dynamicRoute); [|done]. by intros [= <-].
  - rewrite lookup_app_r, Nat.sub_diag by done. by intros [= <-].
Qed.

Lemma positions_bound n evs :
  Forall (mw_event n) evs -> Forall (fun j => (0 <= j < Z.of_nat n)%Z) (positions evs).
Proof.
  induction 1 as [|e evs He _ IH]; [constructor|].
  destruct e as [[i|] c|tag]; simpl in *; [|done|done].
  constructor; [apply He|done].
Qed.

(** The handlers a dispatch enters: middleware at strictly increasing
    positions of the composed array, then, unless the middleware phase
    failed, the route handler, last. *)
Lemma handleRoute_order route request context :
  let mw := middleware_phase route request context in
  exists js,
    entered (trace (handleRoute route request context).2)
    = (Mw <$> js) ++ match mw.1 with
                     | Resolved _ => [Terminal]
                     | Rejected _ => []
                     end /\
    ascending (-1) js (index mw.2) /\
    Forall (fun j => (0 <= j < Z.of_nat (length (default [] (middleware route))))%Z) js.
Proof.
  intros mw. subst mw.
  pose proof (handleRoute_trace route request context) as T.
  destruct (middleware_phase_trace route request context) as [F A].
  simpl in *. exists (positions (trace (middleware_phase route request context).2)).
  split; [|split; [done|by apply positions_bound]].
  destruct ((middleware_phase route request context).1) as [r|e].
  - destruct T as (tail & -> & Ftail).
    rewrite entered_app, (entered_mw _ _ F). simpl.
    by rewrite (entered_effects _ Ftail).
  - rewrite T. simpl. by rewrite (entered_mw _ _ F), app_nil_r.
Qed.

Lemma ascending_above n lo l hi :
  ascending lo l hi -> Forall (fun j => (0 <= j < n)%Z) l -> (n <= lo)%Z -> l = [].
Proof.
  destruct l as [|p l]; [done|]. simpl. intros [Hp _] Hall Hn.
  apply Forall_cons in Hall as [Hb _]. lia.
Qed.

Lemma run_defers n (call : Z -> Exec -> Outcome * Exec) j p :
  Defers j p ->
  (forall c st, chain_run (Z.to_nat n) st (call c st).2) ->
  (forall st, (-1 <= index st < j)%Z ->
              exists evs, trace (call j st).2 = trace st ++ evs /\
                          positions evs = seqZ j (n - j) /\
                          (n <= index (call j st).2)%Z) ->
  (0 <= n)%Z ->
  forall st,
    (-1 <= index st < j)%Z ->
    ctx st !! "next" = Some (VNext (BoundNext j)) ->
    exists evs, trace (run call p st).2 = trace st ++ evs /\
                positions evs = seqZ j (n - j) /\
                (n <= index (run call p st).2)%Z.
Proof.
  intros Hp Hchain Hcall Hn.
  induction Hp as [tag k _ IH|k _ IH|key v k Hne _ IH|k]; intros st Hst Hnext; simpl.
  - destruct (IH (log (Effect tag) st)) as (evs & E & P & I); [done|done|].
    exists (Effect tag :: evs). rewrite E. simpl. by rewrite <- app_assoc.
  - by apply IH.
  - destruct (IH (set_ctx (insert key v) st)) as (evs & E & P & I);
      [done|simpl; by rewrite lookup_insert_ne|].
    by exists evs.
  - destruct (Hcall st Hst) as (evs1 & E1 & P1 & I1).
    destruct (call j st) as [o st']. simpl in *.
    destruct (run_chain_run (Z.to_nat n) call Hchain (k o) st') as (evs2 & E2 & F2 & A2);
      [lia|].
    assert (positions evs2 = []) as P2.
    { eapply (ascending_above n); [done| |done].
      apply positions_bound in F2. by rewrite Z2Nat.id in F2. }
    exists (evs1 ++ evs2). rewrite E2, E1, app_assoc.
    split; [done|]. split.
    + unfold positions in *. by rewrite omap_app, P1, P2, app_nil_r.
    + apply ascending_le in A2. lia.
Qed.

(** When every middleware of the array defers, [next(i)] runs all of them
    from position [i] on, each once, in array order. *)
Lemma next_all_defer depth middlewares request i st :
  (forall (j : nat) fn, middlewares !! j = Some fn ->
                        Defers (Z.of_nat j + 1) (fn request)) ->
  (-1 <= index st < i)%Z -> (0 <= i <= Z.of_nat (length middlewares))%Z ->
  (Z.of_nat (length middlewares) - i <= Z.of_nat depth)%Z ->
  exists evs,
    trace (next depth middlewares request i st).2 = trace st ++ evs /\
    positions evs = seqZ i (Z.of_nat (length middlewares) - i) /\
    (Z.of_nat (length middlewares) <= index (next depth middlewares request i st).2)%Z.
Proof.
  intros Hall. revert i st.
  induction depth as [|depth IH]; intros i st Hst Hi Hdepth;
    rewrite next_unfold by lia; unfold at_; rewrite (proj2 (Z.ltb_ge _ _)) by lia.
  - rewrite lookup_ge_None_2 by lia. exists []. simpl.
    rewrite app_nil_r, seqZ_nil by lia. repeat split; lia.
  - destruct (middlewares !! Z.to_nat i) as [fn|] eqn:Hfn.
    + pose proof (lookup_lt_Some _ _ _ Hfn) as Hlt.
      set (st' := enter (Mw i) _).
      destruct (run_defers (Z.of_nat (length middlewares))
                  (next depth middlewares request) (i + 1) (fn request)) with (st := st')
        as (evs & E & P & I).
      * specialize (Hall _ _ Hfn). by rewrite Z2Nat.id in Hall by lia.
      * intros c s. rewrite Nat2Z.id. apply next_chain_run.
      * intros s Hs. apply IH; lia.
      * lia.
      * simpl. lia.
      * simpl. apply lookup_insert_eq.
      * exists (Enter (Mw i) (ctx st') :: evs). rewrite E. simpl.
        rewrite <- app_assoc. split; [done|]. split; [|done].
        rewrite P, (seqZ_cons i) by lia. do 2 f_equal; lia.
    + apply lookup_ge_None_1 in Hfn. exists []. simpl.
      rewrite app_nil_r, seqZ_nil by lia. repeat split; lia.
Qed.

Lemma use_existing_hit path handler mws1 pat handlers mws2 :
  Forall (fun e => URLPattern.pathname e.1 <> path) mws1 ->
  URLPattern.pathname pat = path ->
  use_existing path handler (mws1 ++ (pat, handlers) :: mws2)
  = Some (mws1 ++ (pat, handlers ++ [handler]) :: mws2).
Proof.
  intros Hne Heq. induction Hne as [|[pat' hs'] mws1 Hx _ IH]; simpl.
  - by rewrite bool_decide_eq_true_2.
  - rewrite bool_decide_eq_false_2 by done. by rewrite IH.
Qed.

Lemma use_existing_miss path handler mws :
  Forall (fun e => URLPattern.pathname e.1 <> path) mws ->
  use_existing path handler mws = None.
Proof.
  induction 1 as [|[pat' hs'] mws Hx _ IH]; simpl; [done|].
  rewrite bool_decide_eq_false_2 by done. by rewrite IH.
Qed.

(** C6 fails on router.ts.  After [use("/admin", deny)],
    [use("/admin", pass)] and [get("/admin", admin)], the resolution of
    [GET /admin] selects both middleware, in the order they were pushed,
    and stores them on the static route.  [deny] returns without calling
    [next], so the composed chain ends there and [pass] is never
    entered; [#handleRoute] calls the route handler all the same, and
    the dispatch answers with the route handler's response: a selected
    middleware has not run before the route handler.  In the earlier
    variant the route handler is the innermost link of the chain: after
    the same registrations both middleware are entered, the route
    handler is not, and the dispatch answers 401. *)
Theorem route_handler_runs_after_skipped_middleware :
  let request := Examples.GET "http://localhost/admin" in
  let r := get Examples.compile "/admin" Examples.admin
             (use Examples.compile "/admin" (Examples.pass "never")
                (use Examples.compile "/admin" Examples.deny empty_router)) in
  let res := match_ "GET" "/admin" r in
  let out := invoke res.2 res.1 request ∅ in
  let sketch_deny : Sketch.Middleware := fun _ => Emit "deny" (Return Examples.denied) in
  let sketch_pass : Sketch.Middleware := fun _ => Emit "pass" (Await tt settle) in
  let s := {| Sketch.heap := [ {| Sketch.method := "GET"; Sketch.pathname := "/admin";
                                  Sketch.handlers := [inl Examples.admin];
                                  Sketch.dynamic := None |} ];
              Sketch.cachedRoutes := ∅;
              Sketch.dynamicRoutes := ∅;
              Sketch.staticRoutes := {[ "GET" := {[ "/admin" := 0%nat ]} ]};
              Sketch.middlewares :=
                match Examples.compile "/admin" with
                | Some pat => [(pat, [sketch_deny; sketch_pass])]
                | None => []
                end |} in
  collect "/admin" (middlewares r) = [Examples.deny; Examples.pass "never"] /\
  middleware <$> heap res.2 !! res.1
  = Some (Some [Examples.deny; Examples.pass "never"]) /\
  (handle r request ∅).1 = out /\
  (exists c0 c1,
      trace out.2 = [Enter (Mw 0) c0; Effect "deny"; Enter Terminal c1; Effect "admin"]) /\
  entered (trace out.2) = [Mw 0; Terminal] /\
  out.1 = Resolved Examples.secret /\
  (Sketch.match_ "GET" "/admin" s).1 = Sketch.ViaRoute 0 /\
  exists route,
    Sketch.heap (Sketch.match_ "GET" "/admin" s).2 !! 0%nat = Some route /\
    Sketch.handlers route = [inl Examples.admin; inr sketch_deny; inr sketch_pass] /\
    entered (trace (Sketch.handleRoute route request ∅).2) = [Mw 2; Mw 1] /\
    (Sketch.handleRoute route request ∅).1 = Resolved Examples.denied.
Proof.
  intros request r res out sketch_deny sketch_pass s.
  split; [reflexivity|]. split; [reflexivity|]. split; [reflexivity|].
  split; [eexists _, _; vm_compute; reflexivity|].
  split; [vm_compute; reflexivity|]. split; [vm_compute; reflexivity|].
  split; [vm_compute; reflexivity|].
  eexists. split; [vm_compute; reflexivity|].
  split; [reflexivity|]. split; vm_compute; reflexivity.
Qed.

(** What does hold of the selection and of the order.  The selection
    takes the handlers of every table entry whose pattern tests true on
    the path, entry after entry in table order and each entry's handlers
    in the order [use] pushed them, and leaves none out; on a cache miss
    [match] stores exactly this array on the resolved route, be it
    static, dynamic or the not-found route; and in every dispatch the
    middleware that are entered are entered at increasing positions of
    that array, before the route handler, which comes last.  When every
    middleware defers to [next], all of them are entered, in array
    order. *)
Theorem middleware_selected_and_run_before_handler :
  (forall path,
      collect path [] = [] /\
      (forall mws1 mws2,
          collect path (mws1 ++ mws2) = collect path mws1 ++ collect path mws2) /\
      (forall pat handlers,
          collect path [(pat, handlers)]
          = if URLPattern.test pat path then handlers else []) /\
      (forall mws pat handlers,
          (pat, handlers) ∈ mws -> URLPattern.test pat path = true ->
          exists before after, collect path mws = before ++ handlers ++ after)) /\
  (forall newURLPattern path handler r,
      (forall mws1 pat handlers mws2,
          middlewares r = mws1 ++ (pat, handlers) :: mws2 ->
          Forall (fun e => URLPattern.pathname e.1 <> path) mws1 ->
          URLPattern.pathname pat = path ->
          middlewares (use newURLPattern path handler r)
          = mws1 ++ (pat, handlers ++ [handler]) :: mws2) /\
      (forall pat,
          Forall (fun e => URLPattern.pathname e.1 <> path) (middlewares r) ->
          newURLPattern path = Some pat ->
          middlewares (use newURLPattern path handler r)
          = middlewares r ++ [(pat, [handler])])) /\
  (forall r method path route,
      cachedRoutes r !! method ≫= (.!! path) = None ->
      heap (match_ method path r).2 !! (match_ method path r).1 = Some route ->
      middleware route = Some (collect path (middlewares r))) /\
  (forall route request context,
      let mw := middleware_phase route request context in
      exists js,
        entered (trace (handleRoute route request context).2)
        = (Mw <$> js) ++ match mw.1 with
                         | Resolved _ => [Terminal]
                         | Rejected _ => []
                         end /\
        ascending (-1) js (index mw.2) /\
        Forall (fun j => (0 <= j < Z.of_nat (length (default [] (middleware route))))%Z)
               js) /\
  (forall route request context mws,
      middleware route = Some mws ->
      (forall (j : nat) fn, mws !! j = Some fn -> Defers (Z.of_nat j + 1) (fn request)) ->
      entered (trace (handleRoute route request context).2)
      = (Mw <$> seqZ 0 (Z.of_nat (length mws)))
        ++ match (middleware_phase route request context).1 with
           | Resolved _ => [Terminal]
           | Rejected _ => []
           end).
Proof.
  split; [|split; [|split; [|split]]].
  - intros path. split; [done|]. split; [apply collect_app|].
    split; [apply collect_entry|apply collect_includes].
  - intros newURLPattern path handler r. split.
    + intros mws1 pat handlers mws2 Hr Hne Heq. unfold use.
      by rewrite Hr, use_existing_hit.
    + intros pat Hne Hnew. unfold use. by rewrite use_existing_miss, Hnew.
  - apply match_stores_collection.
  - apply handleRoute_order.
  - intros route request context mws Hmw Hall.
    pose proof (handleRoute_trace route request context) as T.
    destruct (middleware_phase_trace route request context) as [F _].
    assert (P : positions (trace (middleware_phase route request context).2)
                = seqZ 0 (Z.of_nat (length mws))).
    { unfold middleware_phase, composeMiddleware. rewrite Hmw.
      destruct (next_all_defer (length mws) mws request 0
                  (set_index (-1)
                     (set_ctx (assign_next_params OuterNext (route_params route))
                              (start context))) Hall)
        as (evs & E & P & _); [simpl; lia|lia|lia|].
      rewrite E. simpl. by rewrite P, Z.sub_0_r. }
    simpl in T. destruct ((middleware_phase route request context).1) as [r|e].
    + destruct T as (tail & -> & Ftail).
      rewrite entered_app, (entered_mw _ _ F), P. simpl.
      by rewrite (entered_effects _ Ftail).
    + rewrite T. simpl. by rewrite (entered_mw _ _ F), P, app_nil_r.
Qed.

Lemma middleware_selected_and_run_before_handler_witness :
  let r := get Examples.compile "/admin" Examples.admin
             (use Examples.compile "/admin" (Examples.pass "second")
                (use Examples.compile "/other" Examples.deny
                   (use Examples.compile "/admin" (Examples.pass "first") empty_router))) in
  let route := {| method := "GET"; pathname := "/admin"; handler := Examples.admin;
                  middleware := Some [Examples.pass "first"; Examples.pass "second"];
                  dynamic := None |} in
  heap (match_ "GET" "/admin" r).2 !! (match_ "GET" "/admin" r).1 = Some route /\
  middleware route = Some (collect "/admin" (middlewares r)) /\
  entered (trace (handleRoute route (Examples.GET "http://localhost/admin") ∅).2)
  = [Mw 0; Mw 1; Terminal].
Proof.
  intros r route.
  destruct middleware_selected_and_run_before_handler as (_ & _ & Hstore & _ & Hdefer).
  assert (Hroute : heap (match_ "GET" "/admin" r).2 !! (match_ "GET" "/admin" r).1
                   = Some route) by (vm_compute; reflexivity).
  split; [exact Hroute|]. split.
  - apply (Hstore r "GET" "/admin" route); [vm_compute; reflexivity|exact Hroute].
  - etrans;
      [apply (Hdefer route (Examples.GET "http://localhost/admin") ∅
                [Examples.pass "first"; Examples.pass "second"]); [reflexivity|]
      |vm_compute; reflexivity].
    intros j fn Hfn.
    assert (Hpass : forall tag i, Defers i (Examples.pass tag (Examples.GET "http://localhost/admin"))).
    { intros tag i. apply defers_emit, defers_read. intros context ->. apply defers_await. }
    destruct j as [|[|j]]; simpl in Hfn; [| |done]; injection Hfn as <-; apply Hpass.
Defined.

(** ** Registration *)

Section RegistrationProperties.

Variable newURLPattern : string -> option URLPattern.t.

Lemma get_is_add_all path handler r :
  get newURLPattern path handler r
  = register newURLPattern (Add ["GET"; "HEAD"] path handler) r.
Proof. reflexivity. Qed.

Lemma add_static_hit method path handler r :
  isDynamic path = false ->
  static_at (add newURLPattern method path handler r) method path
  = Some (length (heap r)) /\
  heap (add newURLPattern method path handler r) !! length (heap r)
  = Some {| method := method; pathname := path; handler := handler;
            middleware := None; dynamic := None |}.
Proof.
  intros Hdyn. unfold add, static_at. rewrite Hdyn. cbn [negb heap staticRoutes].
  split.
  - destruct (staticRoutes r !! method) as [byPath|];
      rewrite lookup_insert_eq; simpl;
      [apply lookup_insert_eq|apply lookup_singleton_eq].
  - by rewrite lookup_app_r, Nat.sub_diag.
Qed.

Lemma add_static_other method path method' path' handler r :
  method' <> method \/ path' <> path ->
  static_at (add newURLPattern method' path' handler r) method path
  = static_at r method path.
Proof.
  intros Hne. unfold add, static_at.
  destruct (isDynamic path'); cbn [negb]; [by destruct (newURLPattern path')|].
  cbn [staticRoutes].
  destruct (decide (method' = method)) as [->|Hm].
  - destruct Hne as [?|Hp]; [done|].
    destruct (staticRoutes r !! method) as [byPath|] eqn:Hby;
      rewrite lookup_insert_eq; simpl.
    + by rewrite lookup_insert_ne.
    + by rewrite lookup_singleton_ne.
  - by destruct (staticRoutes r !! method'); rewrite lookup_insert_ne.
Qed.

(** Registration never touches the cache and never frees or rewrites a
    route object. *)
Lemma add_frame method path handler r :
  cachedRoutes (add newURLPattern method path handler r) = cachedRoutes r /\
  exists new, heap (add newURLPattern method path handler r) = heap r ++ new.
Proof.
  unfold add. destruct (isDynamic path); cbn [negb].
  - destruct (newURLPattern path); simpl; [eauto|].
    split; [done|]. exists []. by rewrite app_nil_r.
  - simpl. eauto.
Qed.

Lemma register_cache op r : cachedRoutes (register newURLPattern op r) = cachedRoutes r.
Proof.
  destruct op as [methods path handler|path handler]; simpl.
  - unfold add_all. revert r. induction methods as [|m methods IH]; intros r; [done|].
    simpl. rewrite IH. apply add_frame.
  - unfold use. destruct (use_existing path handler (middlewares r)); [done|].
    by destruct (newURLPattern path).
Qed.


End RegistrationProperties.

(** ** [handle] *)

(** [before_query s] is the part of [s] in front of its first question
    mark: it holds none, and what follows it in [s] is nothing or starts
    with one. *)
Lemma before_query_spec (s : string) :
  before_query s +:+ from_query s = s /\
  (from_query s = "" \/ exists s', from_query s = String "?" s') /\
  (forall a b, before_query s <> a +:+ String "?" b).
Proof.
  split; [apply before_from_query|]. split.
  - induction s as [|c s IH]; simpl; [by left|].
    case_bool_decide; subst; eauto.
  - induction s as [|c s IH]; intros a b; simpl.
    + by destruct a.
    + case_bool_decide as Hc; [by destruct a|].
      destruct a as [|c' a]; [intros [= ->]; done|].
      change (String c' a +:+ String "?" b) with (String c' (a +:+ String "?" b)).
      intros [= _ H]. by apply (IH a b).
Qed.

(** C8, as stated, fails in two ways: a fragment that no question mark
    precedes stays in the path, and a URL whose scheme is neither http
    nor https has the empty path. *)
Lemma fragment_and_scheme_not_handled :
  pathname_of "http://example.com/docs#install" = "/docs#install" /\
  path_as_specified "http://example.com/docs#install" = "/docs" /\
  pathname_of "ftp://example.com/docs" = "" /\
  path_as_specified "ftp://example.com/docs" = "/docs".
Proof. vm_compute. done. Qed.

(** C8, as the code has it: for a URL [http://authority/rest] or
    [https://authority/rest] with a non-empty authority, the path is the
    text from the first slash after the authority up to, and without, the
    first question mark (the whole rest when there is none, a fragment
    included); every URL that does not start with [http://] or
    [https://] has the empty path; and [handle] resolves the request's
    method with that path and calls the chain on the request and the
    context it was given. *)
Theorem handle_dispatches_on_method_and_path :
  (forall (secure : bool) authority rest,
      authority <> "" -> no_slash authority = true ->
      pathname_of ((if secure then "https" else "http") +:+ "://" +:+ authority
                   +:+ String "/" rest)
      = String "/" (before_query rest)) /\
  (forall url,
      String.prefix "http://" url = false ->
      String.prefix "https://" url = false ->
      pathname_of url = "") /\
  (forall r req context,
      handle r req context =
      let res := match_ (req_method req) (pathname_of (req_url req)) r in
      (invoke res.2 res.1 req context, res.2)).
Proof.
  split; [apply pathname_of_http|]. split; [apply pathname_of_other|].
  intros r req context. unfold handle. by destruct (match_ _ _ r).
Qed.

Lemma handle_dispatches_on_method_and_path_witness :
  pathname_of "https://example.com/contacts/ada?tab=1#top" = "/contacts/ada".
Proof.
  exact (proj1 handle_dispatches_on_method_and_path true
           "example.com" "contacts/ada?tab=1#top" ltac:(discriminate) eq_refl).
Defined.


(** ** References are never dangling

    [wf] holds for the empty router and is kept by every registration and
    every [match], so the two branches of the model marked unreachable
    ([scan] passing over an entry, [invoke] on a missing object) are never
    taken on a router that was built by the class's own methods. *)

Lemma wf_empty : wf empty_router.
Proof.
  repeat split; intros ? ? ?; simpl; rewrite lookup_empty; discriminate.
Qed.

Lemma lookup_snoc_is_Some {A} (l : list A) (x : A) ref :
  is_Some (l !! ref) -> is_Some ((l ++ [x]) !! ref).
Proof. intros [y Hy]. exists y. by apply lookup_app_l_Some. Qed.

Lemma lookup_two_level (m : gmap string (gmap string nat)) method path ref
  method' path' :
  <[method := <[path := ref]> (default ∅ (m !! method))]> m !! method' ≫= (.!! path')
  = if decide (method = method' /\ path = path') then Some ref
    else m !! method' ≫= (.!! path').
Proof.
  destruct (decide (method = method')) as [<-|Hm].
  - rewrite lookup_insert_eq. simpl.
    destruct (decide (path = path')) as [<-|Hp].
    + rewrite lookup_insert_eq. by rewrite decide_True.
    + rewrite lookup_insert_ne by done. rewrite decide_False by tauto.
      destruct (m !! method); simpl; [done|apply lookup_empty].
  - rewrite lookup_insert_ne by done. by rewrite decide_False by tauto.
Qed.

Lemma wf_add newURLPattern method path handler r :
  wf r -> wf (add newURLPattern method path handler r).
Proof.
  intros (Hs & Hc & Hd). unfold add.
  destruct (isDynamic path); cbn [negb].
  - destruct (newURLPattern path) as [pat|]; [|done].
    repeat split.
    + intros m p ref H. simpl. apply lookup_snoc_is_Some. by apply (Hs m p).
    + intros m p ref H. simpl. apply lookup_snoc_is_Some. by apply (Hc m p).
    + intros m refs ref. simpl. intros Hrefs Hin.
      assert (Hcase : (exists old, dynamicRoutes r !! m = Some old /\ ref ∈ old)
                      \/ ref = length (heap r)).
      { destruct (decide (m = method)) as [->|Hne].
        - destruct (dynamicRoutes r !! method) as [old|] eqn:Hold;
            rewrite lookup_insert_eq in Hrefs; injection Hrefs as <-.
          + apply elem_of_app in Hin as [Hin|Hin%list_elem_of_singleton]; eauto.
          + apply list_elem_of_singleton in Hin. eauto.
        - destruct (dynamicRoutes r !! method);
            rewrite lookup_insert_ne in Hrefs by done; eauto. }
      destruct Hcase as [(old & Hold & Hin')| ->].
      * destruct (Hd m old ref Hold Hin') as (route & Hr & Hdyn).
        exists route. split; [by apply lookup_app_l_Some|done].
      * eexists. rewrite lookup_app_r, Nat.sub_diag by done. split; [done|].
        simpl. eauto.
  - repeat split.
    + intros m p ref. simpl. intros H.
      assert (Hcase : staticRoutes r !! m ≫= (.!! p) = Some ref
                      \/ ref = length (heap r)).
      { destruct (staticRoutes r !! method) as [byPath|] eqn:Hby.
        - replace byPath with (default ∅ (staticRoutes r !! method)) in H
            by by rewrite Hby.
          rewrite lookup_two_level in H. case_decide; [right; congruence|by left].
        - change ({[path := length (heap r)]} : gmap string nat)
            with (<[path := length (heap r)]> (∅ : gmap string nat)) in H.
          replace (∅ : gmap string nat)
            with (default ∅ (staticRoutes r !! method)) in H by by rewrite Hby.
          rewrite lookup_two_level in H. case_decide; [right; congruence|by left]. }
      destruct Hcase as [Hold| ->].
      * apply lookup_snoc_is_Some. by apply (Hs m p).
      * rewrite lookup_app_r, Nat.sub_diag by done. by eexists.
    + intros m p ref H. simpl. apply lookup_snoc_is_Some. by apply (Hc m p).
    + intros m refs ref Hrefs Hin. simpl.
      destruct (Hd m refs ref Hrefs Hin) as (route & Hr & Hdyn).
      exists route. split; [by apply lookup_app_l_Some|done].
Qed.

Lemma wf_use newURLPattern path handler r :
  wf r -> wf (use newURLPattern path handler r).
Proof.
  intros Hwf. unfold use.
  destruct (use_existing path handler (middlewares r)); [done|].
  by destruct (newURLPattern path).
Qed.

Lemma scan_Some h path refs ref groups :
  scan h path refs = Some (ref, groups) ->
  ref ∈ refs /\ exec_at h path ref = Some groups.
Proof.
  induction refs as [|ref' refs IH]; simpl; [done|].
  fold (exec_at h path ref').
  destruct (exec_at h path ref') as [g|] eqn:Hex.
  - intros [= <- <-]. split; [by left|done].
  - intros [Hin H]%IH. split; [by right|done].
Qed.

Lemma lookup_alter_is_Some {A} (f : A -> A) (l : list A) i j :
  is_Some (l !! j) -> is_Some (alter f i l !! j).
Proof.
  intros [x Hx]. destruct (decide (i = j)) as [->|Hne].
  - rewrite list_lookup_alter_eq, Hx. by eexists.
  - rewrite list_lookup_alter_ne, Hx by done. by eexists.
Qed.

Lemma wf_cache_route method path ref (f : Route -> Route) r :
  (forall route, is_Some (dynamic route) -> is_Some (dynamic (f route))) ->
  is_Some (heap r !! ref) ->
  wf r -> wf (cache_route method path ref (alter f ref (heap r)) r).
Proof.
  intros Hf Href (Hs & Hc & Hd). repeat split.
  - intros m p ref' H. simpl. apply lookup_alter_is_Some. by apply (Hs m p).
  - intros m p ref'. simpl. intros H. apply lookup_alter_is_Some.
    destruct (decide (m = method)) as [->|Hne].
    + rewrite lookup_insert_eq in H. simpl in H.
      destruct (decide (p = path)) as [->|Hp].
      * rewrite lookup_singleton_eq in H. by injection H as <-.
      * by rewrite lookup_singleton_ne in H.
    + rewrite lookup_insert_ne in H by done. by apply (Hc m p).
  - intros m refs ref' Hrefs Hin. simpl.
    destruct (Hd m refs ref' Hrefs Hin) as (route & Hr & Hdyn).
    destruct (decide (ref = ref')) as [->|Hne].
    + exists (f route). rewrite list_lookup_alter_eq, Hr. split; [done|by apply Hf].
    + exists route. by rewrite list_lookup_alter_ne.
Qed.

Lemma wf_match method path r : wf r -> wf (match_ method path r).2.
Proof.
  intros Hwf. unfold match_.
  destruct (cachedRoutes r !! method ≫= (.!! path)) as [cached|] eqn:Hcached; [done|].
  destruct (staticRoutes r !! method ≫= (.!! path)) as [staticRoute|] eqn:Hstatic.
  { cbn [snd]. apply wf_cache_route; [done| |done].
    by apply (proj1 Hwf method path). }
  destruct (dynamicRoutes r !! method) as [routes|] eqn:Hroutes; simpl.
  - destruct (scan (heap r) path (reverse routes)) as [[dynamicRoute groups]|] eqn:Hscan.
    + cbn [snd]. apply scan_Some in Hscan as [Hin _]. rewrite elem_of_reverse in Hin.
      destruct (proj2 (proj2 Hwf) method routes dynamicRoute Hroutes Hin)
        as (route & Hr & Hdyn).
      apply wf_cache_route; [|by eexists|done].
      intros route' [d Hd]. simpl. rewrite Hd. by eexists.
    + cbn [snd]. destruct Hwf as (Hs & Hc & Hd). repeat split.
      * intros m p ref H. simpl. apply lookup_snoc_is_Some. by apply (Hs m p).
      * intros m p ref. simpl. intros H.
        destruct (decide (m = method)) as [->|Hne].
        -- rewrite lookup_insert_eq in H. simpl in H.
           destruct (decide (p = path)) as [->|Hp].
           ++ rewrite lookup_singleton_eq in H. injection H as <-.
              rewrite lookup_app_r, Nat.sub_diag by done. by eexists.
           ++ by rewrite lookup_singleton_ne in H.
        -- rewrite lookup_insert_ne in H by done.
           apply lookup_snoc_is_Some. by apply (Hc m p).
      * intros m refs ref Hrefs Hin. simpl.
        destruct (Hd m refs ref Hrefs Hin) as (route & Hr & Hdyn).
        exists route. split; [by apply lookup_app_l_Some|done].
  - destruct Hwf as (Hs & Hc & Hd). repeat split.
    + intros m p ref H. simpl. apply lookup_snoc_is_Some. by apply (Hs m p).
    + intros m p ref. simpl. intros H.
      destruct (decide (m = method)) as [->|Hne].
      * rewrite lookup_insert_eq in H. simpl in H.
        destruct (decide (p = path)) as [->|Hp].
        -- rewrite lookup_singleton_eq in H. injection H as <-.
           rewrite lookup_app_r, Nat.sub_diag by done. by eexists.
        -- by rewrite lookup_singleton_ne in H.
      * rewrite lookup_insert_ne in H by done.
        apply lookup_snoc_is_Some. by apply (Hc m p).
    + intros m refs ref Hrefs Hin. simpl.
      destruct (Hd m refs ref Hrefs Hin) as (route & Hr & Hdyn).
      exists route. split; [by apply lookup_app_l_Some|done].
Qed.


(** ** Routers built by the class's own methods *)

Section Reachable.

Variable newURLPattern : string -> option URLPattern.t.

Lemma wf_register op r : wf r -> wf (register newURLPattern op r).
Proof.
  destruct op as [methods path handler|path handler]; simpl.
  - unfold add_all. revert r. induction methods as [|m methods IH]; intros r Hr; [done|].
    simpl. by apply IH, wf_add.
  - apply wf_use.
Qed.

Lemma one_path_match method path r :
  one_path_per_method r -> one_path_per_method (match_ method path r).2.
Proof.
  intros Hone.
  destruct (cachedRoutes r !! method ≫= (.!! path)) as [cached|] eqn:Hc.
  - by rewrite (match_hit _ _ _ _ Hc).
  - intros method' byPath. rewrite (match_miss_cache _ _ _ Hc).
    destruct (decide (method' = method)) as [->|Hne].
    + rewrite lookup_insert_eq. intros [= <-]. apply map_size_singleton.
    + rewrite lookup_insert_ne by done. apply Hone.
Qed.

Lemma after_steps_invariants steps :
  wf (after_steps newURLPattern steps) /\ one_path_per_method (after_steps newURLPattern steps).
Proof.
  unfold after_steps.
  assert (H : forall r, wf r /\ one_path_per_method r ->
                        wf (foldl (fun r s => step newURLPattern s r) r steps) /\
                        one_path_per_method (foldl (fun r s => step newURLPattern s r) r steps)).
  { induction steps as [|s steps IH]; intros r Hr; [done|].
    simpl. apply IH. destruct Hr as [Hwf Hone]. destruct s as [op|method path]; simpl.
    - split; [by apply wf_register|].
      intros method byPath. rewrite register_cache. apply Hone.
    - split; [by apply wf_match|by apply one_path_match]. }
  apply H. split; [apply wf_empty|apply one_path_empty].
Qed.

End Reachable.




(** * Further properties

    What the code shows beyond the statements above, function by
    function. *)

(** ** [add]: the test for a dynamic template *)

Lemma lacks_cons c d s : lacks c (String d s) <-> d <> c /\ lacks c s.
Proof.
  split.
  - intros H. split.
    + intros ->. by apply (H "" s).
    + intros a b ->. by apply (H (String d a) b).
  - intros [Hd Hs] [|e a] b; simpl.
    + intros [= -> _]. done.
    + intros [= _ Heq]. by apply (Hs a b).
Qed.

Lemma lacks_empty c : lacks c "".
Proof. by intros [|e a] b. Qed.

Lemma app_string_assoc (a b c : string) : (a +:+ b) +:+ c = a +:+ (b +:+ c).
Proof.
  induction a as [|d a IH]; [done|].
  change (String d ((a +:+ b) +:+ c) = String d (a +:+ (b +:+ c))). by f_equal.
Qed.

Lemma lacks_prefix c a b : lacks c (a +:+ b) -> lacks c a.
Proof.
  intros H x y ->. apply (H x (y +:+ b)).
  rewrite app_string_assoc. done.
Qed.

(** X1: [add] files a template as dynamic exactly when some position of
    it holds a star, or a slash immediately followed by a colon; it
    files it as static exactly when the template holds no star and no
    slash followed by a colon.  A colon that no slash precedes, a
    leading one included, does not make a template dynamic. *)
Theorem static_template_has_no_marker (path : string) :
  (isDynamic path = true <-> exists a s, path = a +:+ s /\ dynamic_marker s) /\
  (isDynamic path = false <->
   lacks "*" path /\ forall a b, path <> a +:+ String "/" (String ":" b)).
Proof.
  split; [apply isDynamic_spec|]. split.
  - intros Hstatic.
    assert (Hno : ~ exists a s, path = a +:+ s /\ dynamic_marker s).
    { intros H%isDynamic_spec. congruence. }
    split; intros a b ->; apply Hno; eexists a, _; (split; [done|]).
    + left. by exists b.
    + right. by exists b.
  - intros [Hstar Hcolon]. destruct (isDynamic path) eqn:Hdyn; [|done].
    apply isDynamic_spec in Hdyn as (a & s & -> & [[b ->]|[b ->]]).
    + by destruct (Hstar a b).
    + by destruct (Hcolon a b).
Qed.

(** ** [handle]: the path taken from the URL *)

Lemma star_result {R} cl (k : string -> option R) s r :
  Regex.star cl k s = Some r -> exists a s', s = a +:+ s' /\ k s' = Some r.
Proof.
  induction s as [|c s IH]; simpl.
  - intros H. by exists "", "".
  - destruct (Regex.accepts cl c).
    + destruct (Regex.star cl k s) as [r'|] eqn:E.
      * intros [= ->]. destruct (IH eq_refl) as (a & s' & -> & Hk).
        by exists (String c a), s'.
      * intros H. by exists "", (String c s).
    + intros H. by exists "", (String c s).
Qed.

(** Whatever a sequence of items answers, its continuation answered on
    a rest of the input. *)
Lemma items_result {R} its (k : string -> option R) s r :
  Regex.items its k s = Some r -> exists a s', s = a +:+ s' /\ k s' = Some r.
Proof.
  revert k s. induction its as [|it its IH]; intros k s; cbn [Regex.items].
  - intros H. by exists "", s.
  - destruct it as [cl|cl|cl|cl].
    + destruct s as [|c s]; [done|]. destruct (Regex.accepts cl c); [|done].
      intros (a & s' & -> & Hk)%IH. by exists (String c a), s'.
    + assert (Hskip : Regex.items its k s = Some r ->
                      exists a s', s = a +:+ s' /\ k s' = Some r) by apply IH.
      destruct s as [|c s]; [done|]. destruct (Regex.accepts cl c); [|done].
      destruct (Regex.items its k s) as [r'|] eqn:E; [|done].
      intros [= ->]. destruct (IH _ _ E) as (a & s' & -> & Hk).
      by exists (String c a), s'.
    + destruct s as [|c s]; [done|]. destruct (Regex.accepts cl c); [|done].
      intros (a & s1 & -> & (b & s' & -> & Hk)%IH)%star_result.
      exists (String c (a +:+ b)), s'. split; [|done].
      change (String c (a +:+ b +:+ s') = String c ((a +:+ b) +:+ s')).
      by rewrite app_string_assoc.
    + intros (a & s1 & -> & (b & s' & -> & Hk)%IH)%star_result.
      exists (a +:+ b), s'. split; [|done]. by rewrite app_string_assoc.
Qed.

(** X2: whatever the URL, the path [handle] resolves is either the
    empty string or a piece of the URL that starts at a slash and ends
    in front of the first question mark after it; it never holds a
    question mark. *)
Theorem pathname_of_slash_and_no_query (url : string) :
  (pathname_of url = "" \/
   exists before rest,
     url = before +:+ String "/" rest /\
     pathname_of url = String "/" (before_query rest)) /\
  lacks "?" (pathname_of url).
Proof.
  assert (H : pathname_of url = "" \/
              exists before rest,
                url = before +:+ String "/" rest /\
                pathname_of url = String "/" (before_query rest)).
  { unfold pathname_of, Regex.exec_group1.
    destruct (Regex.items url_prefix _ url) as [p|] eqn:E; [|by left].
    right. apply items_result in E as (before & s1 & -> & Hk).
    destruct s1 as [|c s1]; [done|].
    destruct (bool_decide_reflect (c = "/"%char)) as [->|Hc].
    - rewrite url_group_exec in Hk. injection Hk as <-. by exists before, s1.
    - unfold url_group in Hk. cbn [Regex.items Regex.accepts] in Hk.
      by rewrite bool_decide_eq_false_2 in Hk. }
  split; [done|].
  destruct H as [->|(before & rest & _ & ->)]; [apply lacks_empty|].
  apply lacks_cons. split; [done|].
  intros a b. apply (proj2 (proj2 (before_query_spec rest))).
Qed.

(** So the path [handle] resolves is empty or starts with a slash,
    whatever the URL, and is an own key of the tables: no name of
    [Object.prototype] is empty or starts with a slash. *)
Lemma pathname_of_url_path url : Prototype.is_url_path (pathname_of url) = true.
Proof.
  unfold pathname_of, Regex.exec_group1.
  destruct (Regex.items url_prefix _ url) as [p|] eqn:E; [|done].
  apply items_result in E as (before & s1 & -> & Hk).
  destruct s1 as [|c s1]; [done|].
  destruct (bool_decide_reflect (c = "/"%char)) as [->|Hc].
  - rewrite url_group_exec in Hk. by injection Hk as <-.
  - unfold url_group in Hk. cbn [Regex.items Regex.accepts] in Hk.
    by rewrite bool_decide_eq_false_2 in Hk.
Qed.

Lemma own_key_pathname_of url : own_key (pathname_of url).
Proof. apply own_key_url_path, pathname_of_url_path. Qed.

(** For a request whose method is an own key, [handle] resolves through
    [match_] what the source's [handle] resolves. *)
Lemma Prototype_match_handle req r :
  own_key (req_method req) ->
  Prototype.match_ (req_method req) (pathname_of (req_url req)) r
  = Prototype.Returns (match_ (req_method req) (pathname_of (req_url req)) r).1
                      (match_ (req_method req) (pathname_of (req_url req)) r).2.
Proof. intros Hm. apply Prototype_match_own; [done|apply own_key_pathname_of]. Qed.

(** ** [match]: what a resolution writes *)

Lemma alter_same_registration (f : Route -> Route) ref' (h : list Route) ref route :
  (forall a, same_registration a (f a)) ->
  h !! ref = Some route ->
  exists route', alter f ref' h !! ref = Some route' /\
                 same_registration route route' /\ (ref <> ref' -> route' = route).
Proof.
  intros Hf Hr. destruct (decide (ref' = ref)) as [->|Hne].
  - exists (f route). rewrite list_lookup_alter_eq, Hr. by split; [|split; [apply Hf|]].
  - exists route. rewrite list_lookup_alter_ne by done. by split; [|split].
Qed.

Lemma same_registration_set_middleware mw a :
  same_registration a (set_middleware mw a).
Proof. done. Qed.

Lemma same_registration_set_params groups mw a :
  same_registration a (set_params groups (set_middleware mw a)).
Proof.
  repeat split. simpl. by destruct (dynamic a).
Qed.

(** What [match] does to the route objects that exist when it is
    called. *)
Lemma match_heap r method path ref route :
  heap r !! ref = Some route ->
  exists route',
    heap (match_ method path r).2 !! ref = Some route' /\
    same_registration route route' /\
    (ref <> (match_ method path r).1 -> route' = route).
Proof.
  intros Hr. unfold match_.
  destruct (cachedRoutes r !! method ≫= (.!! path)) as [cached|].
  { exists route. by split; [|split]. }
  destruct (staticRoutes r !! method ≫= (.!! path)) as [staticRoute|].
  { cbn [fst snd heap cache_route].
    apply alter_same_registration; [apply same_registration_set_middleware|done]. }
  destruct (dynamicRoutes r !! method ≫= _) as [[dynamicRoute groups]|].
  { cbn [fst snd heap cache_route].
    apply alter_same_registration; [|done].
    intros a. apply same_registration_set_params. }
  cbn [fst snd heap cache_route].
  exists route. split; [by apply lookup_app_l_Some|]. by split.
Qed.

(** X3: a resolution leaves the three registration tables as they are,
    adds at most one route object (the not-found route), and writes to
    no route object but the one it selects; on that one it leaves the
    method, the template, the handler and the pattern as registered. *)
Theorem match_rewrites_selected_route_only r method path :
  let res := match_ method path r in
  staticRoutes res.2 = staticRoutes r /\
  dynamicRoutes res.2 = dynamicRoutes r /\
  middlewares res.2 = middlewares r /\
  (length (heap r) <= length (heap res.2) <= S (length (heap r))) /\
  forall ref route,
    heap r !! ref = Some route ->
    exists route',
      heap res.2 !! ref = Some route' /\
      same_registration route route' /\
      (ref <> res.1 -> route' = route).
Proof.
  intros res. subst res.
  destruct (match_tables r method path) as (Hs & Hd & Hm).
  split; [done|]. split; [done|]. split; [done|].
  split; [|apply match_heap].
  unfold match_.
  destruct (cachedRoutes r !! method ≫= (.!! path)); [simpl; lia|].
  destruct (staticRoutes r !! method ≫= (.!! path)).
  { cbn [snd heap cache_route]. rewrite length_alter. lia. }
  destruct (dynamicRoutes r !! method ≫= _) as [[? ?]|];
    cbn [snd heap cache_route]; rewrite ?length_alter, ?length_app; simpl; lia.
Qed.

(** ** [add] and [match]: where a resolved route comes from *)

Section OriginProperties.

Variable newURLPattern : string -> option URLPattern.t.

Lemma origin_mono (O O' : string -> string -> RequestHandler -> Prop) r :
  (forall m p h, O m p h -> O' m p h) ->
  origin newURLPattern O r -> origin newURLPattern O' r.
Proof.
  intros HO (Hs & Hd & Hc). repeat split.
  - intros m p ref H. destruct (Hs m p ref H) as (route & ? & ? & ? & ? & ?).
    exists route. eauto 10.
  - intros m refs ref H Hin.
    destruct (Hd m refs ref H Hin) as (route & d & ? & ? & ? & ? & ?).
    exists route, d. eauto 10.
  - intros m p ref H. destruct (Hc m p ref H) as (route & ? & ? & Ha).
    exists route. split; [done|]. split; [done|].
    destruct (dynamic route).
    + destruct Ha as (? & ? & ?). eauto.
    + destruct Ha as [? [?|?]]; eauto.
Qed.

Lemma origin_empty O : origin newURLPattern O empty_router.
Proof.
  repeat split; intros ? ? ?; unfold static_at; simpl; rewrite lookup_empty; discriminate.
Qed.

(** The static table after [add]. *)
Lemma static_at_add m p handler r m' p' :
  static_at (add newURLPattern m p handler r) m' p'
  = if isDynamic p then static_at r m' p'
    else if decide (m = m' /\ p = p') then Some (length (heap r))
         else static_at r m' p'.
Proof.
  destruct (isDynamic p) eqn:Hdyn.
  - unfold add, static_at. rewrite Hdyn. cbn [negb]. by destruct (newURLPattern p).
  - case_decide as Heq.
    + destruct Heq as [<- <-]. by apply add_static_hit.
    + apply add_static_other.
      destruct (decide (m = m')); [right|left]; naive_solver.
Qed.

(** The arrays of dynamic routes after [add]: an element was there
    before, or it is the route just built. *)
Lemma dynamic_add m p handler r m' refs ref :
  dynamicRoutes (add newURLPattern m p handler r) !! m' = Some refs ->
  ref ∈ refs ->
  (exists old, dynamicRoutes r !! m' = Some old /\ ref ∈ old) \/
  (m' = m /\ ref = length (heap r) /\ exists pat,
     newURLPattern p = Some pat /\
     heap (add newURLPattern m p handler r) !! ref
     = Some {| method := m; pathname := p; handler := handler;
               middleware := None;
               dynamic := Some {| pattern := pat; params := ∅ |} |}).
Proof.
  unfold add. destruct (isDynamic p); cbn [negb]; [|by eauto].
  destruct (newURLPattern p) as [pat|]; [|by eauto].
  cbn [dynamicRoutes heap]. intros Hrefs Hin.
  assert (Hnew : (heap r ++ [ {| method := m; pathname := p;
                                 handler := handler; middleware := None;
                                 dynamic := Some {| pattern := pat; params := ∅ |} |} ])
                 !! length (heap r)
                 = Some {| method := m; pathname := p;
                           handler := handler; middleware := None;
                           dynamic := Some {| pattern := pat; params := ∅ |} |}).
  { by rewrite lookup_app_r, Nat.sub_diag. }
  destruct (decide (m' = m)) as [->|Hne].
  - destruct (dynamicRoutes r !! m) as [old|] eqn:Hold;
      rewrite lookup_insert_eq in Hrefs; injection Hrefs as <-.
    + apply elem_of_app in Hin as [Hin|Hin%list_elem_of_singleton]; [by eauto|].
      subst ref. right. eauto.
    + apply list_elem_of_singleton in Hin. subst ref. right. eauto.
  - destruct (dynamicRoutes r !! m);
      rewrite lookup_insert_ne in Hrefs by done; eauto.
Qed.

Lemma origin_add O m p handler r :
  O m p handler ->
  origin newURLPattern O r ->
  origin newURLPattern O (add newURLPattern m p handler r).
Proof.
  intros HO (Hs & Hd & Hc).
  destruct (add_frame newURLPattern m p handler r) as (Hcache & new & Hheap).
  assert (Hold : forall ref route, heap r !! ref = Some route ->
                   heap (add newURLPattern m p handler r) !! ref = Some route).
  { intros ref route Hr. rewrite Hheap. by apply lookup_app_l_Some. }
  repeat split.
  - intros m' p' ref. rewrite static_at_add.
    destruct (isDynamic p) eqn:Hdyn.
    + intros H. destruct (Hs m' p' ref H) as (route & Hr & Hrest). eauto.
    + case_decide as Heq.
      * destruct Heq as [<- <-]. intros [= <-].
        eexists. split; [by apply add_static_hit|]. done.
      * intros H. destruct (Hs m' p' ref H) as (route & Hr & Hrest). eauto.
  - intros m' refs ref Hrefs Hin.
    destruct (dynamic_add _ _ _ _ _ _ _ Hrefs Hin)
      as [(old & Hold' & Hin')|(-> & -> & pat & Hpat & Hr)].
    + destruct (Hd m' old ref Hold' Hin') as (route & d & Hr & Hrest). eauto.
    + eexists _, _. split; [exact Hr|]. done.
  - intros m' p' ref. rewrite Hcache. intros H.
    destruct (Hc m' p' ref H) as (route & Hr & Hrest). eauto.
Qed.

Lemma origin_use O path handler r :
  origin newURLPattern O r -> origin newURLPattern O (use newURLPattern path handler r).
Proof.
  intros H. unfold use.
  destruct (use_existing path handler (middlewares r)); [done|].
  by destruct (newURLPattern path).
Qed.

Lemma origin_register O op r :
  (forall methods path handler m,
      op = Add methods path handler -> m ∈ methods -> O m path handler) ->
  origin newURLPattern O r -> origin newURLPattern O (register newURLPattern op r).
Proof.
  destruct op as [methods path handler|path handler]; simpl; [|intros _; apply origin_use].
  intros HO. unfold add_all.
  assert (Hall : forall m, m ∈ methods -> O m path handler) by eauto.
  clear HO. revert r. induction methods as [|m methods IH]; intros r Hr; [done|].
  simpl. apply IH.
  - intros m' Hin. apply Hall. by right.
  - apply origin_add; [|done]. apply Hall. by left.
Qed.

(** On a miss, the route [match] selects: the static route of the pair,
    a dynamic route of the method whose pattern matches, with the
    captures stored on it, or the new not-found route. *)
Lemma match_miss_cases r m p :
  cachedRoutes r !! m ≫= (.!! p) = None ->
  let res := match_ m p r in
  static_at r m p = Some res.1 \/
  (exists routes groups,
      dynamicRoutes r !! m = Some routes /\ res.1 ∈ routes /\
      exec_at (heap r) p res.1 = Some groups /\
      heap res.2 !! res.1
      = set_params groups <$> (set_middleware (collect p (middlewares r))
                                 <$> heap r !! res.1)) \/
  heap res.2 !! res.1
  = Some {| method := m; pathname := p; handler := not_found_handler;
            middleware := Some (collect p (middlewares r)); dynamic := None |}.
Proof.
  intros Hmiss. unfold match_, static_at. rewrite Hmiss.
  destruct (staticRoutes r !! m ≫= (.!! p)) as [staticRoute|]; [by left|].
  right.
  destruct (dynamicRoutes r !! m) as [routes|] eqn:Hroutes; simpl.
  - destruct (scan (heap r) p (reverse routes)) as [[dynamicRoute groups]|] eqn:Hscan.
    + left. apply scan_Some in Hscan as [Hin Hex]. rewrite elem_of_reverse in Hin.
      exists routes, groups. split; [done|]. split; [done|]. split; [done|].
      cbn [fst snd heap cache_route]. rewrite list_lookup_alter_eq.
      by destruct (heap r !! dynamicRoute).
    + right. cbn [fst snd heap cache_route]. by rewrite lookup_app_r, Nat.sub_diag.
  - right. cbn [fst snd heap cache_route]. by rewrite lookup_app_r, Nat.sub_diag.
Qed.

(** The route object [match] selects, when it exists already, is filed
    under the requested method. *)
Lemma match_selects_method O m p r route :
  origin newURLPattern O r ->
  heap r !! (match_ m p r).1 = Some route -> method route = m.
Proof.
  intros (Hs & Hd & Hc) Hr.
  destruct (cachedRoutes r !! m ≫= (.!! p)) as [cached|] eqn:Hcached.
  { rewrite (match_hit _ _ _ _ Hcached) in Hr.
    destruct (Hc _ _ _ Hcached) as (route0 & Hr0 & Hm & _). simpl in Hr. congruence. }
  destruct (match_miss_cases r m p Hcached)
    as [Hstatic|[(routes & groups & Hroutes & Hin & _)|Hnf]].
  - destruct (Hs _ _ _ Hstatic) as (route0 & Hr0 & Hm & _). congruence.
  - destruct (Hd _ _ _ Hroutes Hin) as (route0 & d & Hr0 & Hm & _). congruence.
  - destruct (match_heap r m p _ route Hr) as (route' & Hr' & (Hm & _) & _).
    rewrite Hnf in Hr'. injection Hr' as <-. done.
Qed.

Lemma origin_match O m p r :
  origin newURLPattern O r -> origin newURLPattern O (match_ m p r).2.
Proof.
  intros Horigin. pose proof Horigin as (Hs & Hd & Hc).
  destruct (cachedRoutes r !! m ≫= (.!! p)) as [cached|] eqn:Hcached.
  { by rewrite (match_hit _ _ _ _ Hcached). }
  destruct (match_tables r m p) as (Hst & Hdt & _).
  repeat split.
  - intros m' p' ref. unfold static_at. rewrite Hst. intros H.
    destruct (Hs m' p' ref H) as (route & Hr & Hm & Hp & Hdyn & HO).
    destruct (match_heap r m p ref route Hr)
      as (route' & Hr' & (Hm' & Hp' & Hh' & Hd') & _).
    exists route'. split; [done|]. rewrite <- Hm', <- Hp', <- Hh'.
    rewrite Hdyn in Hd'. by destruct (dynamic route').
  - intros m' refs ref. rewrite Hdt. intros Hrefs Hin.
    destruct (Hd m' refs ref Hrefs Hin) as (route & d & Hr & Hm & Hdyn & Hpat & HO).
    destruct (match_heap r m p ref route Hr)
      as (route' & Hr' & (Hm' & Hp' & Hh' & Hd') & _).
    rewrite Hdyn in Hd'. destruct (dynamic route') as [d'|] eqn:Hdyn'; [|done].
    injection Hd' as Hd'.
    exists route', d'. rewrite <- Hm', <- Hp', <- Hh', <- Hd'. done.
  - intros m' p' ref. rewrite (match_miss_cache _ _ _ Hcached).
    destruct (decide (m' = m /\ p' = p)) as [[-> ->]|Hne].
    + rewrite lookup_insert_eq. simpl. rewrite lookup_singleton_eq. intros [= <-].
      destruct (match_miss_cases r m p Hcached)
        as [Hstatic|[(routes & groups & Hroutes & Hin & Hex & Hnew)|Hnf]].
      * destruct (Hs _ _ _ Hstatic) as (route & Hr & Hm & Hp & Hdyn & HO).
        destruct (match_heap r m p _ route Hr)
          as (route' & Hr' & (Hm' & Hp' & Hh' & Hd') & _).
        exists route'. split; [done|]. split; [congruence|].
        rewrite Hdyn in Hd'. destruct (dynamic route'); [done|].
        rewrite <- Hp', <- Hh'. eauto.
      * destruct (Hd _ _ _ Hroutes Hin) as (route & d & Hr & Hm & Hdyn & Hpat & HO).
        rewrite Hr in Hnew. eexists. split; [exact Hnew|].
        split; [done|]. simpl. rewrite Hdyn. simpl. split; [done|]. split; [|done].
        unfold exec_at in Hex. rewrite Hr in Hex. simpl in Hex. rewrite Hdyn in Hex.
        done.
      * eexists. split; [exact Hnf|]. split; [done|]. simpl. eauto.
    + intros H.
      assert (Hm : m' <> m).
      { intros ->. rewrite lookup_insert_eq in H. simpl in H.
        rewrite lookup_singleton_ne in H; [done|]. naive_solver. }
      rewrite lookup_insert_ne in H by done.
      destruct (Hc m' p' ref H) as (route & Hr & Ha).
      destruct (match_heap r m p ref route Hr) as (route' & Hr' & _ & Hsame).
      exists route'. split; [done|]. rewrite Hsame; [done|].
      intros ->. destruct Ha as [Ha _].
      apply (match_selects_method O m p r route Horigin) in Hr. congruence.
Qed.

Lemma origin_after_steps steps :
  origin newURLPattern (registered steps) (after_steps newURLPattern steps).
Proof.
  induction steps as [|s steps IH] using rev_ind; [apply origin_empty|].
  unfold after_steps. rewrite foldl_app. simpl.
  fold (after_steps newURLPattern steps).
  assert (IH' : origin newURLPattern (registered (steps ++ [s]))
                       (after_steps newURLPattern steps)).
  { revert IH. apply origin_mono. intros m p h (methods & Hin & Hm).
    exists methods. split; [|done]. apply elem_of_app. by left. }
  destruct s as [op|m p]; simpl.
  - apply origin_register; [|done].
    intros methods path handler m -> Hin. exists methods. split; [|done].
    apply elem_of_app. right. by left.
  - by apply origin_match.
Qed.


End OriginProperties.

(** X4: on a router built by the class's own methods with methods and
    paths that are own keys of the tables, whatever was registered and
    resolved before, [match] of a method and a path that are own keys
    answers with a route object of the requested method.  A dynamic
    route was registered for that method, its pattern is the one
    compiled from its template, and that pattern matches the requested
    path with exactly the captures the route holds as [params], on a
    cache hit as well; any other route stands at the requested path
    itself and is a route registered for the method at that path, or the
    not-found route.  (A name of [Object.prototype] is outside: with the
    method [constructor] the source's [match] throws, and with the path
    [constructor] it finds the inherited function in a table of static
    routes.) *)
Theorem match_answers_with_a_route_of_the_method newURLPattern steps m p :
  Forall plain_step steps -> own_key m -> own_key p ->
  let res := match_ m p (after_steps newURLPattern steps) in
  Prototype.match_ m p (after_steps newURLPattern steps)
  = Prototype.Returns res.1 res.2 /\
  exists route,
    heap res.2 !! res.1 = Some route /\
    method route = m /\
    match dynamic route with
    | Some d =>
        newURLPattern (pathname route) = Some (pattern d) /\
        URLPattern.exec (pattern d) p = Some (params d) /\
        registered steps m (pathname route) (handler route)
    | None =>
        pathname route = p /\
        (registered steps m p (handler route) \/
         handler route = not_found_handler)
    end.
Proof.
  intros _ Hm Hp res. split; [by apply Prototype_match_own|].
  destruct (origin_match newURLPattern _ m p _
              (origin_after_steps newURLPattern steps)) as (_ & _ & Hc).
  apply (Hc m p). apply match_cached.
Qed.

(** The route of [/contacts/:name], resolved for a second path after a
    later registration. *)
Lemma match_answers_with_a_route_of_the_method_witness :
  let steps := [ Registers (Add ["GET"; "HEAD"] "/contacts/:name" Examples.contact);
                 Resolves "GET" "/contacts/ada";
                 Registers (Add ["GET"] "/about" Examples.admin) ] in
  let res := match_ "GET" "/contacts/grace" (after_steps Examples.compile steps) in
  res.1 = 0%nat /\
  exists route,
    heap res.2 !! res.1 = Some route /\
    method route = "GET" /\
    match dynamic route with
    | Some d =>
        Examples.compile (pathname route) = Some (pattern d) /\
        URLPattern.exec (pattern d) "/contacts/grace" = Some (params d) /\
        registered steps "GET" (pathname route) (handler route)
    | None =>
        pathname route = "/contacts/grace" /\
        (registered steps "GET" "/contacts/grace" (handler route) \/
         handler route = not_found_handler)
    end.
Proof.
  intros steps. split; [reflexivity|].
  assert (Hget : own_key "GET") by (by apply (bool_decide_unpack _); vm_compute).
  assert (Hhead : own_key "HEAD") by (by apply (bool_decide_unpack _); vm_compute).
  assert (Hsteps : Forall plain_step steps).
  { repeat first [apply Forall_cons; split | apply Forall_nil];
      simpl; repeat split; auto using own_key_slash.
    all: repeat first [apply Forall_cons; split | apply Forall_nil]; done. }
  apply (proj2 (match_answers_with_a_route_of_the_method Examples.compile steps
                  "GET" "/contacts/grace" Hsteps Hget (own_key_slash _))).
Defined.

(** X5: the routes of different methods are different objects, and a
    resolution writes to an object of the requested method only.  On a
    router built by the class's own methods, resolving a path for one
    method leaves every route object of every other method exactly as
    it was, with the middleware and the captures stored on it. *)
Theorem match_leaves_the_routes_of_other_methods newURLPattern steps m p ref route :
  let r := after_steps newURLPattern steps in
  heap r !! ref = Some route -> method route <> m ->
  heap (match_ m p r).2 !! ref = Some route.
Proof.
  intros r Hr Hm.
  destruct (match_heap r m p ref route Hr) as (route' & Hr' & _ & Hsame).
  rewrite Hr', Hsame; [done|]. intros ->.
  apply (match_selects_method newURLPattern _ m p r route
           (origin_after_steps newURLPattern steps)) in Hr.
  done.
Qed.

Lemma match_leaves_the_routes_of_other_methods_witness :
  let steps := [Registers (Add ["GET"; "HEAD"] "/contacts/:name" Examples.contact)] in
  let r := after_steps Examples.compile steps in
  (exists route, heap r !! 1%nat = Some route /\ method route = "HEAD" /\
                 heap (match_ "GET" "/contacts/ada" r).2 !! 1%nat = Some route) /\
  route_params <$> heap (match_ "GET" "/contacts/ada" r).2 !! 0%nat
  = Some {["name" := Some "ada"]} /\
  route_params <$> heap (match_ "GET" "/contacts/ada" r).2 !! 1%nat = Some ∅.
Proof.
  intros steps r.
  destruct (heap r !! 1%nat) as [route|] eqn:Hr; [|by vm_compute in Hr].
  assert (Hm : method route = "HEAD").
  { vm_compute in Hr. by injection Hr as <-. }
  pose proof (match_leaves_the_routes_of_other_methods Examples.compile steps
                "GET" "/contacts/ada" 1%nat route Hr) as H.
  assert (Hne : method route <> "GET") by by rewrite Hm.
  specialize (H Hne).
  split; [by exists route|].
  split; vm_compute; reflexivity.
Defined.

(** ** [add], [use] and [match]: the cache is never invalidated *)



(** A run of it: [/about] is requested before it is registered and
    answers 404; it is registered and still answers 404; another path is
    requested; then [/about] answers with its handler. *)
Example later_registration_is_seen_after_eviction :
  let about := Examples.GET "http://localhost/about" in
  let other := Examples.GET "http://localhost/other" in
  let r1 := (handle empty_router about ∅).2 in
  let r2 := get Examples.compile "/about" Examples.admin r1 in
  let r3 := (handle r2 about ∅).2 in
  let r4 := (handle r3 other ∅).2 in
  (handle r2 about ∅).1.1 = Resolved not_found_response /\
  (handle r4 about ∅).1.1 = Resolved Examples.secret.
Proof. vm_compute. done. Qed.

(** ** [add] and [match]: the static route of a pair *)

Section StaticRoute.

Variable newURLPattern : string -> option URLPattern.t.










End StaticRoute.




(** ** [match]: one route object behind many paths *)




(** ** [#handleRoute]: the captures on the context object *)

Lemma sees_log_effect key v tag st : sees key v st -> sees key v (log (Effect tag) st).
Proof.
  intros [Hc Ht]. split; [done|]. intros l c. simpl.
  rewrite elem_of_app, list_elem_of_singleton. intros [H|H]; [by eauto|done].
Qed.

Lemma sees_enter key v l st : sees key v st -> sees key v (enter l st).
Proof.
  intros [Hc Ht]. split; [done|]. intros l' c. simpl.
  rewrite elem_of_app, list_elem_of_singleton. intros [H|[= _ ->]]; [by eauto|done].
Qed.

Lemma sees_insert key v key' v' st :
  key' <> key -> sees key v st -> sees key v (set_ctx (insert key' v') st).
Proof.
  intros Hne [Hc Ht]. split; [|done]. simpl. by rewrite lookup_insert_ne.
Qed.

Lemma run_sees {C} key v (call : C -> Exec -> Outcome * Exec) (p : Prog C) :
  Keeps key p ->
  (forall c st, sees key v st -> sees key v (call c st).2) ->
  forall st, sees key v st -> sees key v (run call p st).2.
Proof.
  intros Hp Hcall.
  induction Hp as [r|e|tag k _ IH|k _ IH|key' v' k Hne _ IH|c k _ IH];
    intros st Hst; simpl; auto.
  - by apply IH, sees_log_effect.
  - by apply IH, sees_insert.
  - specialize (Hcall c st Hst). destruct (call c st) as [o st']. by apply IH.
Qed.

Lemma next_sees key v depth middlewares request i st :
  key <> "next" ->
  Forall (fun h : MiddlewareHandler => Keeps key (h request)) middlewares ->
  sees key v st -> sees key v (next depth middlewares request i st).2.
Proof.
  intros Hkey Hall. revert i st.
  induction depth as [|depth IH]; intros i st Hst.
  - simpl. destruct (i <=? index st)%Z; [done|]. by destruct (at_ middlewares i).
  - destruct (Z.le_gt_cases i (index st)) as [Hi|Hi].
    + by rewrite next_rejected.
    + rewrite next_unfold by done.
      destruct (at_ middlewares i) as [fn|] eqn:Hat; [|done].
      apply run_sees; [|by auto|].
      * apply at_elem in Hat. by apply (proj1 (Forall_forall _ _) Hall).
      * by apply sees_enter, sees_insert.
Qed.

(** X8: line 150 copies every capture of the route onto the context
    object itself, next to [next].  Whenever the route carries a
    composed middleware (after [match] it always does), a capture named
    [key], other than [next] and [params], is a property of the context
    every middleware and the route handler receive, and of the caller's
    object after the dispatch, in place of whatever the caller had
    stored under that name, as long as no handler assigns to it. *)
Theorem captures_are_assigned_onto_the_context route request context key capture :
  is_Some (middleware route) ->
  route_params route !! key = Some capture ->
  key <> "next" -> key <> "params" ->
  handlers_keep key route request ->
  let res := handleRoute route request context in
  ctx res.2 !! key = Some (group_value capture) /\
  forall l c, Enter l c ∈ trace res.2 -> c !! key = Some (group_value capture).
Proof.
  intros [composed Hmw] Hcap Hnext Hparams [Hh Hall] res.
  change (sees key (group_value capture) res.2).
  subst res. unfold handleRoute. rewrite Hmw in *. simpl in Hall.
  set (st0 := set_ctx _ _).
  assert (H0 : sees key (group_value capture) st0).
  { split; [|by intros l c H; apply elem_of_nil in H].
    simpl. by rewrite lookup_assign_next_params, Hcap. }
  pose proof (next_sees key _ (length composed) composed request 0
                (set_index (-1) st0) Hnext Hall H0) as H1.
  fold (composeMiddleware composed request st0) in H1.
  destruct (composeMiddleware composed request st0) as [[response|e] st]; [|done].
  apply run_sees; [done|by intros []|].
  by apply sees_enter, sees_insert.
Qed.

Lemma captures_are_assigned_onto_the_context_witness :
  let route := {| method := "GET"; pathname := "/:user"; handler := Examples.admin;
                  middleware := Some [Examples.pass "seen"];
                  dynamic := Some {| pattern := {| URLPattern.pathname := "/:user";
                                                   URLPattern.exec := fun _ => None |};
                                     params := {["user" := Some "bob"]} |} |} in
  let res := handleRoute route (Examples.GET "http://localhost/bob")
               {["user" := VStr "ada"]} in
  ctx res.2 !! "user" = Some (VStr "bob") /\
  forall l c, Enter l c ∈ trace res.2 -> c !! "user" = Some (VStr "bob").
Proof.
  intros route res.
  apply (captures_are_assigned_onto_the_context route
           (Examples.GET "http://localhost/bob") {["user" := VStr "ada"]}
           "user" (Some "bob")).
  - by eexists.
  - vm_compute; reflexivity.
  - done.
  - done.
  - split.
    + simpl. repeat constructor.
    + simpl. constructor; [|constructor].
      unfold Examples.pass, await_ctx_next. constructor. constructor.
      intros context'. destruct (context' !! "next") as [[| |[|i]|]|]; repeat constructor.
      intros o. destruct o; constructor.
Defined.

(** ** [composeMiddleware]: what [next] gives back *)

Lemma run_relays_to (call : Z -> Exec -> Outcome * Exec) i p :
  RelaysTo i p ->
  forall st, ctx st !! "next" = Some (VNext (BoundNext i)) ->
  exists st', run call p st = call i st' /\ index st' = index st.
Proof.
  induction 1 as [tag k _ IH|k _ IH|key v k Hkey _ IH|]; intros st Hnext; simpl.
  - destruct (IH (log (Effect tag) st) Hnext) as (st' & -> & Hi). by exists st'.
  - by apply IH.
  - destruct (IH (set_ctx (insert key v) st)) as (st' & -> & Hi).
    + simpl. by rewrite lookup_insert_ne.
    + by exists st'.
  - exists st. split; [|done]. by destruct (call i st) as [[r|e] st'].
Qed.

Lemma next_relays middlewares request (k : nat) :
  (forall (j : nat) fn, middlewares !! j = Some fn ->
                        RelaysTo (Z.of_nat j + 1) (fn request)) ->
  forall (i : nat) depth st,
    length middlewares = i + k -> k <= depth -> (index st < Z.of_nat i)%Z ->
    (next depth middlewares request (Z.of_nat i) st).1 = Resolved empty_response.
Proof.
  intros Hall. induction k as [|k IH]; intros i depth st Hlen Hdepth Hindex;
    rewrite next_unfold by done; unfold at_;
    rewrite (proj2 (Z.ltb_ge _ _)) by lia; rewrite Nat2Z.id.
  - by rewrite lookup_ge_None_2 by lia.
  - destruct (lookup_lt_is_Some_2 middlewares i) as [fn Hfn]; [lia|].
    rewrite Hfn. destruct depth as [|depth]; [lia|].
    destruct (run_relays_to (next depth middlewares request) _ _ (Hall i fn Hfn)
                (enter (Mw (Z.of_nat i))
                   (set_ctx (insert "next" (VNext (BoundNext (Z.of_nat i + 1))))
                      (set_index (Z.of_nat i) st))))
      as (st' & -> & Hi).
    { simpl. apply lookup_insert_eq. }
    replace (Z.of_nat i + 1)%Z with (Z.of_nat (S i)) by lia.
    apply IH; [lia|lia|]. rewrite Hi. simpl. lia.
Qed.

(** X9: the route handler is no link of the composed chain, so its
    response never passes through a middleware.  When every middleware
    of a route ends by returning what its [next] gave, the composed chain
    resolves to the empty 200 response that [next] produces past the end
    of the array (line 178), which is therefore what each of them
    returns; the result of the dispatch is the route handler's, run
    after them. *)
Theorem relaying_middleware_return_an_empty_response route request context mws :
  middleware route = Some mws ->
  (forall (j : nat) fn, mws !! j = Some fn -> RelaysTo (Z.of_nat j + 1) (fn request)) ->
  (middleware_phase route request context).1 = Resolved empty_response /\
  handleRoute route request context
  = run no_call (handler route request)
        (enter Terminal
           (set_ctx (assign_params (route_params route))
                    (middleware_phase route request context).2)).
Proof.
  intros Hmw Hall.
  assert (H : (middleware_phase route request context).1 = Resolved empty_response).
  { unfold middleware_phase. rewrite Hmw. unfold composeMiddleware.
    apply (next_relays mws request (length mws) Hall 0%nat); [done|done|simpl; lia]. }
  split; [done|]. by rewrite handleRoute_eq, H.
Qed.

Lemma relaying_middleware_return_an_empty_response_witness :
  let route := {| method := "GET"; pathname := "/admin"; handler := Examples.admin;
                  middleware := Some [Examples.pass "first"; Examples.pass "second"];
                  dynamic := None |} in
  let request := Examples.GET "http://localhost/admin" in
  (middleware_phase route request ∅).1 = Resolved empty_response /\
  (handleRoute route request ∅).1 = Resolved Examples.secret.
Proof.
  intros route request.
  destruct (relaying_middleware_return_an_empty_response route request ∅
              [Examples.pass "first"; Examples.pass "second"]) as [H1 H2].
  - reflexivity.
  - intros j fn Hfn.
    assert (Hpass : forall tag i, RelaysTo i (Examples.pass tag request)).
    { intros tag i. unfold Examples.pass, await_ctx_next.
      constructor. constructor. intros context' ->. constructor. }
    destruct j as [|[|j]]; simpl in Hfn; [| |done]; injection Hfn as <-; apply Hpass.
  - split; [exact H1|]. rewrite H2. vm_compute. reflexivity.
Defined.

(** ** [use]: the middleware already selected *)

Lemma collect_cons p pat handlers mws :
  collect p ((pat, handlers) :: mws)
  = (if URLPattern.test pat p then handlers else []) ++ collect p mws.
Proof. reflexivity. Qed.

Lemma use_existing_inserts path handler mws mws' p :
  use_existing path handler mws = Some mws' ->
  exists l1 l2,
    collect p mws = l1 ++ l2 /\
    (collect p mws' = l1 ++ l2 \/ collect p mws' = l1 ++ handler :: l2).
Proof.
  revert mws'. induction mws as [|[pat handlers] mws IH]; intros mws';
    cbn [use_existing]; [done|].
  case_bool_decide as Hpat.
  - intros [= <-]. rewrite !collect_cons.
    destruct (URLPattern.test pat p).
    + exists handlers, (collect p mws). split; [done|]. right.
      by rewrite <- app_assoc.
    + exists [], (collect p mws). split; [done|]. by left.
  - destruct (use_existing path handler mws) as [mws1|]; [|done].
    intros [= <-]. destruct (IH mws1 eq_refl) as (l1 & l2 & Hbefore & Hafter).
    rewrite !collect_cons. rewrite Hbefore.
    exists ((if URLPattern.test pat p then handlers else []) ++ l1), l2.
    split; [by rewrite app_assoc|].
    destruct Hafter as [-> | ->]; [left|right]; by rewrite app_assoc.
Qed.

Lemma use_inserts newURLPattern path handler r p :
  exists l1 l2,
    collect p (middlewares r) = l1 ++ l2 /\
    (collect p (middlewares (use newURLPattern path handler r)) = l1 ++ l2 \/
     collect p (middlewares (use newURLPattern path handler r)) = l1 ++ handler :: l2).
Proof.
  unfold use.
  destruct (use_existing path handler (middlewares r)) as [mws|] eqn:Hex.
  - by apply use_existing_inserts with path.
  - exists (collect p (middlewares r)), []. rewrite app_nil_r. split; [done|].
    destruct (newURLPattern path) as [pat|]; simpl; [|by left].
    rewrite collect_app, collect_entry.
    destruct (URLPattern.test pat p); [by right|left; by rewrite app_nil_r].
Qed.

Lemma add_middlewares newURLPattern method path handler r :
  middlewares (add newURLPattern method path handler r) = middlewares r.
Proof.
  unfold add. destruct (isDynamic path); simpl; [|done].
  by destruct (newURLPattern path).
Qed.

Lemma register_collect newURLPattern op r p :
  collect p (middlewares r)
    `sublist_of` collect p (middlewares (register newURLPattern op r)).
Proof.
  destruct op as [methods path handler|path handler]; simpl.
  - unfold add_all. revert r. induction methods as [|m methods IH]; intros r; [done|].
    simpl. etrans; [|apply IH]. by rewrite add_middlewares.
  - destruct (use_inserts newURLPattern path handler r p)
      as (l1 & l2 & -> & [-> | ->]); [done|].
    apply sublist_app; [done|]. by apply sublist_cons.
Qed.

(** X10: registering never takes a middleware away from a path and never
    reorders what was there.  For every path, the handlers selected after
    a call of [use] are the handlers selected before it, in the same
    order, with the new handler inserted at one place or not at all; and
    across any sequence of [add] and [use] calls the handlers selected
    before are a subsequence, in the same order, of those selected
    after. *)
Theorem registration_keeps_the_middleware_of_a_path newURLPattern :
  (forall path handler r p,
      exists l1 l2,
        collect p (middlewares r) = l1 ++ l2 /\
        (collect p (middlewares (use newURLPattern path handler r)) = l1 ++ l2 \/
         collect p (middlewares (use newURLPattern path handler r))
         = l1 ++ handler :: l2)) /\
  (forall ops r p,
      collect p (middlewares r)
        `sublist_of` collect p (middlewares (register_all newURLPattern ops r))).
Proof.
  split; [intros; apply use_inserts|].
  intros ops. induction ops as [|op ops IH]; intros r p; [done|].
  simpl. etrans; [apply register_collect|apply IH].
Qed.

(** ** [add] and its shorthands: one method at a time *)

Lemma scan_heap_app h new path refs :
  (forall ref, ref ∈ refs -> is_Some (h !! ref)) ->
  scan (h ++ new) path refs = scan h path refs.
Proof.
  induction refs as [|ref refs IH]; intros Hvalid; simpl; [done|].
  destruct (Hvalid ref) as [route Hr]; [by left|].
  rewrite (lookup_app_l_Some _ _ _ _ Hr), Hr. simpl.
  destruct (dynamic route ≫= _); [done|].
  apply IH. intros ref' Hin. apply Hvalid. by right.
Qed.

(** [match] reads the router through the three lookups for its method
    and path, the middleware table and the objects behind the references
    it finds: a router that agrees on these with a well-formed one
    resolves to an equal route object. *)
Lemma match_agree r r' new m p :
  wf r ->
  heap r' = heap r ++ new ->
  cachedRoutes r' !! m ≫= (.!! p) = cachedRoutes r !! m ≫= (.!! p) ->
  static_at r' m p = static_at r m p ->
  dynamicRoutes r' !! m = dynamicRoutes r !! m ->
  middlewares r' = middlewares r ->
  heap (match_ m p r').2 !! (match_ m p r').1
  = heap (match_ m p r).2 !! (match_ m p r).1.
Proof.
  intros (Hws & Hwc & Hwd) Hheap Hc Hs Hd Hm. unfold match_, static_at in *.
  rewrite Hc, Hs, Hd, Hm, Hheap.
  destruct (cachedRoutes r !! m ≫= (.!! p)) as [cached|] eqn:Hcached.
  { cbn [fst snd]. rewrite Hheap. destruct (Hwc _ _ _ Hcached) as [route Hr].
    by rewrite (lookup_app_l_Some _ _ _ _ Hr). }
  destruct (staticRoutes r !! m ≫= (.!! p)) as [staticRoute|] eqn:Hstatic.
  { cbn [fst snd heap cache_route]. destruct (Hws _ _ _ Hstatic) as [route Hr].
    by rewrite !list_lookup_alter_eq, (lookup_app_l_Some _ _ _ _ Hr), Hr. }
  destruct (dynamicRoutes r !! m) as [routes|] eqn:Hroutes; simpl.
  - rewrite scan_heap_app.
    2:{ intros ref Hin. rewrite elem_of_reverse in Hin.
        destruct (Hwd _ _ _ Hroutes Hin) as (route & Hr & _). by eexists. }
    destruct (scan (heap r) p (reverse routes)) as [[dynamicRoute groups]|] eqn:Hscan.
    + cbn [fst snd heap cache_route].
      apply scan_Some in Hscan as [Hin _]. rewrite elem_of_reverse in Hin.
      destruct (Hwd _ _ _ Hroutes Hin) as (route & Hr & _).
      by rewrite !list_lookup_alter_eq, (lookup_app_l_Some _ _ _ _ Hr), Hr.
    + cbn [fst snd heap cache_route].
      by rewrite !lookup_app_r, !Nat.sub_diag.
  - cbn [fst snd heap cache_route]. by rewrite !lookup_app_r, !Nat.sub_diag.
Qed.

Section Isolation.

Variable newURLPattern : string -> option URLPattern.t.

Lemma dynamic_add_other m p handler r m' :
  m' <> m ->
  dynamicRoutes (add newURLPattern m p handler r) !! m' = dynamicRoutes r !! m'.
Proof.
  intros Hne. unfold add. destruct (isDynamic p); cbn [negb]; [|done].
  destruct (newURLPattern p); [|done]. cbn [dynamicRoutes].
  by destruct (dynamicRoutes r !! m); rewrite lookup_insert_ne.
Qed.

Lemma add_all_other methods p handler r m :
  m ∉ methods ->
  let r' := add_all newURLPattern methods p handler r in
  (forall p', static_at r' m p' = static_at r m p') /\
  dynamicRoutes r' !! m = dynamicRoutes r !! m /\
  cachedRoutes r' = cachedRoutes r /\
  middlewares r' = middlewares r /\
  exists new, heap r' = heap r ++ new.
Proof.
  unfold add_all. revert r. induction methods as [|m0 methods IH]; intros r Hnot; simpl.
  { repeat split. exists []. by rewrite app_nil_r. }
  apply not_elem_of_cons in Hnot as [Hne Hnot].
  destruct (IH (add newURLPattern m0 p handler r) Hnot) as (Hs & Hd & Hc & Hm & new2 & Hh).
  destruct (add_frame newURLPattern m0 p handler r) as (Hc0 & new1 & Hh0).
  split; [|split; [|split; [|split]]].
  - intros p'. rewrite Hs. apply add_static_other. by left.
  - rewrite Hd. by apply dynamic_add_other.
  - by rewrite Hc.
  - rewrite Hm. apply add_middlewares.
  - exists (new1 ++ new2). by rewrite Hh, Hh0, app_assoc.
Qed.

(** X11: a route registered for some methods is invisible to every
    other method.  On a router built by the class's own methods, after
    [add] with an array of methods (or one of the shorthands [get],
    [post], [put], [delete], [patch], [options], which are [add] with
    their method names), [match] for a method that is not among them
    resolves every path to a route object equal to the one it resolved
    to before the call: same handler, same middleware, same captures. *)
Theorem add_is_invisible_to_other_methods steps methods path handler m p :
  m ∉ methods ->
  let r := after_steps newURLPattern steps in
  let r' := register newURLPattern (Add methods path handler) r in
  heap (match_ m p r').2 !! (match_ m p r').1
  = heap (match_ m p r).2 !! (match_ m p r).1.
Proof.
  intros Hnot r r'.
  destruct (after_steps_invariants newURLPattern steps) as [Hwf _].
  destruct (add_all_other methods path handler r m Hnot) as (Hs & Hd & Hc & Hm & new & Hh).
  apply (match_agree r r' new); [done|done| |apply Hs|done|done].
  unfold r'. simpl. by rewrite Hc.
Qed.

End Isolation.

Lemma add_is_invisible_to_other_methods_witness :
  let steps := [Registers (Add ["GET"; "HEAD"] "/about" Examples.admin)] in
  let r := after_steps Examples.compile steps in
  let r' := post Examples.compile "/about" Examples.contact r in
  heap (match_ "GET" "/about" r').2 !! (match_ "GET" "/about" r').1
  = heap (match_ "GET" "/about" r).2 !! (match_ "GET" "/about" r).1 /\
  handler <$> heap (match_ "GET" "/about" r').2 !! (match_ "GET" "/about" r').1
  = Some Examples.admin.
Proof.
  intros steps r r'. split.
  - apply (add_is_invisible_to_other_methods Examples.compile steps ["POST"]
             "/about" Examples.contact "GET" "/about").
    intros H%list_elem_of_singleton. discriminate.
  - vm_compute. reflexivity.
Defined.

(** ** The parameter types of [route_path.ts] *)

Lemma infer_around_Some sep s a b :
  RoutePath.infer_around sep s = Some (a, b) ->
  s = a +:+ String sep b /\ lacks sep a.
Proof.
  revert a. induction s as [|c s IH]; intros a; simpl; [done|].
  case_bool_decide as Hc.
  - intros [= <- <-]. subst c. split; [done|apply lacks_empty].
  - destruct (RoutePath.infer_around sep s) as [[a' b']|] eqn:E; [|done].
    intros [= <- <-]. destruct (IH a' eq_refl) as [-> Ha].
    split; [done|]. by apply lacks_cons.
Qed.

Lemma infer_around_None sep s :
  RoutePath.infer_around sep s = None -> lacks sep s.
Proof.
  induction s as [|c s IH]; simpl; [intros _; apply lacks_empty|].
  case_bool_decide as Hc; [done|].
  destruct (RoutePath.infer_around sep s) as [[a' b']|] eqn:E; [done|].
  intros _. apply lacks_cons. auto.
Qed.

Lemma infer_before_last_Some last s name :
  RoutePath.infer_before_last last s = Some name -> s = name +:+ String last "".
Proof.
  revert name. induction s as [|c s IH]; intros name; [done|].
  cbn [RoutePath.infer_before_last]. destruct s as [|d s].
  - case_bool_decide; [|done]. intros [= <-]. by subst.
  - destruct (RoutePath.infer_before_last last (String d s)) as [n|]; [|done].
    intros [= <-]. by rewrite (IH n eq_refl).
Qed.

(** The parts the type keeps are cut at slashes, so they hold none. *)
Lemma FilteredParts_lack_slash path key :
  key ∈ RoutePath.FilteredParts path -> lacks "/" key.
Proof.
  funelim (RoutePath.FilteredParts path).
  - rename H into IH. clear Heqcall H0.
    apply infer_around_Some in e as [-> Ha].
    intros [Hin|Hin]%elem_of_app; [|by eauto].
    destruct partA as [|c partA]; [by apply elem_of_nil in Hin|].
    unfold RoutePath.IsParameter in Hin.
    repeat (case_match; try by apply elem_of_nil in Hin).
    apply list_elem_of_singleton in Hin as ->. subst.
    by apply lacks_cons in Ha as [_ ?].
  - clear H Heqcall. apply infer_around_None in e.
    destruct path as [|c path]; [by intros Hin; apply elem_of_nil in Hin|].
    unfold RoutePath.IsParameter.
    repeat (case_match; try by intros Hin; apply elem_of_nil in Hin).
    intros ->%list_elem_of_singleton. subst.
    by apply lacks_cons in e as [_ ?].
Qed.

Lemma RemovePattern_lacks key :
  lacks "(" (RoutePath.RemovePattern key) /\
  (lacks "/" key -> lacks "/" (RoutePath.RemovePattern key)).
Proof.
  unfold RoutePath.RemovePattern.
  destruct (RoutePath.infer_around "(" key) as [[name rest]|] eqn:E.
  - apply infer_around_Some in E as [-> Hname]. split; [done|apply lacks_prefix].
  - apply infer_around_None in E. done.
Qed.

Lemma RemoveOptionalSuffix_lacks key :
  lacks "/" key ->
  lacks "/" (RoutePath.RemoveOptionalSuffix key) /\
  lacks "(" (RoutePath.RemoveOptionalSuffix key).
Proof.
  intros Hkey.
  assert (Hname : forall last name,
             RoutePath.infer_before_last last key = Some name ->
             lacks "/" (RoutePath.RemovePattern name) /\
             lacks "(" (RoutePath.RemovePattern name)).
  { intros last name ->%infer_before_last_Some. apply lacks_prefix in Hkey.
    split; by apply RemovePattern_lacks. }
  unfold RoutePath.RemoveOptionalSuffix.
  repeat (case_match; [by eapply Hname|]).
  split; by apply RemovePattern_lacks.
Qed.

(** X12: whatever the template, no member name of the type of
    [params] holds a slash or an opening parenthesis: the names are cut
    out between slashes, and a pattern in parentheses behind a name, with
    its modifier, is cut off. *)
Theorem route_path_names_hold_no_slash_and_no_pattern (path : string) :
  Forall (fun member => lacks "/" member.1 /\ lacks "(" member.1)
         (RoutePath.RoutePath path).
Proof.
  unfold RoutePath.RoutePath. apply Forall_fmap, Forall_forall.
  intros key Hin. simpl.
  by apply RemoveOptionalSuffix_lacks, (FilteredParts_lack_slash path).
Qed.

Lemma FilteredParts_colon rest : RoutePath.FilteredParts (String ":" rest) <> [].
Proof.
  funelim (RoutePath.FilteredParts (String ":" rest)).
  - clear H H0 Heqcall. simpl in e.
    destruct (RoutePath.infer_around "/" rest) as [[a b]|]; [|done].
    by injection e as <- <-.
  - done.
Qed.

Lemma split_at_first (sep : ascii) (a b x y : string) :
  lacks sep a ->
  a +:+ String sep b = x +:+ String sep y ->
  (x = a /\ y = b) \/ exists x', x = a +:+ String sep x' /\ b = x' +:+ String sep y.
Proof.
  revert x. induction a as [|c a IH]; intros x Ha.
  - destruct x as [|d x]; simpl.
    + intros [= <-]. by left.
    + intros [= <- ->]. right. by exists x.
  - apply lacks_cons in Ha as [Hc Ha]. destruct x as [|d x]; simpl.
    + intros [= -> _]. done.
    + intros [= <- Heq]. destruct (IH x Ha Heq) as [[-> ->]|(x' & -> & ->)].
      * by left.
      * right. by exists x'.
Qed.

Lemma FilteredParts_nonempty path :
  RoutePath.FilteredParts path <> [] <->
  (exists rest, path = String ":" rest) \/
  (exists a b, path = a +:+ String "/" (String ":" b)).
Proof.
  split.
  - funelim (RoutePath.FilteredParts path).
    + rename H into IH. clear H0 Heqcall.
      apply infer_around_Some in e as [-> Ha]. intros Hne.
      destruct (RoutePath.IsParameter partA) as [|k ks] eqn:Hk.
      * destruct (IH Hne) as [[rest ->]|(a & b & ->)].
        -- right. by exists partA, rest.
        -- right. exists (partA +:+ String "/" a), b.
           by rewrite app_string_assoc.
      * left. destruct partA as [|c partA]; [done|].
        unfold RoutePath.IsParameter in Hk.
        repeat (case_match; try done). subst. by eexists.
    + clear H Heqcall. intros Hne. left.
      destruct path as [|c path]; [done|].
      unfold RoutePath.IsParameter in Hne.
      repeat (case_match; try done). subst. by eexists.
  - intros [[rest ->]|(a & b & ->)]; [apply FilteredParts_colon|].
    remember (a +:+ String "/" (String ":" b)) as path eqn:Hpath.
    revert a Hpath.
    funelim (RoutePath.FilteredParts path); intros a Hpath.
    + rename H into IH. clear H0 Heqcall.
      apply infer_around_Some in e as [-> Ha].
      destruct (split_at_first _ _ _ _ _ Ha Hpath) as [[-> <-]|(x' & -> & ->)].
      * intros [_ Hnil]%app_eq_nil. by apply FilteredParts_colon in Hnil.
      * intros [_ Hnil]%app_eq_nil. by apply (IH b x').
    + clear H Heqcall. apply infer_around_None in e. subst path.
      by destruct (e a (String ":" b)).
Qed.

(** X13: the type of [params] has a member exactly when the template
    starts with a colon or holds a slash immediately followed by a
    colon.  So the type and [add] agree on templates without a leading
    colon: when the type names a parameter, [add] files the route as
    dynamic, and a template [add] files as static has a [params] type
    with no member, as the empty object its handler is called with. *)
Theorem typed_parameters_make_the_route_dynamic (path : string) :
  (RoutePath.RoutePath path <> [] <->
   (exists rest, path = String ":" rest) \/
   (exists a b, path = a +:+ String "/" (String ":" b))) /\
  ((forall rest, path <> String ":" rest) ->
   (RoutePath.RoutePath path <> [] -> isDynamic path = true) /\
   (isDynamic path = false -> RoutePath.RoutePath path = [])).
Proof.
  assert (Hiff : RoutePath.RoutePath path <> [] <-> RoutePath.FilteredParts path <> []).
  { unfold RoutePath.RoutePath. by destruct (RoutePath.FilteredParts path). }
  split; [by rewrite Hiff, FilteredParts_nonempty|].
  intros Hcolon.
  assert (Hdyn : RoutePath.FilteredParts path <> [] -> isDynamic path = true).
  { intros [[rest ->]|(a & b & ->)]%FilteredParts_nonempty.
    - by destruct (Hcolon rest).
    - apply isDynamic_spec. exists a, (String "/" (String ":" b)). split; [done|].
      right. by exists b. }
  split; [by intros H%Hiff%Hdyn|].
  intros Hstatic. unfold RoutePath.RoutePath.
  destruct (RoutePath.FilteredParts path) as [|key keys]; [done|].
  rewrite Hdyn in Hstatic; done.
Qed.

(** ** The earlier variant: [#handleRoute] and [#attachMiddleware] *)

Lemma run_relays (call : unit -> Exec -> Outcome * Exec) p :
  Relays p ->
  forall st, exists st',
    run call p st = call tt st' /\ index st' = index st /\
    exists evs, trace st' = trace st ++ evs /\ Forall is_effect evs.
Proof.
  induction 1 as [tag k _ IH|k _ IH|key v k _ IH|]; intros st; simpl.
  - destruct (IH (log (Effect tag) st)) as (st' & -> & Hi & evs & Ht & Hevs).
    exists st'. split; [done|]. split; [done|].
    exists (Effect tag :: evs). split.
    + rewrite Ht. simpl. by rewrite <- app_assoc.
    + by constructor.
  - apply IH.
  - destruct (IH (set_ctx (insert key v) st)) as (st' & -> & Hi & evs & Ht & Hevs).
    exists st'. eauto.
  - exists st. split.
    + by destruct (call tt st) as [[r|e] st'].
    + split; [done|]. exists []. by rewrite app_nil_r.
Qed.

Lemma Sketch_next_relays handler mws params request (i : nat) :
  Forall (fun mw : Sketch.Middleware => Relays (mw request)) mws ->
  i <= length mws ->
  forall st, index st = Z.of_nat (S i) ->
  exists st' evs,
    Sketch.next (S i) (inl handler :: (inr <$> mws)) params request st
    = run no_call (handler request) (enter Terminal st') /\
    trace st' = trace st ++ evs /\
    entered evs = (fun j => Mw (Z.of_nat j)) <$> reverse (seq 1 i) /\
    ctx st' !! "params" = Some (VParams params).
Proof.
  intros Hall. induction i as [|i IH]; intros Hi st Hst.
  - exists (set_ctx (assign_params params) (set_index 0 st)), [].
    split; [|split; [by rewrite app_nil_r|split; [done|apply lookup_insert_eq]]].
    cbn [Sketch.next]. cbn [set_index index]. rewrite Hst. done.
  - destruct (lookup_lt_is_Some_2 mws i) as [mw Hmw]; [lia|].
    rewrite (Sketch_next_middleware _ _ _ _ _ (S i) mw); [|lia|lia|].
    2:{ simpl. by rewrite list_lookup_fmap, Hmw. }
    assert (Hrel : Relays (mw request)).
    { by apply (proj1 (Forall_lookup _ _) Hall i). }
    destruct (run_relays (fun _ => Sketch.next (S i) (inl handler :: (inr <$> mws))
                                     params request) _ Hrel
                (enter (Mw (Z.of_nat (S i)))
                   (set_ctx (assign_next_params OuterNext params)
                      (set_index (Z.of_nat (S i)) st))))
      as (st1 & -> & Hindex & evs1 & Ht1 & Hevs1).
    destruct (IH ltac:(lia) st1) as (st' & evs & -> & Ht & Hent & Hparams); [done|].
    exists st', ([Enter (Mw (Z.of_nat (S i))) (assign_next_params OuterNext params (ctx st))]
                 ++ evs1 ++ evs).
    split; [done|]. split.
    { rewrite Ht, Ht1. simpl. by rewrite <- !app_assoc. }
    split; [|done].
    rewrite !entered_app, (entered_effects evs1), Hent by done.
    rewrite seq_S, reverse_app. simpl. done.
Qed.

(** X14: in the earlier variant the route handler is the innermost
    link of the chain.  When every middleware attached to a route ends by
    returning what [next] gave, the dispatch enters them from the last
    of the array down to the first, then the route handler with [params]
    assigned, and the result of the dispatch is the route handler's,
    handed back through every middleware. *)
Theorem Sketch_relaying_middleware_wrap_the_route_handler
  route request context handler mws :
  Sketch.handlers route = inl handler :: (inr <$> mws) ->
  Forall (fun mw : Sketch.Middleware => Relays (mw request)) mws ->
  exists st,
    Sketch.handleRoute route request context
    = run no_call (handler request) (enter Terminal st) /\
    entered (trace st) = (fun j => Mw (Z.of_nat j)) <$> reverse (seq 1 (length mws)) /\
    ctx st !! "params" = Some (VParams (Sketch.route_params route)).
Proof.
  intros Hh Hall. unfold Sketch.handleRoute. rewrite Hh.
  cbn [length]. rewrite length_fmap.
  destruct (Sketch_next_relays handler mws (Sketch.route_params route) request
              (length mws) Hall (le_n _)
              {| ctx := context; index := Z.of_nat (S (length mws)); trace := [] |}
              eq_refl) as (st & evs & -> & Ht & Hent & Hparams).
  exists st. split; [done|]. split; [|done]. by rewrite Ht.
Qed.

Lemma Sketch_relaying_middleware_wrap_the_route_handler_witness :
  let relay (tag : string) : Sketch.Middleware := fun _ => Emit tag (Await tt settle) in
  let route := {| Sketch.method := "GET"; Sketch.pathname := "/admin";
                  Sketch.handlers := [inl Examples.admin; inr (relay "a"); inr (relay "b")];
                  Sketch.dynamic := None |} in
  let res := Sketch.handleRoute route (Examples.GET "http://localhost/admin") ∅ in
  (exists st,
      res = run no_call (Examples.admin (Examples.GET "http://localhost/admin"))
                (enter Terminal st) /\
      entered (trace st) = [Mw 2; Mw 1]) /\
  res.1 = Resolved Examples.secret.
Proof.
  intros relay route res.
  destruct (Sketch_relaying_middleware_wrap_the_route_handler route
              (Examples.GET "http://localhost/admin") ∅ Examples.admin
              [relay "a"; relay "b"]) as (st & Hres & Hent & _).
  - reflexivity.
  - repeat constructor.
  - split; [by exists st|]. vm_compute; reflexivity.
Defined.

(** X15: in the earlier variant [#attachMiddleware] pushes onto the
    route's own array, and nothing ever takes a handler off it.  A static
    route that is resolved, dropped from the cache by the resolution of
    another route of the method, and resolved again, holds the selected
    middleware twice, so each of them runs twice in the next dispatch. *)
Theorem Sketch_middleware_is_attached_again_on_every_miss
  s method path path' ref ref' route :
  Sketch.cachedRoutes s !! method ≫= (.!! path) = None ->
  Sketch.staticRoutes s !! method ≫= (.!! path) = Some ref ->
  Sketch.staticRoutes s !! method ≫= (.!! path') = Some ref' ->
  path' <> path -> ref' <> ref ->
  Sketch.heap s !! ref = Some route ->
  let s1 := (Sketch.match_ method path s).2 in
  let s2 := (Sketch.match_ method path' s1).2 in
  let s3 := (Sketch.match_ method path s2).2 in
  let attached := inr <$> concat (Sketch.collect path (Sketch.middlewares s)) in
  Sketch.handlers <$> Sketch.heap s1 !! ref = Some (Sketch.handlers route ++ attached) /\
  Sketch.handlers <$> Sketch.heap s3 !! ref
  = Some (Sketch.handlers route ++ attached ++ attached).
Proof.
  intros Hmiss Hstatic Hstatic' Hpath Href Hroute s1 s2 s3 attached.
  assert (H1 : s1 = Sketch.cache method path ref
                      (alter (Sketch.attachMiddleware
                                (Sketch.collect path (Sketch.middlewares s)))
                             ref (Sketch.heap s)) s).
  { unfold s1, Sketch.match_. by rewrite Hmiss, Hstatic. }
  assert (Hc1 : Sketch.cachedRoutes s1 !! method ≫= (.!! path') = None).
  { rewrite H1. cbn [Sketch.cachedRoutes Sketch.cache]. rewrite lookup_insert_eq. simpl.
    by rewrite lookup_singleton_ne. }
  assert (Hs1 : Sketch.staticRoutes s1 = Sketch.staticRoutes s) by by rewrite H1.
  assert (H2 : s2 = Sketch.cache method path' ref'
                      (alter (Sketch.attachMiddleware
                                (Sketch.collect path' (Sketch.middlewares s1)))
                             ref' (Sketch.heap s1)) s1).
  { unfold s2, Sketch.match_. by rewrite Hc1, Hs1, Hstatic'. }
  assert (Hc2 : Sketch.cachedRoutes s2 !! method ≫= (.!! path) = None).
  { rewrite H2. cbn [Sketch.cachedRoutes Sketch.cache]. rewrite lookup_insert_eq. simpl.
    by rewrite lookup_singleton_ne. }
  assert (Hs2 : Sketch.staticRoutes s2 = Sketch.staticRoutes s) by by rewrite H2.
  assert (H3 : s3 = Sketch.cache method path ref
                      (alter (Sketch.attachMiddleware
                                (Sketch.collect path (Sketch.middlewares s2)))
                             ref (Sketch.heap s2)) s2).
  { unfold s3, Sketch.match_. by rewrite Hc2, Hs2, Hstatic. }
  assert (Hr1 : Sketch.heap s1 !! ref
                = Some (Sketch.attachMiddleware
                          (Sketch.collect path (Sketch.middlewares s)) route)).
  { rewrite H1. cbn [Sketch.heap Sketch.cache]. by rewrite list_lookup_alter_eq, Hroute. }
  split; [by rewrite Hr1|].
  rewrite H3. cbn [Sketch.heap Sketch.cache]. rewrite list_lookup_alter_eq.
  rewrite H2. cbn [Sketch.heap Sketch.cache Sketch.middlewares].
  rewrite list_lookup_alter_ne by done. rewrite Hr1.
  rewrite H1. cbn [Sketch.middlewares Sketch.cache]. simpl.
  by rewrite <- app_assoc.
Qed.

Lemma Sketch_middleware_is_attached_again_on_every_miss_witness :
  let relay (tag : string) : Sketch.Middleware := fun _ => Emit tag (Await tt settle) in
  let everything := {| URLPattern.pathname := "*";
                       URLPattern.exec := fun _ => Some ∅ |} in
  let page (p : string) := {| Sketch.method := "GET"; Sketch.pathname := p;
                              Sketch.handlers := [inl Examples.admin];
                              Sketch.dynamic := None |} in
  let s := {| Sketch.heap := [page "/a"; page "/b"]; Sketch.cachedRoutes := ∅;
              Sketch.dynamicRoutes := ∅;
              Sketch.staticRoutes := {["GET" := {["/a" := 0%nat; "/b" := 1%nat]}]};
              Sketch.middlewares := [(everything, [relay "log"])] |} in
  let s3 := (Sketch.match_ "GET" "/a"
               (Sketch.match_ "GET" "/b" (Sketch.match_ "GET" "/a" s).2).2).2 in
  exists route3,
    Sketch.heap s3 !! 0%nat = Some route3 /\
    length (Sketch.handlers route3) = 3 /\
    entered (trace (Sketch.handleRoute route3 (Examples.GET "http://localhost/a") ∅).2)
    = [Mw 2; Mw 1; Terminal].
Proof.
  intros relay everything page s s3.
  destruct (Sketch_middleware_is_attached_again_on_every_miss s "GET" "/a" "/b"
              0%nat 1%nat (page "/a")) as [_ H3].
  - vm_compute; reflexivity.
  - vm_compute; reflexivity.
  - vm_compute; reflexivity.
  - done.
  - done.
  - reflexivity.
  - fold s3 in H3.
    destruct (Sketch.heap s3 !! 0%nat) as [route3|] eqn:Hr; [|done].
    exists route3. split; [done|]. injection H3 as H3.
    split; [by rewrite H3|].
    unfold Sketch.handleRoute. rewrite H3. vm_compute. reflexivity.
Defined.
